(** * Verification of the PLI protocol driver (solar-monitoring)

    A shallow embedding of the JavaScript protocol driver for the
    Plasmatronics PL charge controller and of the documented history
    decoding, followed by the properties established about them.

    Source files embedded:
    - buffer.js            (module [BufferJs]):  the [CircularBuffer] class the
                           drivers obtain through [require('./buffer')];
    - tcp-server.js        (module [TcpServer]): the server's own
                           [CircularBuffer] class, and the server;
    - pli-driver.js        (module [PliDriver]): the basic driver;
    - the complete driver  (module [PliDriverComplete]);
    - COMMUNICATION_PROTOCOL.md (module [Protocol]): [readHistory] and
                           [parseDayRecord].

    JavaScript numbers that stay integral are modelled by [Z]; numbers
    that go through a decimal constant (0.1, 0.2, 0.4, 0.5) are binary64
    values ([PrimFloat.float]), which is what a JavaScript number is. *)

From Stdlib Require Import ZArith List String Bool Lia Sorted PrimFloat Uint63.
From stdpp Require Import base numbers list strings.
Import ListNotations.

Set Warnings "-inexact-float".
Local Open Scope Z_scope.

(* ===================================================================== *)
(** * JavaScript values and operators                                      *)
(* ===================================================================== *)

Module Js.

(** What a byte read from a buffer can be: [null] (the buffer classes'
    "nothing to read"), [undefined] (an index outside a typed array) or a
    number. *)
Inductive value : Type :=
| Null
| Undefined
| Num (z : Z).

Definition is_null (v : value) : bool :=
  match v with Null => true | _ => false end.

(** [v === n] for a numeric literal [n]. *)
Definition strict_eq_num (v : value) (n : Z) : bool :=
  match v with Num z => z =? n | _ => false end.

(** [v >= lo && v <= hi] for numeric literals; [undefined] converts to NaN
    and every comparison with it is false; [null] converts to 0. *)
Definition between (v : value) (lo hi : Z) : bool :=
  match v with
  | Num z => (lo <=? z) && (z <=? hi)
  | Null => (lo <=? 0) && (0 <=? hi)
  | Undefined => false
  end.

(** ToInt32: the wrap-around applied to the operands of [^], [&], [>>]. *)
Definition ToInt32 (z : Z) : Z :=
  let m := z mod 2 ^ 32 in
  if m <? 2 ^ 31 then m else m - 2 ^ 32.

Definition xor (a b : Z) : Z := Z.lxor (ToInt32 a) (ToInt32 b).
Definition and (a b : Z) : Z := Z.land (ToInt32 a) (ToInt32 b).
(** [a >> n]: sign-propagating shift by [n mod 32]. *)
Definition shr (a n : Z) : Z := Z.shiftr (ToInt32 a) (n mod 32).

(** ToUint8: what storing an integer into a [Buffer] slot keeps. *)
Definition ToUint8 (z : Z) : Z := z mod 256.

(** [Buffer.from(array)]. *)
Definition Buffer_from (l : list Z) : list Z := List.map ToUint8 l.

(** [Buffer.alloc(size)]: zero filled. *)
Definition Buffer_alloc (size : Z) : list Z := replicate (Z.to_nat size) 0.

(** [buf[i]] on a typed array. *)
Definition get (buf : list Z) (i : Z) : value :=
  if i <? 0 then Undefined
  else match buf !! Z.to_nat i with
       | Some x => Num x
       | None => Undefined
       end.

(** [buf[i] = x] on a typed array: an index outside the array is
    ignored. *)
Definition put (buf : list Z) (i : Z) (x : Z) : list Z :=
  if i <? 0 then buf else <[Z.to_nat i := ToUint8 x]> buf.

(** What a handler can throw: a [TypeError] (calling something that is
    not a function), or the error [emit('error', v)] throws when no listener
    is registered for ['error']. *)
Inductive exn : Type :=
| TypeError
| UnhandledError (v : value).

(** How a call ends: it returns, or an exception leaves it; either way
    with the state reached by then. *)
Inductive completion (A : Type) : Type :=
| Returns (a : A)
| Throws (a : A) (e : exn).
Arguments Returns {A} a.
Arguments Throws {A} a e.

(** The names every object literal inherits from [Object.prototype]:
    looked up on a literal that does not define them, they give a function
    or an object, which is truthy and converts to NaN. *)
Definition inherited : list string :=
  [ "constructor"; "__defineGetter__"; "__defineSetter__"; "hasOwnProperty";
    "__lookupGetter__"; "__lookupSetter__"; "isPrototypeOf";
    "propertyIsEnumerable"; "toString"; "valueOf"; "__proto__";
    "toLocaleString" ]%string.

(** The binary64 value of an integer below 2^63 in magnitude. *)
Definition Number (z : Z) : float :=
  match z with
  | Z0 => PrimFloat.zero
  | Zpos _ => PrimFloat.of_uint63 (Uint63.of_Z z)
  | Zneg p => PrimFloat.opp (PrimFloat.of_uint63 (Uint63.of_Z (Zpos p)))
  end.

End Js.

(* ===================================================================== *)
(** * A JavaScript [Map]: association list in insertion order              *)
(* ===================================================================== *)

Module JsMap.
Section Ops.
Context {K V : Type} `{EqDecision K}.

Definition t : Type := list (K * V).

Fixpoint has (k : K) (m : t) : bool :=
  match m with
  | [] => false
  | (k', _) :: m' => if decide (k = k') then true else has k m'
  end.

(** [set] keeps the position of a key that is already present. *)
Fixpoint set (k : K) (v : V) (m : t) : t :=
  match m with
  | [] => [(k, v)]
  | (k', v') :: m' =>
      if decide (k = k') then (k, v) :: m' else (k', v') :: set k v m'
  end.

Fixpoint delete (k : K) (m : t) : t :=
  match m with
  | [] => []
  | (k', v') :: m' =>
      if decide (k = k') then m' else (k', v') :: delete k m'
  end.

Definition keys (m : t) : list K := List.map fst m.
End Ops.
Arguments t : clear implicits.
End JsMap.

(* ===================================================================== *)
(** * buffer.js: the drivers' [CircularBuffer]                             *)
(* ===================================================================== *)

Module BufferJs.

Record CircularBuffer : Type := mk {
  buffer : list Z;
  head : Z;
  tail : Z;
  size : Z;
  count : Z
}.

(** [new CircularBuffer(size)]. *)
Definition new (size : Z) : CircularBuffer :=
  mk (Js.Buffer_alloc size) 0 0 size 0.

Definition writeByte (b : CircularBuffer) (byte : Z) : CircularBuffer :=
  let next := Z.rem (head b + 1) (size b) in
  let b1 :=
    if next =? tail b
    then mk (buffer b) (head b) (Z.rem (tail b + 1) (size b)) (size b) (count b)
    else mk (buffer b) next (tail b) (size b) (count b) in
  let b2 := mk (Js.put (buffer b1) (head b1) byte)
               (head b1) (tail b1) (size b1) (count b1) in
  if count b2 <? size b2
  then mk (buffer b2) (head b2) (tail b2) (size b2) (count b2 + 1)
  else b2.

(** [write(data)] for a [Buffer] or an array of bytes. *)
Definition write (b : CircularBuffer) (data : list Z) : CircularBuffer :=
  fold_left writeByte data b.

Definition readByte (b : CircularBuffer) : Js.value * CircularBuffer :=
  if count b =? 0 then (Js.Null, b)
  else (Js.get (buffer b) (tail b),
        mk (buffer b) (head b) (Z.rem (tail b + 1) (size b)) (size b)
           (count b - 1)).

Definition peek (b : CircularBuffer) : Js.value :=
  if count b =? 0 then Js.Null else Js.get (buffer b) (tail b).

Definition clear (b : CircularBuffer) : CircularBuffer :=
  mk (buffer b) 0 0 (size b) 0.

Definition available (b : CircularBuffer) : Z := count b.

(** [n] successive [readByte] calls, with the values they return. *)
Fixpoint readByte_n (n : nat) (b : CircularBuffer)
  : list Js.value * CircularBuffer :=
  match n with
  | O => ([], b)
  | S n' =>
      let '(v, b1) := readByte b in
      let '(vs, b2) := readByte_n n' b1 in
      (v :: vs, b2)
  end.

(** The [while] loop of [readUntil], from position [pos]: the position it
    stops at; [None] when the fuel runs out first. *)
Fixpoint readUntil_scan (fuel : nat) (b : CircularBuffer) (delimiter pos : Z)
  : option Z :=
  match fuel with
  | O => None
  | S fuel' =>
      if 0 <? count b then
        if Js.strict_eq_num (Js.get (buffer b) pos) delimiter then Some pos
        else
          let pos' := Z.rem (pos + 1) (size b) in
          if (pos' =? head b)
             && negb (Js.strict_eq_num (Js.get (buffer b) pos') delimiter)
          then Some pos'
          else readUntil_scan fuel' b delimiter pos'
      else Some pos
  end.

(** The [for] loop of [readUntil]: [n] bytes copied from the tail into the
    result; a slot that reads as [undefined] is stored as 0. *)
Fixpoint readUntil_copy (n : nat) (b : CircularBuffer)
  : list Z * CircularBuffer :=
  match n with
  | O => ([], b)
  | S n' =>
      let byte :=
        match Js.get (buffer b) (tail b) with
        | Js.Num x => Js.ToUint8 x
        | _ => 0
        end in
      let b1 := mk (buffer b) (head b) (Z.rem (tail b + 1) (size b)) (size b)
                   (count b - 1) in
      let '(bytes, b2) := readUntil_copy n' b1 in
      (byte :: bytes, b2)
  end.

(** [readUntil(delimiter)]: [Some (None, b)] is the [null] of an empty
    buffer, [Some (Some bytes, b')] the [Buffer] returned; the outer [None]
    is the scan running out of fuel. *)
Definition readUntil (b : CircularBuffer) (delimiter : Z)
  : option (option (list Z) * CircularBuffer) :=
  if count b =? 0 then Some (None, b)
  else
    match readUntil_scan (S (S (Z.to_nat (size b)))) b delimiter (tail b) with
    | None => None
    | Some pos =>
        let length := Z.rem (pos - tail b + size b) (size b) + 1 in
        let '(result, b') := readUntil_copy (Z.to_nat length) b in
        Some (Some result, b')
    end.

End BufferJs.

(* ===================================================================== *)
(** * tcp-server.js: the server's [CircularBuffer]                         *)
(* ===================================================================== *)

Module TcpServer.

Record CircularBuffer : Type := mk {
  buffer : list Z;
  head : Z;
  tail : Z;
  size : Z;
  count : Z
}.

Definition new (size : Z) : CircularBuffer :=
  mk (Js.Buffer_alloc size) 0 0 size 0.

(** One turn of the [for (let byte of data)] loop of [write]. *)
Definition write_step (b : CircularBuffer) (byte : Z) : CircularBuffer :=
  let buffer' := Js.put (buffer b) (head b) byte in
  let head' := Z.rem (head b + 1) (size b) in
  if count b <? size b
  then mk buffer' head' (tail b) (size b) (count b + 1)
  else mk buffer' head' (Z.rem (tail b + 1) (size b)) (size b) (count b).

Definition write (b : CircularBuffer) (data : list Z) : CircularBuffer :=
  fold_left write_step data b.

Definition read (b : CircularBuffer) : Js.value * CircularBuffer :=
  if count b =? 0 then (Js.Null, b)
  else (Js.get (buffer b) (tail b),
        mk (buffer b) (head b) (Z.rem (tail b + 1) (size b)) (size b)
           (count b - 1)).

Definition available (b : CircularBuffer) : Z := count b.

Fixpoint read_n (n : nat) (b : CircularBuffer)
  : list Js.value * CircularBuffer :=
  match n with
  | O => ([], b)
  | S n' =>
      let '(v, b1) := read b in
      let '(vs, b2) := read_n n' b1 in
      (v :: vs, b2)
  end.

(** ** The server

    The module's variables [server], [gatewayClient], [isRunning] and
    [stats], and the handlers [createServer] registers.  A socket is named
    by a number; [written] keeps what the module has written, to which
    socket.  Clock readings ([new Date()], [Date.now()]) are arguments. *)

(** The [stats] object.  [startTime] is the property [getStats] reads;
    [None] while it is [undefined]. *)
Record Stats : Type := mkStats {
  connections : Z;
  bytesReceived : Z;
  bytesSent : Z;
  errors : Z;
  lastActivity : option Z;
  startTime : option Z
}.

Record Server : Type := mkServer {
  server : bool;                      (* [server !== null] *)
  gatewayClient : option nat;
  isRunning : bool;
  stats : Stats;
  written : list (nat * list Z)
}.

(** The module once loaded. *)
Definition init : Server :=
  mkServer false None false (mkStats 0 0 0 0 None None) [].

Definition set_gatewayClient (s : Server) (c : option nat) : Server :=
  mkServer (server s) c (isRunning s) (stats s) (written s).

Definition set_stats (s : Server) (st : Stats) : Server :=
  mkServer (server s) (gatewayClient s) (isRunning s) st (written s).

Definition socket_write (s : Server) (socket : nat) (data : list Z) : Server :=
  mkServer (server s) (gatewayClient s) (isRunning s) (stats s)
           (written s ++ [(socket, data)]).

(** The bytes of ['PING'] and of ['PONG\n']. *)
Definition PING : list Z := [80; 73; 78; 71].
Definition PONG : list Z := [80; 79; 78; 71; 10].

Fixpoint starts_with (needle data : list Z) : bool :=
  match needle, data with
  | [], _ => true
  | _ :: _, [] => false
  | x :: needle', y :: data' => (x =? y) && starts_with needle' data'
  end.

(** [data.toString().includes('PING')]: the four ASCII bytes decode to
    themselves wherever they stand, so the text includes ['PING'] exactly
    when the bytes include its bytes. *)
Fixpoint includes (needle data : list Z) : bool :=
  starts_with needle data
  || match data with
     | [] => false
     | _ :: data' => includes needle data'
     end.

(** The connection listener given to [net.createServer], up to the
    registration of the socket's handlers. *)
Definition on_connection (s : Server) (socket : nat) (now : Z) : Server :=
  let st := stats s in
  set_stats (set_gatewayClient s (Some socket))
    (mkStats (connections st + 1) (bytesReceived st) (bytesSent st)
             (errors st) (Some now) (startTime st)).

(** The ['data'] handler of [socket]. *)
Definition on_data (s : Server) (socket : nat) (data : list Z) (now : Z)
  : Server :=
  let st := stats s in
  let s := set_stats s
             (mkStats (connections st)
                      (bytesReceived st + Z.of_nat (length data))
                      (bytesSent st) (errors st) (Some now) (startTime st)) in
  if includes PING data then socket_write s socket PONG else s.

(** The ['error'] handler of a socket. *)
Definition on_error (s : Server) : Server :=
  let st := stats s in
  set_gatewayClient
    (set_stats s (mkStats (connections st) (bytesReceived st) (bytesSent st)
                          (errors st + 1) (lastActivity st) (startTime st)))
    None.

(** The ['end'] and ['close'] handlers of a socket. *)
Definition on_end (s : Server) : Server := set_gatewayClient s None.
Definition on_close (s : Server) : Server := set_gatewayClient s None.

(** [start()], and the callback of [server.listen]. *)
Definition start (s : Server) : Server :=
  if isRunning s then s
  else mkServer true (gatewayClient s) (isRunning s) (stats s) (written s).

Definition on_listening (s : Server) : Server :=
  mkServer (server s) (gatewayClient s) true (stats s) (written s).

Definition stop (s : Server) : Server :=
  mkServer false None false (stats s) (written s).

(** [send(data)]; [writable] is [gatewayClient.writable].  [None] when it
    throws. *)
Definition send (s : Server) (writable : bool) (data : list Z) (now : Z)
  : option Server :=
  match gatewayClient s with
  | Some client =>
      if writable then
        let s := socket_write s client data in
        let st := stats s in
        Some (set_stats s
                (mkStats (connections st) (bytesReceived st)
                         (bytesSent st + Z.of_nat (length data)) (errors st)
                         (Some now) (startTime st)))
      else None
  | None => None
  end.

(** What [getStats()] adds to the copy of [stats].  [now1] and [now2] are
    the two readings of [Date.now()], in the order they are taken. *)
Definition connected (s : Server) : bool :=
  match gatewayClient s with Some _ => true | None => false end.

Definition uptime (s : Server) (now1 now2 : Z) : Z :=
  if isRunning s then
    now1 - (match startTime (stats s) with
            | Some t => if t =? 0 then now2 else t
            | None => now2
            end)
  else 0.

(** What can happen to the module. *)
Inductive Event : Type :=
| Start
| Listening
| Connection (socket : nat) (now : Z)
| SocketData (socket : nat) (data : list Z) (now : Z)
| SocketError (socket : nat)
| SocketEnd (socket : nat)
| SocketClose (socket : nat)
| Send (writable : bool) (data : list Z) (now : Z)
| Stop.

(** A [send] that throws leaves the module as it was. *)
Definition handle (s : Server) (e : Event) : Server :=
  match e with
  | Start => start s
  | Listening => on_listening s
  | Connection socket now => on_connection s socket now
  | SocketData socket data now => on_data s socket data now
  | SocketError _ => on_error s
  | SocketEnd _ => on_end s
  | SocketClose _ => on_close s
  | Send writable data now =>
      match send s writable data now with
      | Some s' => s'
      | None => s
      end
  | Stop => stop s
  end.

Definition run (s : Server) (es : list Event) : Server :=
  fold_left handle es s.

End TcpServer.


(* ===================================================================== *)
(** * Promises handed out by [read]                                        *)
(* ===================================================================== *)

Module Promise.

(** The two [Error]s the drivers reject with: [new Error('Pas connecté')]
    and [new Error(`Timeout lecture @${addr}`)]. *)
Inductive Failure : Type :=
| NotConnected
| ReadTimeout (addr : Z).

Inductive Outcome : Type :=
| Resolved (v : Js.value)
| Rejected (e : Failure).

(** Every [new Promise] gets the next handle; the log keeps, per handle,
    the first [resolve] or [reject] call: later calls on a settled promise
    have no effect. *)
Definition Log : Type := JsMap.t nat Outcome.

Definition settle (log : Log) (p : nat) (o : Outcome) : Log :=
  if JsMap.has p log then log else JsMap.set p o log.

Fixpoint outcome (log : Log) (p : nat) : option Outcome :=
  match log with
  | [] => None
  | (q, o) :: log' => if decide (p = q) then Some o else outcome log' p
  end.

End Promise.

(* ===================================================================== *)
(** * pli-driver.js: the basic driver                                      *)
(* ===================================================================== *)

Module PliDriver.

Definition DEFAULT_TIMEOUT : Z := 5000.

Definition CMD_READ_RAM : Z := 0x14.
Definition CMD_READ_EEPROM : Z := 0x48.
Definition CMD_WRITE_RAM : Z := 0x98.
Definition CMD_WRITE_EEPROM : Z := 0xCA.
Definition CMD_LOOPBACK : Z := 0xB7.
Definition CMD_BUTTON : Z := 0x57.

Definition ADDR_BATTERY_VOLTAGE : Z := 50.
Definition ADDR_BATTERY_TEMP : Z := 52.
Definition ADDR_SOLAR_VOLTAGE : Z := 53.
Definition ADDR_CHARGE_CURRENT : Z := 212.
Definition ADDR_LOAD_CURRENT : Z := 216.
Definition ADDR_STATE : Z := 101.
Definition ADDR_SOC : Z := 181.

Definition STATE : list (Z * string) :=
  [ (0, "BOOST"%string); (1, "EQUALIZE"%string); (2, "ABSORPTION"%string);
    (3, "FLOAT"%string); (4, "RESTRICTED"%string); (5, "LVD"%string) ].

(** [table[key]] on an object literal. *)
Fixpoint lookup {K V : Type} `{EqDecision K} (table : list (K * V)) (key : K)
  : option V :=
  match table with
  | [] => None
  | (k, v) :: table' => if decide (key = k) then Some v else lookup table' key
  end.

Definition buildCommand (cmd addr data : Z) : list Z :=
  let check := Js.xor (Js.xor (Js.xor cmd addr) data) 0xFF in
  Js.Buffer_from [cmd; addr; data; check].

(** An entry of [pendingReads]: the [resolve]/[reject] pair of one promise,
    and the timeout. *)
Record PendingRead : Type := mkPending {
  promise : nat;
  timeout : Z
}.

(** The driver object, with the promises it has created and their
    outcomes. The Map key [Date.now() + Math.random()] is a number supplied
    by the environment; it is passed to [read] as [id]. *)
Record PLIDriver : Type := mk {
  default_timeout : Z;
  socket : option (list (list Z));     (* the chunks written so far *)
  buffer : BufferJs.CircularBuffer;
  pendingReads : JsMap.t Z PendingRead;
  isConnected : bool;
  promises : Promise.Log;
  nextPromise : nat
}.

(** [new PLIDriver(options)], where [options.timeout || DEFAULT_TIMEOUT]
    replaces a timeout of 0 by the default. [connect] is not modelled: what
    is said of [read] takes [isConnected] as it finds it. *)
Definition new (timeout : Z) : PLIDriver :=
  mk (if timeout =? 0 then DEFAULT_TIMEOUT else timeout)
     None (BufferJs.new 1024) [] false [] 0.

Definition settle (d : PLIDriver) (p : nat) (o : Promise.Outcome) : PLIDriver :=
  mk (default_timeout d) (socket d) (buffer d) (pendingReads d)
     (isConnected d) (Promise.settle (promises d) p o) (nextPromise d).

Definition set_pendingReads (d : PLIDriver) (m : JsMap.t Z PendingRead)
  : PLIDriver :=
  mk (default_timeout d) (socket d) (buffer d) m
     (isConnected d) (promises d) (nextPromise d).

Definition set_isConnected (d : PLIDriver) (c : bool) : PLIDriver :=
  mk (default_timeout d) (socket d) (buffer d) (pendingReads d)
     c (promises d) (nextPromise d).

Definition socket_write (d : PLIDriver) (cmd : list Z) : PLIDriver :=
  mk (default_timeout d)
     (match socket d with Some w => Some (w ++ [cmd]) | None => None end)
     (buffer d) (pendingReads d) (isConnected d) (promises d) (nextPromise d).

Definition new_promise (d : PLIDriver) : nat * PLIDriver :=
  (nextPromise d,
   mk (default_timeout d) (socket d) (buffer d) (pendingReads d)
      (isConnected d) (promises d) (S (nextPromise d))).

(** [read(addr, timeout)]: the promise it returns and the driver after the
    executor has run. The timer armed by [setTimeout] is the later call
    [read_timer id p addr]. *)
Definition read (d : PLIDriver) (addr timeout id : Z) : nat * PLIDriver :=
  let '(p, d) := new_promise d in
  if negb (isConnected d) then (p, settle d p (Promise.Rejected Promise.NotConnected))
  else
    let cmd := buildCommand CMD_READ_RAM addr 0x00 in
    let d := set_pendingReads d (JsMap.set id (mkPending p timeout) (pendingReads d)) in
    let d := socket_write d cmd in
    (p, d).

(** The callback given to [setTimeout] by [read]. *)
Definition read_timer (d : PLIDriver) (id : Z) (p : nat) (addr : Z)
  : PLIDriver :=
  if JsMap.has id (pendingReads d)
  then settle (set_pendingReads d (JsMap.delete id (pendingReads d)))
              p (Promise.Rejected (Promise.ReadTimeout addr))
  else d.

(** The socket's ['close'] handler. *)
Definition on_close (d : PLIDriver) : PLIDriver := set_isConnected d false.

(** The socket's ['error'] handler (it also rejects the promise of
    [connect], which is not a read). *)
Definition on_error (d : PLIDriver) : PLIDriver := set_isConnected d false.

Definition set_buffer (d : PLIDriver) (b : BufferJs.CircularBuffer)
  : PLIDriver :=
  mk (default_timeout d) (socket d) b (pendingReads d)
     (isConnected d) (promises d) (nextPromise d).

Section ProcessResponses.

(** [processResponses] reads through [this.buffer.read()]; the
    [CircularBuffer] of buffer.js, which the driver requires, has
    [readByte] and [peek] but no [read]. The method called is a parameter
    here. *)
Variable buffer_read :
  BufferJs.CircularBuffer -> Js.value * BufferJs.CircularBuffer.

(** The [while] loop of [processResponses]; [None] when the fuel runs out
    before the loop ends. *)
Fixpoint processLoop (fuel : nat) (d : PLIDriver) : option PLIDriver :=
  match fuel with
  | O => None
  | S fuel' =>
      let '(byte, b1) := buffer_read (buffer d) in
      let d1 := set_buffer d b1 in
      if Js.is_null byte then Some d1
      else if Js.strict_eq_num byte 0xC8 then
        let '(data, b2) := buffer_read b1 in
        let d2 := set_buffer d1 b2 in
        if negb (Js.is_null data) then
          match pendingReads d2 with
          | (id, pending) :: _ =>
              Some (settle (set_pendingReads d2
                              (JsMap.delete id (pendingReads d2)))
                           (promise pending) (Promise.Resolved data))
          | [] => processLoop fuel' d2
          end
        else processLoop fuel' d2
      else if Js.strict_eq_num byte 0x80 then
        let '(_, b2) := buffer_read b1 in
        processLoop fuel' (set_buffer d1 b2)
      else processLoop fuel' d1
  end.

End ProcessResponses.

(** The socket's ['data'] handler as it runs with buffer.js: the chunk is
    written to the buffer, then [processResponses] evaluates
    [this.buffer.read()]; the class has no [read] method, so the call
    throws a [TypeError] before a byte is looked at, and the exception
    leaves the handler.  ([processLoop] above is the loop as it is
    written, for a buffer that had the method.) *)
Definition on_data (d : PLIDriver) (data : list Z)
  : Js.completion PLIDriver :=
  Js.Throws (set_buffer d (BufferJs.write (buffer d) data)) Js.TypeError.

(** The decoding done by the accessors on the byte [raw] that [read]
    resolved with. *)
Definition readBatteryVoltage (raw : Z) : float :=
  let systemVoltage := 12%float in
  PrimFloat.mul (Js.Number raw) (PrimFloat.div systemVoltage 12%float).

Definition readBatteryTemp (raw : Z) : Z := raw - 100.

Definition readSOC (raw : Z) : Z := raw.

Definition readSolarVoltage (raw : Z) : float :=
  PrimFloat.mul (Js.Number raw) 0.5%float.

Definition multipliers : list (string * float) :=
  [ ("PL20"%string, 0.1%float); ("PL40"%string, 0.2%float);
    ("PL60"%string, 0.4%float) ].

(** [multipliers[model] || 0.2]: a model that names an inherited property
    finds a function or an object, and the product is NaN. *)
Definition readChargeCurrent (model : string) (raw : Z) : float :=
  PrimFloat.mul (Js.Number raw)
    (match lookup multipliers model with
     | Some m => m
     | None =>
         if bool_decide (model ∈ Js.inherited) then PrimFloat.nan
         else 0.2%float
     end).

Definition readState (raw : Z) : Z * string :=
  (raw, match lookup STATE raw with Some name => name | None => "UNKNOWN"%string end).

End PliDriver.


(* ===================================================================== *)
(** * The complete driver                                                  *)
(* ===================================================================== *)

Module PliDriverComplete.

Definition PROTOCOL_PREFIX : Z := 0xC8.
Definition PROTOCOL_TIMEOUT_MS : Z := 5000.
Definition PROTOCOL_RETRY_DELAY_MS : Z := 1000.

Definition CMD_READ_RAM : Z := 0x14.
Definition CMD_LOOPBACK : Z := 0xB7.

Definition ADDR_BATTERY_VOLTAGE : Z := 50.
Definition ADDR_BATTERY_TEMP : Z := 52.
Definition ADDR_SOLAR_VOLTAGE : Z := 53.
Definition ADDR_STATE : Z := 101.
Definition ADDR_SOC : Z := 181.

Definition STATE : list (Z * string) :=
  [ (0, "BOOST"%string); (1, "EQUALIZE"%string); (2, "ABSORPTION"%string);
    (3, "FLOAT"%string); (4, "RESTRICTED"%string); (5, "LVD"%string);
    (6, "SHORT_EQ"%string); (7, "UNDEFINED"%string) ].

Definition _buildCommand (cmd addr data : Z) : list Z :=
  let check := Js.xor (Js.xor (Js.xor cmd addr) data) 0xFF in
  Js.Buffer_from [cmd; addr; data; check].

(** The Map key [`${addr}-${Date.now()}`]: the text determines the pair
    and the pair the text, so the pair stands for the string. *)
Definition RequestId : Type := (Z * Z)%type.

(** An entry of [pending]: the [resolve]/[reject] pair of one promise, the
    timeout and the start time. *)
Record PendingRequest : Type := mkPending {
  promise : nat;
  timeout : Z;
  start : Z
}.

(** What the driver emits as an [EventEmitter], to the listeners
    registered by the code that uses it. *)
Inductive Emitted : Type :=
| Connected
| Disconnected
| SocketError
| DeviceError (code : Js.value).

(** A [net.Socket]: whether it is readable, and the chunks written. *)
Record Socket : Type := mkSocket {
  readable : bool;
  written : list (list Z)
}.

(** A timer armed by [read] through [setTimeout]. *)
Record Timer : Type := mkTimer {
  timer_id : RequestId;
  timer_promise : nat;
  timer_addr : Z;
  timer_delay : Z
}.

(** The driver object, with what it has emitted, the promises it has
    created and their outcomes, and the read timers still armed. *)
Record PLIDriver : Type := mk {
  default_timeout : Z;
  model : string;
  socket : option Socket;
  buffer : BufferJs.CircularBuffer;
  pending : JsMap.t RequestId PendingRequest;
  reconnectTimer : bool;
  emitted : list Emitted;
  promises : Promise.Log;
  nextPromise : nat;
  timers : list Timer
}.

Definition set_socket (d : PLIDriver) (s : option Socket) : PLIDriver :=
  mk (default_timeout d) (model d) s (buffer d) (pending d)
     (reconnectTimer d) (emitted d) (promises d) (nextPromise d) (timers d).

Definition set_buffer (d : PLIDriver) (b : BufferJs.CircularBuffer)
  : PLIDriver :=
  mk (default_timeout d) (model d) (socket d) b (pending d)
     (reconnectTimer d) (emitted d) (promises d) (nextPromise d) (timers d).

Definition set_pending (d : PLIDriver)
  (m : JsMap.t RequestId PendingRequest) : PLIDriver :=
  mk (default_timeout d) (model d) (socket d) (buffer d) m
     (reconnectTimer d) (emitted d) (promises d) (nextPromise d) (timers d).

Definition set_reconnectTimer (d : PLIDriver) (armed : bool) : PLIDriver :=
  mk (default_timeout d) (model d) (socket d) (buffer d) (pending d)
     armed (emitted d) (promises d) (nextPromise d) (timers d).

Definition emit (d : PLIDriver) (e : Emitted) : PLIDriver :=
  mk (default_timeout d) (model d) (socket d) (buffer d) (pending d)
     (reconnectTimer d) (emitted d ++ [e]) (promises d) (nextPromise d)
     (timers d).

Definition settle (d : PLIDriver) (p : nat) (o : Promise.Outcome)
  : PLIDriver :=
  mk (default_timeout d) (model d) (socket d) (buffer d) (pending d)
     (reconnectTimer d) (emitted d) (Promise.settle (promises d) p o)
     (nextPromise d) (timers d).

Definition new_promise (d : PLIDriver) : nat * PLIDriver :=
  (nextPromise d,
   mk (default_timeout d) (model d) (socket d) (buffer d) (pending d)
      (reconnectTimer d) (emitted d) (promises d) (S (nextPromise d))
      (timers d)).

Definition set_timers (d : PLIDriver) (ts : list Timer) : PLIDriver :=
  mk (default_timeout d) (model d) (socket d) (buffer d) (pending d)
     (reconnectTimer d) (emitted d) (promises d) (nextPromise d) ts.

Definition socket_write (d : PLIDriver) (cmd : list Z) : PLIDriver :=
  set_socket d
    (match socket d with
     | Some s => Some (mkSocket (readable s) (written s ++ [cmd]))
     | None => None
     end).

(** [_connect()]: a new socket.  A [net.Socket] is readable from its
    creation, before the connection is established, until it ends or
    closes. *)
Definition _connect (d : PLIDriver) : PLIDriver :=
  set_socket d (Some (mkSocket true [])).

(** [new PLIDriver(options)] with [options.timeout] and [options.model]
    given: [options.timeout || PROTOCOL.TIMEOUT_MS] replaces a timeout of 0
    by the default, [options.model || 'PL40'] an empty model by ['PL40']. *)
Definition new (timeout : Z) (model : string) : PLIDriver :=
  _connect (mk (if timeout =? 0 then PROTOCOL_TIMEOUT_MS else timeout)
               (match model with
                | EmptyString => "PL40"%string
                | _ => model
                end)
               None (BufferJs.new 1024) [] false [] [] 0 []).

Definition _scheduleReconnect (d : PLIDriver) : PLIDriver :=
  if reconnectTimer d then d else set_reconnectTimer d true.

(** The callback of the reconnect timer. *)
Definition reconnect_timer (d : PLIDriver) : PLIDriver :=
  _connect (set_reconnectTimer d false).

(** [read(addr, timeout)], at clock values [now] (for the request id) and
    [started] (for the entry): the promise it returns and the driver after
    the executor has run. *)
Definition read (d : PLIDriver) (addr timeout now started : Z)
  : nat * PLIDriver :=
  let '(p, d) := new_promise d in
  match socket d with
  | Some (mkSocket true _) =>
      let cmd := _buildCommand CMD_READ_RAM addr 0x00 in
      let requestId := (addr, now) in
      let d := set_pending d
                 (JsMap.set requestId (mkPending p timeout started) (pending d)) in
      let d := socket_write d cmd in
      let d := set_timers d (timers d ++ [mkTimer requestId p addr timeout]) in
      (p, d)
  | _ => (p, settle d p (Promise.Rejected Promise.NotConnected))
  end.

(** The callback given to [setTimeout] by [read]. *)
Definition read_timer (d : PLIDriver) (requestId : RequestId) (p : nat)
  (addr : Z) : PLIDriver :=
  if JsMap.has requestId (pending d)
  then settle (set_pending d (JsMap.delete requestId (pending d)))
              p (Promise.Rejected (Promise.ReadTimeout addr))
  else d.

(** The [while] loop of [_processResponses]; [None] when the fuel runs
    out before the loop ends. An ['error'] listener is taken to be
    registered, as the module's own command-line section does;
    [processLoop_on] below is the loop with and without one. *)
Fixpoint processLoop (fuel : nat) (d : PLIDriver) : option PLIDriver :=
  match fuel with
  | O => None
  | S fuel' =>
      if 0 <? BufferJs.available (buffer d) then
        let prefix := BufferJs.peek (buffer d) in
        if Js.strict_eq_num prefix PROTOCOL_PREFIX then
          let '(_, b1) := BufferJs.readByte (buffer d) in
          let '(data, b2) := BufferJs.readByte b1 in
          let d2 := set_buffer d b2 in
          if negb (Js.is_null data) then
            match pending d2 with
            | (id, request) :: _ =>
                Some (settle (set_pending d2 (JsMap.delete id (pending d2)))
                             (promise request) (Promise.Resolved data))
            | [] => processLoop fuel' d2
            end
          else processLoop fuel' d2
        else if Js.between prefix 0x80 0x88 then
          let '(_, b1) := BufferJs.readByte (buffer d) in
          processLoop fuel' (emit (set_buffer d b1) (DeviceError prefix))
        else
          let '(_, b1) := BufferJs.readByte (buffer d) in
          processLoop fuel' (set_buffer d b1)
      else Some d
  end.

Definition _processResponses (d : PLIDriver) : option PLIDriver :=
  processLoop (S (Z.to_nat (BufferJs.available (buffer d)))) d.

(** The same loop for a driver with ([listening]) or without a listener
    for ['error'].  [this.emit('error', { code: prefix })] calls the
    listeners when there are some and returns; with none, [emit] throws,
    and the exception leaves the loop and the handler, the error byte
    read.  The class registers no such listener itself: whether there is
    one is up to the code that uses the driver. *)
Fixpoint processLoop_on (listening : bool) (fuel : nat) (d : PLIDriver)
  : option (Js.completion PLIDriver) :=
  match fuel with
  | O => None
  | S fuel' =>
      if 0 <? BufferJs.available (buffer d) then
        let prefix := BufferJs.peek (buffer d) in
        if Js.strict_eq_num prefix PROTOCOL_PREFIX then
          let '(_, b1) := BufferJs.readByte (buffer d) in
          let '(data, b2) := BufferJs.readByte b1 in
          let d2 := set_buffer d b2 in
          if negb (Js.is_null data) then
            match pending d2 with
            | (id, request) :: _ =>
                Some (Js.Returns
                        (settle (set_pending d2 (JsMap.delete id (pending d2)))
                                (promise request) (Promise.Resolved data)))
            | [] => processLoop_on listening fuel' d2
            end
          else processLoop_on listening fuel' d2
        else if Js.between prefix 0x80 0x88 then
          let '(_, b1) := BufferJs.readByte (buffer d) in
          if listening
          then processLoop_on listening fuel'
                 (emit (set_buffer d b1) (DeviceError prefix))
          else Some (Js.Throws (set_buffer d b1) (Js.UnhandledError prefix))
        else
          let '(_, b1) := BufferJs.readByte (buffer d) in
          processLoop_on listening fuel' (set_buffer d b1)
      else Some (Js.Returns d)
  end.

Definition _processResponses_on (listening : bool) (d : PLIDriver)
  : option (Js.completion PLIDriver) :=
  processLoop_on listening (S (Z.to_nat (BufferJs.available (buffer d)))) d.

(** The socket's ['data'] handler, for a driver with a listener for
    ['error'] (see [processLoop]). *)
Definition on_data (d : PLIDriver) (data : list Z) : option PLIDriver :=
  _processResponses (set_buffer d (BufferJs.write (buffer d) data)).

(** The callback of [socket.connect]. *)
Definition on_connect (d : PLIDriver) : PLIDriver := emit d Connected.

(** The socket's ['error'] handler, for a driver with a listener for
    ['error']: the error is passed on.  (With none, [this.emit('error',
    err)] throws and the handler ends there, the driver as it was.) *)
Definition on_error (d : PLIDriver) : PLIDriver := emit d SocketError.

(** The socket's ['close'] handler. *)
Definition on_close (d : PLIDriver) : PLIDriver :=
  _scheduleReconnect (emit d Disconnected).

Definition disconnect (d : PLIDriver) : PLIDriver :=
  set_socket (set_reconnectTimer d false) None.

(** The decoding done by the accessors on the byte [raw] that [read]
    resolved with; each returns [raw] next to the decoded value. *)
Definition getBatteryVoltage (raw : Z) : Z * Z := (raw, raw).

Definition getBatteryTemp (raw : Z) : Z * Z := (raw, raw - 100).

Definition getSOC (raw : Z) : Z * Z := (raw, raw).

Definition getSolarVoltage (raw : Z) : Z * float :=
  (raw, PrimFloat.mul (Js.Number raw) 0.5%float).

Definition multipliers : list (string * float) :=
  [ ("PL20"%string, 0.1%float); ("PL40"%string, 0.2%float);
    ("PL60"%string, 0.4%float) ].

Definition getChargeCurrent (d : PLIDriver) (raw : Z) : Z * float :=
  (raw,
   PrimFloat.mul (Js.Number raw)
     (match PliDriver.lookup multipliers (model d) with
      | Some m => m
      | None =>
          if bool_decide (model d ∈ Js.inherited) then PrimFloat.nan
          else 0.2%float
      end)).

Definition getState (raw : Z) : Z * string :=
  (raw,
   match PliDriver.lookup STATE raw with
   | Some name => name
   | None => "UNKNOWN"%string
   end).

(** ** The event loop

    What can happen to a driver: the environment opens or closes the socket
    and delivers data, a caller reads, a timer fires. The socket's
    [readable] flag is the environment's: set from the socket's creation,
    cleared when it closes. *)
Inductive Event : Type :=
| SocketOpens
| SocketCloses
| SocketFails
| Data (bytes : list Z)
| Read (addr timeout now started : Z)
| ReadTimerFires (t : Timer)
| ReconnectTimerFires.

#[global] Instance Timer_eq_dec : EqDecision Timer.
Proof. solve_decision. Defined.

Definition socket_readable (d : PLIDriver) (r : bool) : PLIDriver :=
  set_socket d
    (match socket d with
     | Some s => Some (mkSocket r (written s))
     | None => None
     end).

Definition is_open (d : PLIDriver) : bool :=
  match socket d with
  | Some s => readable s
  | None => false
  end.

(** A timer fires once. *)
Fixpoint disarm (t : Timer) (ts : list Timer) : list Timer :=
  match ts with
  | [] => []
  | t' :: ts' => if decide (t = t') then ts' else t' :: disarm t ts'
  end.

Definition fire (t : Timer) (d : PLIDriver) : PLIDriver :=
  set_timers (read_timer d (timer_id t) (timer_promise t) (timer_addr t))
             (disarm t (timers d)).

(** Which events the environment can produce in a given state. *)
Definition enabled (d : PLIDriver) (e : Event) : bool :=
  match e with
  | SocketOpens => is_open d
  | SocketCloses | SocketFails => bool_decide (socket d <> None)
  | Data _ => is_open d
  | Read _ _ _ _ => true
  | ReadTimerFires t => bool_decide (t ∈ timers d)
  | ReconnectTimerFires => reconnectTimer d
  end.

(** The handler run for an event. *)
Definition handle (d : PLIDriver) (e : Event) : option PLIDriver :=
  match e with
  | SocketOpens => Some (on_connect d)
  | SocketCloses => Some (on_close (socket_readable d false))
  | SocketFails => Some (on_error d)
  | Data bytes => on_data d bytes
  | Read addr timeout now started => Some (snd (read d addr timeout now started))
  | ReadTimerFires t => Some (fire t d)
  | ReconnectTimerFires => Some (reconnect_timer d)
  end.

(** [None] for an event that cannot happen in [d]. *)
Definition step (d : PLIDriver) (e : Event) : option PLIDriver :=
  if enabled d e then handle d e else None.

Fixpoint run (d : PLIDriver) (es : list Event) : option PLIDriver :=
  match es with
  | [] => Some d
  | e :: es' =>
      match step d e with
      | Some d' => run d' es'
      | None => None
      end
  end.

End PliDriverComplete.


(* ===================================================================== *)
(** * COMMUNICATION_PROTOCOL.md: the history log                           *)
(* ===================================================================== *)

Module Protocol.

(** The offset [readHistory] computes for [day], from the value [pointer]
    read at address 0x2D. *)
Definition historyOffset (pointer day : Z) : Z :=
  let baseOffset := 0x2E + 7 * pointer in
  let offset := baseOffset - 7 * (day - 1) in
  if offset <? 0x2E then baseOffset + 0xD2 - 7 * (day - 1) else offset.

(** The offsets visited by the loop [for (let day = 1; day <= 30; day++)]. *)
Definition readHistory_offsets (pointer : Z) : list Z :=
  List.map (fun day => historyOffset pointer (Z.of_nat day)) (seq 1 30).

Record DayRecord : Type := mkDay {
  vmax : float;
  vmin : float;
  floatHours : float;
  soc : Z;
  chargeAh : Z;
  loadAh : Z
}.

(** [parseDayRecord(data)], with the free variable [systemVoltageRatio]
    as a parameter. A missing seventh entry reads as [undefined], which
    the operator [&] takes for 0: both high parts are then 0. An array
    shorter than six entries gives [None]: it stands for the record
    returned then, of which at least [loadAh] is NaN. *)
Definition parseDayRecord (systemVoltageRatio : Z) (data : list Z)
  : option DayRecord :=
  b0 ← data !! 0%nat;
  b1 ← data !! 1%nat;
  b2 ← data !! 2%nat;
  b3 ← data !! 3%nat;
  b4 ← data !! 4%nat;
  b5 ← data !! 5%nat;
  let b6 := default 0 (data !! 6%nat) in
  let chargeAh := b4 + (Js.and b6 0x0F) * 256 in
  let loadAh := b5 + (Js.shr (Js.and b6 0xF0) 4) * 256 in
  Some (mkDay
          (PrimFloat.mul (PrimFloat.mul (Js.Number b0) 0.1%float)
                         (Js.Number systemVoltageRatio))
          (PrimFloat.mul (PrimFloat.mul (Js.Number b1) 0.1%float)
                         (Js.Number systemVoltageRatio))
          (PrimFloat.mul (Js.Number b2) 0.1%float)
          b3 chargeAh loadAh).

End Protocol.

(* ===================================================================== *)
(** * The decode table of the specification                                *)
(* ===================================================================== *)

(** The reference table of the specification's semantic registry,
    transcribed row by row as it is written there, to be compared with the
    accessors of the drivers. *)
Module SpecTable.

Inductive Model : Type := PL20 | PL40 | PL60.

Record SystemConfig : Type := mkConfig {
  model : Model;
  systemVoltageRatio : Z
}.

(** The configurations the specification allows: ratio 1, 2 or 4. *)
Definition valid (cfg : SystemConfig) : Prop :=
  systemVoltageRatio cfg = 1 \/ systemVoltageRatio cfg = 2
  \/ systemVoltageRatio cfg = 4.

(** The model as the drivers name it. *)
Definition name (m : Model) : string :=
  match m with
  | PL20 => "PL20"%string
  | PL40 => "PL40"%string
  | PL60 => "PL60"%string
  end.

Definition modelMultiplier (m : Model) : float :=
  match m with
  | PL20 => 0.1%float
  | PL40 => 0.2%float
  | PL60 => 0.4%float
  end.

Definition batteryVoltage (cfg : SystemConfig) (raw : Z) : Z :=
  raw * systemVoltageRatio cfg.

Definition batteryTemperature (raw : Z) : Z := raw - 100.

Definition stateOfCharge (raw : Z) : Z := raw.

Definition solarVoltage (raw : Z) : float :=
  PrimFloat.mul (Js.Number raw) 0.5%float.

Definition chargeCurrent (cfg : SystemConfig) (raw : Z) : float :=
  PrimFloat.mul (Js.Number raw) (modelMultiplier (model cfg)).

Definition controllerState (raw : Z) : string :=
  if raw =? 0 then "BOOST"%string
  else if raw =? 1 then "EQUALIZE"%string
  else if raw =? 2 then "ABSORPTION"%string
  else if raw =? 3 then "FLOAT"%string
  else if raw =? 4 then "RESTRICTED"%string
  else if raw =? 5 then "LVD"%string
  else if raw =? 6 then "SHORT_EQ"%string
  else if raw =? 7 then "UNDEFINED"%string
  else "UNKNOWN"%string.

End SpecTable.

(* ===================================================================== *)
(** * Vocabulary of the statements                                         *)
(* ===================================================================== *)

Definition is_byte (z : Z) : Prop := 0 <= z < 256.

(** The pending requests are in issue order when the promise handles,
    which grow with every [read], grow along the Map's iteration order. *)
Definition issue_ordered
  (m : JsMap.t PliDriverComplete.RequestId PliDriverComplete.PendingRequest)
  : Prop :=
  StronglySorted lt (List.map (fun e => PliDriverComplete.promise (snd e)) m).

(** A [Read] event is fresh when its request id is used neither by a
    pending entry nor by an armed timer: the clock has moved on since the
    last read of the same address. *)
Definition fresh (d : PliDriverComplete.PLIDriver)
  (e : PliDriverComplete.Event) : Prop :=
  match e with
  | PliDriverComplete.Read addr _ now _ =>
      ((addr, now) ∉ JsMap.keys (PliDriverComplete.pending d))
      /\ ((addr, now) ∉ List.map PliDriverComplete.timer_id
                          (PliDriverComplete.timers d))
  | _ => True
  end.

(** The states a driver goes through from its construction, under fresh
    request ids. *)
Inductive reachable : PliDriverComplete.PLIDriver -> Prop :=
| reachable_new (timeout : Z) (model : string) :
    reachable (PliDriverComplete.new timeout model)
| reachable_step (d d' : PliDriverComplete.PLIDriver)
    (e : PliDriverComplete.Event) :
    reachable d -> fresh d e -> PliDriverComplete.step d e = Some d' ->
    reachable d'.

(** What holds of every such state. *)
Record invariant (d : PliDriverComplete.PLIDriver) : Prop := mk_invariant {
  (* the Map iterates the requests in the order they were issued *)
  inv_ordered : issue_ordered (PliDriverComplete.pending d);
  inv_handles :
    forall e, e ∈ PliDriverComplete.pending d ->
      (PliDriverComplete.promise (snd e) < PliDriverComplete.nextPromise d)%nat;
  inv_log :
    forall q, q ∈ PliDriverComplete.promises d ->
      (fst q < PliDriverComplete.nextPromise d)%nat;
  inv_keys : NoDup (JsMap.keys (PliDriverComplete.pending d));
  (* a pending request is an unsettled promise *)
  inv_unsettled :
    forall e, e ∈ PliDriverComplete.pending d ->
      Promise.outcome (PliDriverComplete.promises d)
                      (PliDriverComplete.promise (snd e)) = None;
  (* an armed timer whose request is still pending holds its promise *)
  inv_timers :
    forall t r, t ∈ PliDriverComplete.timers d ->
      (PliDriverComplete.timer_id t, r) ∈ PliDriverComplete.pending d ->
      PliDriverComplete.promise r = PliDriverComplete.timer_promise t;
  (* every pending request has its timer armed *)
  inv_armed :
    forall e, e ∈ PliDriverComplete.pending d ->
      exists t, t ∈ PliDriverComplete.timers d
                /\ PliDriverComplete.timer_id t = fst e
                /\ PliDriverComplete.timer_promise t
                   = PliDriverComplete.promise (snd e)
}.

(** The handler that has taken [d] to [d'] has left the requests alone:
    the pending Map, the outcomes of the promises and the armed timers are
    the same. *)
Definition untouched (d d' : PliDriverComplete.PLIDriver) : Prop :=
  PliDriverComplete.pending d' = PliDriverComplete.pending d
  /\ PliDriverComplete.promises d' = PliDriverComplete.promises d
  /\ PliDriverComplete.timers d' = PliDriverComplete.timers d.

(** ** Scenarios *)

(** A driver whose socket has opened. *)
Definition connected : PliDriverComplete.PLIDriver :=
  PliDriverComplete.on_connect (PliDriverComplete.new 5000 "PL40").

(** ... on which [read(50, 100)] has been called at time 1000 ... *)
Definition waiting : PliDriverComplete.PLIDriver :=
  snd (PliDriverComplete.read connected 50 100 1000 1000).

(** ... and then [read(52, 100)] at time 1001, without awaiting the
    first. *)
Definition two_reads : PliDriverComplete.PLIDriver :=
  snd (PliDriverComplete.read waiting 52 100 1001 1001).

(** The timer armed by the first read. *)
Definition first_timer : PliDriverComplete.Timer :=
  PliDriverComplete.mkTimer (50, 1000) 0 50 100.

(** Three reads on [connected] within the millisecond 1000, of the
    addresses 50, 52 and 50 again: the third has the request id of the
    first. *)
Definition colliding_reads : PliDriverComplete.PLIDriver :=
  snd (PliDriverComplete.read
         (snd (PliDriverComplete.read waiting 52 100 1000 1000))
         50 100 1000 1000).


(** A complete driver configured for [cfg]'s model. *)
Definition driver_for (cfg : SpecTable.SystemConfig)
  : PliDriverComplete.PLIDriver :=
  PliDriverComplete.new 5000 (SpecTable.name (SpecTable.model cfg)).

(** The bytes, for proofs by enumeration. *)
Definition all_bytes : list Z := List.map Z.of_nat (seq 0 256).

(** The server's buffer seen as one of the drivers' class: the two
    classes have the same fields. *)
Definition as_driver_buffer (b : TcpServer.CircularBuffer)
  : BufferJs.CircularBuffer :=
  BufferJs.mk (TcpServer.buffer b) (TcpServer.head b) (TcpServer.tail b)
              (TcpServer.size b) (TcpServer.count b).

(** ** Using a buffer *)

(** What a user does with a buffer: write a chunk, or read a byte. *)
Inductive BufferOp : Type :=
| OpWrite (data : list Z)
| OpRead.

(** The values the reads of [ops] return on the drivers' buffer. *)
Fixpoint driver_buffer_run (b : BufferJs.CircularBuffer) (ops : list BufferOp)
  : list Js.value * BufferJs.CircularBuffer :=
  match ops with
  | [] => ([], b)
  | OpWrite data :: ops' => driver_buffer_run (BufferJs.write b data) ops'
  | OpRead :: ops' =>
      let '(v, b1) := BufferJs.readByte b in
      let '(vs, b2) := driver_buffer_run b1 ops' in
      (v :: vs, b2)
  end.

(** The same on the server's buffer. *)
Fixpoint server_buffer_run (b : TcpServer.CircularBuffer) (ops : list BufferOp)
  : list Js.value * TcpServer.CircularBuffer :=
  match ops with
  | [] => ([], b)
  | OpWrite data :: ops' => server_buffer_run (TcpServer.write b data) ops'
  | OpRead :: ops' =>
      let '(v, b1) := TcpServer.read b in
      let '(vs, b2) := server_buffer_run b1 ops' in
      (v :: vs, b2)
  end.

(** A queue that holds its newest element back: a read takes the oldest
    element only when another stands behind it. *)
Definition delayed_read (q : list Z) : Js.value * list Z :=
  match q with
  | x :: (_ :: _) as q' => (Js.Num x, q')
  | _ => (Js.Null, q)
  end.

Fixpoint delayed_queue_run (q : list Z) (ops : list BufferOp)
  : list Js.value * list Z :=
  match ops with
  | [] => ([], q)
  | OpWrite data :: ops' =>
      delayed_queue_run (q ++ List.map Js.ToUint8 data) ops'
  | OpRead :: ops' =>
      let '(v, q1) := delayed_read q in
      let '(vs, q2) := delayed_queue_run q1 ops' in
      (v :: vs, q2)
  end.

(** The queue, the element it holds back included, never holds more than
    [cap] elements in the course of [ops]: after every write, at most
    [cap - 1] elements can be read. *)
Fixpoint delayed_queue_fits (cap : nat) (q : list Z) (ops : list BufferOp)
  : Prop :=
  match ops with
  | [] => True
  | OpWrite data :: ops' =>
      (length q + length data <= cap)%nat
      /\ delayed_queue_fits cap (q ++ List.map Js.ToUint8 data) ops'
  | OpRead :: ops' => delayed_queue_fits cap (snd (delayed_read q)) ops'
  end.

(** A queue of capacity [cap] that drops its oldest element to take a new
    one when full. *)
Definition bounded_push (cap : nat) (q : list Z) (x : Z) : list Z :=
  if (length q <? cap)%nat then q ++ [Js.ToUint8 x]
  else List.tl q ++ [Js.ToUint8 x].

Definition bounded_pop (q : list Z) : Js.value * list Z :=
  match q with
  | x :: q' => (Js.Num x, q')
  | [] => (Js.Null, q)
  end.

Fixpoint bounded_queue_run (cap : nat) (q : list Z) (ops : list BufferOp)
  : list Js.value * list Z :=
  match ops with
  | [] => ([], q)
  | OpWrite data :: ops' =>
      bounded_queue_run cap (fold_left (bounded_push cap) data q) ops'
  | OpRead :: ops' =>
      let '(v, q1) := bounded_pop q in
      let '(vs, q2) := bounded_queue_run cap q1 ops' in
      (v :: vs, q2)
  end.

(** The slots of the array [buf] from [tail] on, wrapping at the end, hold
    the elements of [q]. *)
Definition ring_window (buf : list Z) (tail : Z) (q : list Z) : Prop :=
  forall (i : nat) (x : Z),
    q !! i = Some x ->
    buf !! Z.to_nat (Z.rem (tail + Z.of_nat i) (Z.of_nat (length buf)))
    = Some x.

(** The drivers' buffer [b] stands for the delayed queue [q]: the slot at
    the tail is the head of [q], the slot at [head] its last element, and
    [count] is one less than the length of [q]. *)
Record lagging (b : BufferJs.CircularBuffer) (q : list Z) : Prop := mk_lagging {
  lag_size : BufferJs.size b = Z.of_nat (length (BufferJs.buffer b));
  lag_tail : 0 <= BufferJs.tail b < BufferJs.size b;
  lag_count : BufferJs.count b = Z.of_nat (length q) - 1;
  lag_nonempty : (1 <= length q)%nat;
  lag_cap : Z.of_nat (length q) <= BufferJs.size b;
  lag_head :
    BufferJs.head b = Z.rem (BufferJs.tail b + BufferJs.count b) (BufferJs.size b);
  lag_window : ring_window (BufferJs.buffer b) (BufferJs.tail b) q
}.

(** The server's buffer [b] stands for the queue [q]. *)
Record queued (b : TcpServer.CircularBuffer) (q : list Z) : Prop := mk_queued {
  que_size : TcpServer.size b = Z.of_nat (length (TcpServer.buffer b));
  que_tail : 0 <= TcpServer.tail b < TcpServer.size b;
  que_count : TcpServer.count b = Z.of_nat (length q);
  que_cap : Z.of_nat (length q) <= TcpServer.size b;
  que_head :
    TcpServer.head b
    = Z.rem (TcpServer.tail b + TcpServer.count b) (TcpServer.size b);
  que_window : ring_window (TcpServer.buffer b) (TcpServer.tail b) q
}.

(** The slot [k] places after the tail of [b], wrapping at the end. *)
Definition ring_slot (b : BufferJs.CircularBuffer) (k : nat) : Z :=
  Z.rem (BufferJs.tail b + Z.of_nat k) (BufferJs.size b).

(** The prefix of [q] up to and including the first [d], or all of [q]
    when [d] does not occur. *)
Fixpoint until (d : Z) (q : list Z) : list Z :=
  match q with
  | [] => []
  | x :: q' => if x =? d then [x] else x :: until d q'
  end.

(** The drivers' buffer within its bounds: indices inside the array, count
    between 0 and the capacity, every slot a byte. *)
Definition in_bounds (b : BufferJs.CircularBuffer) : Prop :=
  BufferJs.size b = Z.of_nat (length (BufferJs.buffer b))
  /\ 0 <= BufferJs.head b < BufferJs.size b
  /\ 0 <= BufferJs.tail b < BufferJs.size b
  /\ 0 <= BufferJs.count b <= BufferJs.size b
  /\ List.Forall is_byte (BufferJs.buffer b).

Definition byte_or_null (v : Js.value) : Prop :=
  v = Js.Null \/ exists x, v = Js.Num x /\ is_byte x.

(** ** The decoder on the bytes it can read *)

(** The values the next [count] calls of [readByte] return. *)
Definition readable (b : BufferJs.CircularBuffer) : list Js.value :=
  fst (BufferJs.readByte_n (Z.to_nat (BufferJs.count b)) b).

(** What [_processResponses] does, told on the bytes it can read: the
    device errors emitted, the value a pending request is resolved with (if
    any), and the bytes left unread.  [waiting] tells whether a request is
    pending. *)
Fixpoint decode_bytes (waiting : bool) (bytes : list Js.value)
  : list PliDriverComplete.Emitted * option Js.value * list Js.value :=
  match bytes with
  | [] => ([], None, [])
  | v :: bytes' =>
      if Js.strict_eq_num v PliDriverComplete.PROTOCOL_PREFIX then
        match bytes' with
        | [] => ([], None, [])
        | data :: bytes'' =>
            if waiting then ([], Some data, bytes'')
            else decode_bytes waiting bytes''
        end
      else if Js.between v 0x80 0x88 then
        let '(errors, resolved, rest) := decode_bytes waiting bytes' in
        (PliDriverComplete.DeviceError v :: errors, resolved, rest)
      else decode_bytes waiting bytes'
  end.

(** The first byte in 0x80..0x88 among [bytes], with the bytes behind
    it. *)
Fixpoint first_error (bytes : list Js.value)
  : option (Js.value * list Js.value) :=
  match bytes with
  | [] => None
  | v :: bytes' =>
      if Js.between v 0x80 0x88 then Some (v, bytes')
      else first_error bytes'
  end.

Definition has_pending (d : PliDriverComplete.PLIDriver) : bool :=
  match PliDriverComplete.pending d with
  | [] => false
  | _ :: _ => true
  end.

(** ** Promises *)

(** The promise [p] is held by a pending request of [d]. *)
Definition is_pending (d : PliDriverComplete.PLIDriver) (p : nat) : Prop :=
  exists e, e ∈ PliDriverComplete.pending d
            /\ PliDriverComplete.promise (snd e) = p.

(** The promise [p] has been handed out by [d] and nothing is left that
    could settle it: it is unsettled, no pending request holds it and no
    armed timer holds it. *)
Definition orphan (d : PliDriverComplete.PLIDriver) (p : nat) : Prop :=
  Promise.outcome (PliDriverComplete.promises d) p = None
  /\ (p < PliDriverComplete.nextPromise d)%nat
  /\ ~ is_pending d p
  /\ ~ (exists t, t ∈ PliDriverComplete.timers d
                  /\ PliDriverComplete.timer_promise t = p).

(** Every promise handed out is accounted for: it is either held by a
    pending request, unsettled and with a timer armed for it, or settled
    and held by no request. *)
Definition accounted (d : PliDriverComplete.PLIDriver) (p : nat) : Prop :=
  (is_pending d p
   /\ Promise.outcome (PliDriverComplete.promises d) p = None
   /\ exists t, t ∈ PliDriverComplete.timers d
                /\ PliDriverComplete.timer_promise t = p)
  \/ (~ is_pending d p
      /\ exists o, Promise.outcome (PliDriverComplete.promises d) p = Some o).

(** ** Frames *)

(** The XOR of the bytes of a frame. *)
Definition frame_xor (frame : list Z) : Z := fold_right Z.lxor 0 frame.

(** ** The server's events *)

(** The bytes received, the bytes [send] has written, the connections and
    the socket errors in a sequence of events, counted from the events
    themselves. *)
Definition received_bytes (es : list TcpServer.Event) : Z :=
  fold_right
    (fun e n => match e with
                | TcpServer.SocketData _ data _ => Z.of_nat (length data) + n
                | _ => n
                end) 0 es.

Definition connection_count (es : list TcpServer.Event) : Z :=
  fold_right
    (fun e n => match e with TcpServer.Connection _ _ => 1 + n | _ => n end)
    0 es.

Definition error_count (es : list TcpServer.Event) : Z :=
  fold_right
    (fun e n => match e with TcpServer.SocketError _ => 1 + n | _ => n end)
    0 es.

(** The bytes written to the sockets, all chunks together. *)
Definition written_bytes (s : TcpServer.Server) : Z :=
  fold_right (fun w n => Z.of_nat (length (snd w)) + n) 0
             (TcpServer.written s).

(** The chunks received that hold ['PING']. *)
Definition ping_count (es : list TcpServer.Event) : Z :=
  fold_right
    (fun e n => match e with
                | TcpServer.SocketData _ data _ =>
                    if TcpServer.includes TcpServer.PING data then 1 + n else n
                | _ => n
                end) 0 es.


(* ===================================================================== *)
(** * Properties                                                           *)
(* ===================================================================== *)

(** ** Bytes and the 32-bit operators *)

Section Bytes.

Lemma ToInt32_small (z : Z) : 0 <= z < 2 ^ 31 -> Js.ToInt32 z = z.
Proof.
  intros Hz. unfold Js.ToInt32.
  rewrite Z.mod_small by lia.
  destruct (Z.ltb_spec z (2 ^ 31)); lia.
Qed.

Lemma ToInt32_byte (z : Z) : is_byte z -> Js.ToInt32 z = z.
Proof. intros Hz. apply ToInt32_small. unfold is_byte in Hz. lia. Qed.

Lemma ToUint8_byte (z : Z) : is_byte z -> Js.ToUint8 z = z.
Proof. intros Hz. unfold Js.ToUint8. apply Z.mod_small. exact Hz. Qed.

Lemma byte_log2 (z : Z) : 0 <= z -> (z < 256 <-> Z.log2 z < 8).
Proof.
  intros Hz. destruct (Z.eq_dec z 0) as [->|Hnz].
  - cbn. lia.
  - change 256 with (2 ^ 8). apply Z.log2_lt_pow2. lia.
Qed.

Lemma lxor_byte (a b : Z) : is_byte a -> is_byte b -> is_byte (Z.lxor a b).
Proof.
  unfold is_byte. intros Ha Hb.
  assert (Hn : 0 <= Z.lxor a b) by (apply Z.lxor_nonneg; lia).
  split; [exact Hn|].
  apply byte_log2; [exact Hn|].
  pose proof (Z.log2_lxor a b ltac:(lia) ltac:(lia)) as Hl.
  assert (Z.log2 a < 8) by (apply byte_log2; lia).
  assert (Z.log2 b < 8) by (apply byte_log2; lia).
  lia.
Qed.

Lemma xor_byte (a b : Z) : is_byte a -> is_byte b -> Js.xor a b = Z.lxor a b.
Proof.
  intros Ha Hb. unfold Js.xor. now rewrite !ToInt32_byte.
Qed.

Lemma land_byte (a b : Z) : is_byte a -> 0 <= b -> is_byte (Z.land a b).
Proof.
  unfold is_byte. intros Ha Hb.
  assert (Hn : 0 <= Z.land a b) by (apply Z.land_nonneg; lia).
  split; [exact Hn|].
  apply byte_log2; [exact Hn|].
  pose proof (Z.log2_land a b ltac:(lia) ltac:(lia)) as Hl.
  assert (Z.log2 a < 8) by (apply byte_log2; lia).
  lia.
Qed.

End Bytes.

(** ** The command encoder *)

(** C1.  For opcode, address and payload each a byte, both drivers' command
    builders return the four bytes opcode, address, payload, checksum, where
    the checksum is opcode XOR address XOR payload XOR 0xFF and is itself a
    byte.  The builders are functions of their three arguments alone. *)
Theorem buildCommand_checksum (opcode address payload : Z) :
  is_byte opcode -> is_byte address -> is_byte payload ->
  let checksum := Z.lxor (Z.lxor (Z.lxor opcode address) payload) 0xFF in
  PliDriver.buildCommand opcode address payload
    = [opcode; address; payload; checksum]
  /\ PliDriverComplete._buildCommand opcode address payload
    = [opcode; address; payload; checksum]
  /\ is_byte checksum.
Proof.
  intros Ho Ha Hp checksum.
  assert (H1 : is_byte (Z.lxor opcode address)) by now apply lxor_byte.
  assert (H2 : is_byte (Z.lxor (Z.lxor opcode address) payload))
    by now apply lxor_byte.
  assert (H3 : is_byte checksum).
  { apply lxor_byte; [exact H2 | unfold is_byte; lia]. }
  assert (Hx : Js.xor (Js.xor (Js.xor opcode address) payload) 0xFF = checksum).
  { rewrite (xor_byte opcode address) by assumption.
    rewrite (xor_byte _ payload) by assumption.
    rewrite xor_byte; [reflexivity | assumption | unfold is_byte; lia]. }
  unfold PliDriver.buildCommand, PliDriverComplete._buildCommand.
  rewrite Hx. unfold Js.Buffer_from. cbn [List.map].
  rewrite !ToUint8_byte by assumption.
  auto.
Qed.

Lemma buildCommand_checksum_witness :
  PliDriver.buildCommand 0x14 50 0 = [0x14; 50; 0; 0xD9]
  /\ PliDriverComplete._buildCommand 0x14 50 0 = [0x14; 50; 0; 0xD9]
  /\ is_byte 0xD9.
Proof.
  apply (buildCommand_checksum 0x14 50 0); unfold is_byte; lia.
Defined.

(** ** The history log *)

Lemma historyOffset_range (pointer day : Z) :
  0 <= pointer <= 29 -> 1 <= day <= 30 ->
  0x2E <= Protocol.historyOffset pointer day < 0x2E + 210.
Proof.
  intros Hp Hd. unfold Protocol.historyOffset.
  destruct (Z.ltb_spec (46 + 7 * pointer - 7 * (day - 1)) 46); lia.
Qed.

(** C3.  For a pointer in 0..29 and a day in 1..30, the offset computed by
    [readHistory] is the raw value [baseOffset - 7*(day-1)], or that value
    plus 210 when it falls below the log start 0x2E, and it always lies in
    the ring [0x2E, 0x2E + 210). *)
Theorem historyOffset_in_ring (pointer day : Z) :
  0 <= pointer <= 29 -> 1 <= day <= 30 ->
  let logStart := 0x2E in
  let baseOffset := logStart + 7 * pointer in
  let raw := baseOffset - 7 * (day - 1) in
  Protocol.historyOffset pointer day
    = (if raw <? logStart then baseOffset + 210 - 7 * (day - 1) else raw)
  /\ logStart <= Protocol.historyOffset pointer day < logStart + 210.
Proof.
  intros Hp Hd logStart baseOffset raw.
  split; [reflexivity|].
  now apply historyOffset_range.
Qed.

Lemma historyOffset_in_ring_witness :
  Protocol.historyOffset 2 10 = 207
  /\ 0x2E <= Protocol.historyOffset 2 10 < 0x2E + 210.
Proof.
  apply (historyOffset_in_ring 2 10); lia.
Defined.

Example historyOffset_day1 : Protocol.historyOffset 2 1 = 60.
Proof. reflexivity. Qed.

(** Every offset visited by the 30-day loop stays in the ring. *)
Lemma readHistory_offsets_in_ring (pointer : Z) :
  0 <= pointer <= 29 ->
  Forall (fun offset => 0x2E <= offset < 0x2E + 210)
         (Protocol.readHistory_offsets pointer).
Proof.
  intros Hp. unfold Protocol.readHistory_offsets.
  apply List.Forall_forall. intros offset Hin.
  apply in_map_iff in Hin. destruct Hin as (day & <- & Hday).
  apply in_seq in Hday.
  apply historyOffset_range; lia.
Qed.

Lemma parseDayRecord_fields (ratio b0 b1 b2 b3 b4 b5 b6 : Z) :
  is_byte b6 ->
  exists r,
    Protocol.parseDayRecord ratio [b0; b1; b2; b3; b4; b5; b6] = Some r
    /\ Protocol.soc r = b3
    /\ Protocol.chargeAh r = b4 + Z.land b6 0x0F * 256
    /\ Protocol.loadAh r = b5 + Z.shiftr (Z.land b6 0xF0) 4 * 256.
Proof.
  intros H6. eexists. split; [reflexivity|]. split; [reflexivity|].
  cbn [Protocol.chargeAh Protocol.loadAh].
  change (default 0 ([b0; b1; b2; b3; b4; b5; b6] !! 6%nat)) with b6.
  unfold Js.and, Js.shr.
  change (Js.ToInt32 0x0F) with 0x0F. change (Js.ToInt32 0xF0) with 0xF0.
  rewrite (ToInt32_byte b6) by exact H6.
  rewrite (ToInt32_byte (Z.land b6 0xF0)).
  - split; reflexivity.
  - apply land_byte; [exact H6 | lia].
Qed.

(** C4.  For a 7-byte record, [parseDayRecord] rebuilds the two 12-bit
    amp-hour counters from their low bytes and the two nibbles of the last
    byte: chargeAh = b4 + (b6 & 0x0F)*256 and
    loadAh = b5 + ((b6 & 0xF0) >> 4)*256. *)
Theorem parseDayRecord_nibbles (ratio b0 b1 b2 b3 b4 b5 b6 : Z) :
  is_byte b6 ->
  exists r,
    Protocol.parseDayRecord ratio [b0; b1; b2; b3; b4; b5; b6] = Some r
    /\ Protocol.chargeAh r = b4 + Z.land b6 0x0F * 256
    /\ Protocol.loadAh r = b5 + Z.shiftr (Z.land b6 0xF0) 4 * 256.
Proof.
  intros H6.
  destruct (parseDayRecord_fields ratio b0 b1 b2 b3 b4 b5 b6 H6)
    as (r & Hr & _ & Hc & Hl).
  exists r. auto.
Qed.

(** The record [10,20,30,40,50,60,0x13] gives chargeAh = 818 and
    loadAh = 316. *)
Lemma parseDayRecord_nibbles_witness :
  exists r,
    Protocol.parseDayRecord 1 [10; 20; 30; 40; 50; 60; 0x13] = Some r
    /\ Protocol.chargeAh r = 818
    /\ Protocol.loadAh r = 316.
Proof.
  apply (parseDayRecord_nibbles 1 10 20 30 40 50 60 0x13).
  unfold is_byte. lia.
Defined.

(** The same counters in arithmetic terms: the low nibble of the last
    byte is the high part of chargeAh, the high nibble that of loadAh, so
    both counters stay below 4096. *)
Lemma parseDayRecord_arith (ratio b0 b1 b2 b3 b4 b5 b6 : Z) :
  is_byte b4 -> is_byte b5 -> is_byte b6 ->
  exists r,
    Protocol.parseDayRecord ratio [b0; b1; b2; b3; b4; b5; b6] = Some r
    /\ Protocol.chargeAh r = b4 + 256 * (b6 mod 16)
    /\ Protocol.loadAh r = b5 + 256 * (b6 / 16)
    /\ 0 <= Protocol.chargeAh r < 4096
    /\ 0 <= Protocol.loadAh r < 4096.
Proof.
  intros H4 H5 H6.
  destruct (parseDayRecord_fields ratio b0 b1 b2 b3 b4 b5 b6 H6)
    as (r & Hr & _ & Hc & Hl).
  exists r. split; [exact Hr|].
  assert (Hlow : Z.land b6 0x0F = b6 mod 16).
  { change 0x0F with (Z.ones 4). rewrite Z.land_ones by lia. reflexivity. }
  assert (Hhigh : Z.shiftr (Z.land b6 0xF0) 4 = b6 / 16).
  { apply Z.bits_inj'. intros n Hn.
    rewrite Z.shiftr_spec by lia.
    rewrite Z.land_spec.
    change 16 with (2 ^ 4). rewrite <- Z.shiftr_div_pow2 by lia.
    rewrite Z.shiftr_spec by lia.
    destruct (Z.ltb_spec n 4) as [Hlt|Hge].
    - assert (Hb : Z.testbit 0xF0 (n + 4) = true).
      { assert (Hc4 : n = 0 \/ n = 1 \/ n = 2 \/ n = 3) by lia.
        destruct Hc4 as [->|[->|[->| ->]]]; reflexivity. }
      rewrite Hb. apply andb_true_r.
    - assert (Hb6 : Z.testbit b6 (n + 4) = false).
      { destruct (Z.eq_dec b6 0) as [->|Hnz]; [apply Z.bits_0|].
        apply Z.bits_above_log2; [unfold is_byte in H6; lia|].
        assert (Z.log2 b6 < 8) by (apply byte_log2; unfold is_byte in H6; lia).
        lia. }
      rewrite Hb6. reflexivity. }
  unfold is_byte in *.
  rewrite Hc, Hl, Hlow, Hhigh.
  pose proof (Z.mod_pos_bound b6 16 ltac:(lia)).
  assert (0 <= b6 / 16 < 16).
  { split; [apply Z.div_pos; lia | apply Z.div_lt_upper_bound; lia]. }
  repeat split; lia.
Qed.

(** ** The decoder of the complete driver *)

Section Decoder.

Import PliDriverComplete.

Lemma peek_readByte (b : BufferJs.CircularBuffer) :
  BufferJs.peek b = fst (BufferJs.readByte b).
Proof.
  unfold BufferJs.peek, BufferJs.readByte.
  destruct (BufferJs.count b =? 0); reflexivity.
Qed.

Lemma readByte_inv (b b' : BufferJs.CircularBuffer) (v : Js.value) :
  BufferJs.readByte b = (v, b') ->
  (BufferJs.count b = 0 /\ v = Js.Null /\ b' = b)
  \/ (BufferJs.count b <> 0
      /\ v = Js.get (BufferJs.buffer b) (BufferJs.tail b)
      /\ b' = BufferJs.mk (BufferJs.buffer b) (BufferJs.head b)
                (Z.rem (BufferJs.tail b + 1) (BufferJs.size b))
                (BufferJs.size b) (BufferJs.count b - 1)).
Proof.
  unfold BufferJs.readByte.
  destruct (Z.eqb_spec (BufferJs.count b) 0) as [H0|H0]; intros [= <- <-]; auto.
Qed.


Lemma readByte_count_lt (b b' : BufferJs.CircularBuffer) (v : Js.value) :
  BufferJs.readByte b = (v, b') -> 0 < BufferJs.count b ->
  BufferJs.count b' = BufferJs.count b - 1.
Proof.
  intros H Hc. apply readByte_inv in H.
  destruct H as [(H0 & _ & ->)|(Hn & _ & ->)]; cbn; lia.
Qed.




End Decoder.

(** ** The JavaScript Map and the promise log *)

Section MapFacts.

Context {K V : Type} `{EqDecision K}.
Implicit Types (m : JsMap.t K V) (k : K) (v : V).

Lemma has_true_iff k m : JsMap.has k m = true <-> k ∈ JsMap.keys m.
Proof.
  induction m as [|[k' v'] m IH]; cbn.
  - split; [discriminate | intros Hin; inversion Hin].
  - destruct (decide (k = k')) as [->|Hne].
    + split; [intros _; apply list_elem_of_here | reflexivity].
    + rewrite IH. split.
      * intros Hin. now apply list_elem_of_further.
      * intros Hin. apply elem_of_cons in Hin. destruct Hin; [contradiction|assumption].
Qed.

Lemma has_false_iff k m : JsMap.has k m = false <-> k ∉ JsMap.keys m.
Proof.
  rewrite <- has_true_iff. destruct (JsMap.has k m); split; intros; congruence.
Qed.

(** A key that is not in the Map goes to the end of the iteration
    order. *)
Lemma set_fresh k v m : k ∉ JsMap.keys m -> JsMap.set k v m = m ++ [(k, v)].
Proof.
  induction m as [|[k' v'] m IH]; cbn; intros Hk; [reflexivity|].
  apply not_elem_of_cons in Hk. destruct Hk as [Hne Hk].
  destruct (decide (k = k')); [contradiction|].
  now rewrite IH.
Qed.

Lemma elem_of_delete k m (e : K * V) : e ∈ JsMap.delete k m -> e ∈ m.
Proof.
  induction m as [|[k' v'] m IH]; cbn; [tauto|].
  destruct (decide (k = k')).
  - apply list_elem_of_further.
  - intros Hin. apply elem_of_cons in Hin. destruct Hin as [->|Hin].
    + apply list_elem_of_here.
    + apply list_elem_of_further. auto.
Qed.

Lemma elem_of_delete_ne k m (e : K * V) :
  e ∈ m -> fst e <> k -> e ∈ JsMap.delete k m.
Proof.
  induction m as [|[k' v'] m IH]; cbn; [tauto|].
  intros Hin Hne. apply elem_of_cons in Hin.
  destruct (decide (k = k')) as [->|Hkk].
  - destruct Hin as [->|Hin]; [cbn in Hne; contradiction|assumption].
  - destruct Hin as [->|Hin]; [apply list_elem_of_here|].
    apply list_elem_of_further. auto.
Qed.

Lemma keys_delete_subset k k' m :
  k' ∈ JsMap.keys (JsMap.delete k m) -> k' ∈ JsMap.keys m.
Proof.
  unfold JsMap.keys. intros Hin.
  apply list_elem_of_In, in_map_iff in Hin. destruct Hin as (e & <- & Hin).
  apply list_elem_of_In, in_map. apply list_elem_of_In.
  eapply elem_of_delete. apply list_elem_of_In. exact Hin.
Qed.

Lemma NoDup_keys_delete k m :
  NoDup (JsMap.keys m) -> NoDup (JsMap.keys (JsMap.delete k m)).
Proof.
  induction m as [|[k' v'] m IH]; cbn; [auto|].
  intros Hnd. apply NoDup_cons in Hnd. destruct Hnd as [Hk' Hnd].
  destruct (decide (k = k')); [assumption|].
  cbn. apply NoDup_cons. split; [|auto].
  intros Hin. apply Hk'. eapply keys_delete_subset. exact Hin.
Qed.

Lemma not_key_after_delete k m :
  NoDup (JsMap.keys m) -> k ∉ JsMap.keys (JsMap.delete k m).
Proof.
  induction m as [|[k' v'] m IH]; cbn; intros Hnd.
  - intros Hin. inversion Hin.
  - apply NoDup_cons in Hnd. destruct Hnd as [Hk' Hnd].
    destruct (decide (k = k')) as [->|Hne]; [assumption|].
    cbn. apply not_elem_of_cons. split; auto.
Qed.

Lemma delete_absent k m : k ∉ JsMap.keys m -> JsMap.delete k m = m.
Proof.
  induction m as [|[k' v'] m IH]; cbn; [reflexivity|].
  intros Hk. apply not_elem_of_cons in Hk. destruct Hk as [Hne Hk].
  destruct (decide (k = k')); [contradiction|]. now rewrite IH.
Qed.

Lemma length_delete k m :
  k ∈ JsMap.keys m -> S (length (JsMap.delete k m)) = length m.
Proof.
  induction m as [|[k' v'] m IH]; cbn; intros Hin; [inversion Hin|].
  destruct (decide (k = k')) as [->|Hne]; [reflexivity|].
  apply elem_of_cons in Hin. destruct Hin as [->|Hin]; [contradiction|].
  cbn. now rewrite IH.
Qed.

End MapFacts.

Section PromiseFacts.

Lemma outcome_has (log : Promise.Log) (p : nat) :
  JsMap.has p log = false <-> Promise.outcome log p = None.
Proof.
  induction log as [|[q o] log IH]; cbn; [tauto|].
  destruct (decide (p = q)); [split; discriminate|exact IH].
Qed.

Lemma outcome_app_fresh (log : Promise.Log) (p q : nat) (o : Promise.Outcome) :
  Promise.outcome (log ++ [(q, o)]) p
  = match Promise.outcome log p with
    | Some o' => Some o'
    | None => if decide (p = q) then Some o else None
    end.
Proof.
  induction log as [|[q' o'] log IH]; cbn; [reflexivity|].
  destruct (decide (p = q')); [reflexivity|exact IH].
Qed.

(** Settling an unsettled promise fixes its outcome. *)
Lemma outcome_settle_new (log : Promise.Log) (p : nat) (o : Promise.Outcome) :
  Promise.outcome log p = None ->
  Promise.outcome (Promise.settle log p o) p = Some o.
Proof.
  intros Hn. unfold Promise.settle.
  assert (Hh : JsMap.has p log = false) by now apply outcome_has.
  rewrite Hh. rewrite set_fresh by now apply has_false_iff.
  rewrite outcome_app_fresh, Hn. destruct (decide (p = p)); congruence.
Qed.

(** A settled promise keeps its outcome whatever is settled later. *)
Lemma outcome_settle_kept (log : Promise.Log) (p q : nat)
  (o o' : Promise.Outcome) :
  Promise.outcome log p = Some o ->
  Promise.outcome (Promise.settle log q o') p = Some o.
Proof.
  intros Hs. unfold Promise.settle.
  destruct (JsMap.has q log) eqn:Hh; [exact Hs|].
  rewrite set_fresh by now apply has_false_iff.
  now rewrite outcome_app_fresh, Hs.
Qed.

(** Settling one promise leaves the others as they were. *)
Lemma outcome_settle_other (log : Promise.Log) (p q : nat)
  (o : Promise.Outcome) :
  p <> q -> Promise.outcome (Promise.settle log q o) p = Promise.outcome log p.
Proof.
  intros Hne. unfold Promise.settle.
  destruct (JsMap.has q log) eqn:Hh; [reflexivity|].
  rewrite set_fresh by now apply has_false_iff.
  rewrite outcome_app_fresh.
  destruct (Promise.outcome log p); [reflexivity|].
  destruct (decide (p = q)); [contradiction|reflexivity].
Qed.

End PromiseFacts.

(** ** What a run of the decoder does to the requests *)

Section Correlation.

Import PliDriverComplete.




(** A run of the decoder either leaves the requests alone or resolves the
    first pending one; it touches nothing but the buffer, the emitted
    events, the pending Map and the promise log. *)
Lemma processLoop_effect (fuel : nat) (d d' : PLIDriver) :
  processLoop fuel d = Some d' ->
  ((pending d' = pending d /\ promises d' = promises d)
   \/ exists id request rest value,
        pending d = (id, request) :: rest
        /\ pending d' = rest
        /\ promises d'
           = Promise.settle (promises d) (promise request)
                            (Promise.Resolved value))
  /\ nextPromise d' = nextPromise d
  /\ timers d' = timers d
  /\ socket d' = socket d
  /\ reconnectTimer d' = reconnectTimer d.
Proof.
  revert d. induction fuel as [|fuel IH]; intros d; cbn [processLoop];
    [discriminate|].
  destruct (0 <? BufferJs.available (buffer d)).
  2:{ intros [= <-]. repeat split; auto. }
  destruct (BufferJs.readByte (buffer d)) as [v1 b1].
  destruct (Js.strict_eq_num (BufferJs.peek (buffer d)) PROTOCOL_PREFIX).
  - destruct (BufferJs.readByte b1) as [data b2].
    destruct (negb (Js.is_null data)).
    + cbn [pending set_buffer].
      destruct (pending d) as [|[id request] rest] eqn:Hp.
      * intros Hl. apply IH in Hl. cbn in Hl. rewrite Hp in Hl. exact Hl.
      * intros [= <-]. cbn. destruct (decide (id = id)); [|contradiction].
        split; [right; eauto 10|auto].
    + intros Hl. apply IH in Hl. exact Hl.
  - destruct (Js.between (BufferJs.peek (buffer d)) 128 136);
      intros Hl; apply IH in Hl; exact Hl.
Qed.


End Correlation.

(** ** The invariant of the complete driver *)

Section Invariant.

Import PliDriverComplete.

Lemma StronglySorted_snoc {A : Type} (R : A -> A -> Prop) (l : list A) (a : A) :
  StronglySorted R l -> (forall x, x ∈ l -> R x a) ->
  StronglySorted R (l ++ [a]).
Proof.
  induction l as [|x l IH]; cbn; intros Hs Ha.
  - repeat constructor.
  - apply StronglySorted_inv in Hs. destruct Hs as [Hs Hx].
    constructor.
    + apply IH; [exact Hs|]. intros y Hy. apply Ha. now apply list_elem_of_further.
    + apply List.Forall_app. split; [exact Hx|].
      constructor; [|constructor]. apply Ha. apply list_elem_of_here.
Qed.

Lemma issue_ordered_delete (id : RequestId)
  (m : JsMap.t RequestId PendingRequest) :
  issue_ordered m -> issue_ordered (JsMap.delete id m).
Proof.
  unfold issue_ordered.
  induction m as [|[k r] m IH]; cbn; intros Hs; [constructor|].
  apply StronglySorted_inv in Hs. destruct Hs as [Hs Hr].
  destruct (decide (id = k)); [exact Hs|].
  cbn. constructor; [auto|].
  rewrite List.Forall_forall in Hr |- *. intros x Hx. apply Hr.
  apply in_map_iff in Hx. destruct Hx as (e & <- & He).
  apply in_map_iff. exists e. split; [reflexivity|].
  apply list_elem_of_In. eapply elem_of_delete. apply list_elem_of_In. exact He.
Qed.

(** In issue order two entries with the same promise are the same
    entry. *)
Lemma issue_ordered_inj (m : JsMap.t RequestId PendingRequest)
  (e1 e2 : RequestId * PendingRequest) :
  issue_ordered m -> e1 ∈ m -> e2 ∈ m ->
  promise (snd e1) = promise (snd e2) -> e1 = e2.
Proof.
  unfold issue_ordered.
  induction m as [|e m IH]; cbn; intros Hs H1 H2 Heq; [inversion H1|].
  apply StronglySorted_inv in Hs. destruct Hs as [Hs He].
  rewrite List.Forall_forall in He.
  assert (Hlt : forall x, x ∈ m -> (promise (snd e) < promise (snd x))%nat).
  { intros x Hx. apply He. apply in_map_iff. exists x.
    split; [reflexivity|]. now apply list_elem_of_In. }
  apply elem_of_cons in H1. apply elem_of_cons in H2.
  destruct H1 as [->|H1], H2 as [->|H2].
  - reflexivity.
  - apply Hlt in H2. lia.
  - apply Hlt in H1. lia.
  - auto.
Qed.

Lemma outcome_above (log : Promise.Log) (n : nat) :
  (forall q, q ∈ log -> (fst q < n)%nat) -> Promise.outcome log n = None.
Proof.
  induction log as [|[p o] log IH]; cbn; intros Hb; [reflexivity|].
  destruct (decide (n = p)) as [->|Hne].
  - specialize (Hb (p, o) (list_elem_of_here _ _)). cbn in Hb. lia.
  - apply IH. intros q Hq. apply Hb. now apply list_elem_of_further.
Qed.

Lemma settle_bound (log : Promise.Log) (p n : nat) (o : Promise.Outcome) :
  (forall q, q ∈ log -> (fst q < n)%nat) -> (p < n)%nat ->
  forall q, q ∈ Promise.settle log p o -> (fst q < n)%nat.
Proof.
  intros Hb Hp q. unfold Promise.settle.
  destruct (JsMap.has p log) eqn:Hh; [apply Hb|].
  rewrite set_fresh by now apply has_false_iff.
  intros Hq. apply elem_of_app in Hq. destruct Hq as [Hq|Hq]; [auto|].
  apply list_elem_of_singleton in Hq. subst q. exact Hp.
Qed.

Lemma key_of_entry (m : JsMap.t RequestId PendingRequest)
  (e : RequestId * PendingRequest) : e ∈ m -> fst e ∈ JsMap.keys m.
Proof.
  intros He. unfold JsMap.keys. apply list_elem_of_In, in_map.
  now apply list_elem_of_In.
Qed.

Lemma entry_of_key (m : JsMap.t RequestId PendingRequest) (id : RequestId) :
  id ∈ JsMap.keys m -> exists r, (id, r) ∈ m.
Proof.
  unfold JsMap.keys. intros Hin.
  apply list_elem_of_In, in_map_iff in Hin. destruct Hin as ([k r] & <- & Hin).
  exists r. now apply list_elem_of_In.
Qed.

Lemma deleted_entry_key (m : JsMap.t RequestId PendingRequest)
  (id : RequestId) (e : RequestId * PendingRequest) :
  NoDup (JsMap.keys m) -> e ∈ JsMap.delete id m -> fst e <> id.
Proof.
  intros Hnd He Heq. subst id.
  apply (not_key_after_delete (fst e) m Hnd).
  now apply key_of_entry.
Qed.

Lemma invariant_new (timeout : Z) (m : string) : invariant (new timeout m).
Proof.
  split; cbn; try (intros ? Hin; now inversion Hin); try constructor.
Qed.

(** Events that leave the requests, the log and the timers alone keep the
    invariant. *)
Lemma invariant_same (d d' : PLIDriver) :
  pending d' = pending d -> promises d' = promises d ->
  nextPromise d' = nextPromise d -> timers d' = timers d ->
  invariant d -> invariant d'.
Proof.
  intros Hp Hl Hn Ht [I1 I2 I3 I4 I5 I6 I7].
  split; rewrite ?Hp, ?Hl, ?Hn, ?Ht; assumption.
Qed.

(** Removing a pending entry and settling its promise keeps the
    invariant, for any set of timers that keeps those of the other
    entries. *)
Lemma invariant_remove (d d' : PLIDriver) (id : RequestId)
  (r : PendingRequest) (o : Promise.Outcome) :
  invariant d -> (id, r) ∈ pending d ->
  pending d' = JsMap.delete id (pending d) ->
  promises d' = Promise.settle (promises d) (promise r) o ->
  nextPromise d' = nextPromise d ->
  (forall t, t ∈ timers d' -> t ∈ timers d) ->
  (forall t, t ∈ timers d -> timer_id t <> id -> t ∈ timers d') ->
  invariant d'.
Proof.
  intros [I1 I2 I3 I4 I5 I6 I7] Hin Hp Hl Hn Ht1 Ht2.
  split; rewrite ?Hp, ?Hl, ?Hn.
  - now apply issue_ordered_delete.
  - intros e He. apply I2. eapply elem_of_delete. exact He.
  - apply settle_bound; [exact I3|]. apply (I2 (id, r) Hin).
  - now apply NoDup_keys_delete.
  - intros e He.
    assert (Hk : fst e <> id) by (eapply deleted_entry_key; eauto).
    apply elem_of_delete in He.
    rewrite outcome_settle_other; [now apply I5|].
    intros Heq. apply Hk.
    assert (e = (id, r)) as -> by (eapply issue_ordered_inj; eauto).
    reflexivity.
  - intros t r' Hti Hr'. apply I6; [now apply Ht1|].
    eapply elem_of_delete. exact Hr'.
  - intros e He.
    assert (Hk : fst e <> id) by (eapply deleted_entry_key; eauto).
    apply elem_of_delete in He.
    destruct (I7 e He) as (t & Hti & Hid & Hpr).
    exists t. split; [|auto]. apply Ht2; [exact Hti|]. now rewrite Hid.
Qed.

Lemma elem_of_disarm (t t' : Timer) (ts : list Timer) :
  t' ∈ disarm t ts -> t' ∈ ts.
Proof.
  induction ts as [|t0 ts IH]; cbn; [tauto|].
  destruct (decide (t = t0)).
  - apply list_elem_of_further.
  - intros Hin. apply elem_of_cons in Hin. destruct Hin as [->|Hin].
    + apply list_elem_of_here.
    + apply list_elem_of_further. auto.
Qed.

Lemma elem_of_disarm_ne (t t' : Timer) (ts : list Timer) :
  t' ∈ ts -> t' <> t -> t' ∈ disarm t ts.
Proof.
  induction ts as [|t0 ts IH]; cbn; [tauto|].
  intros Hin Hne. apply elem_of_cons in Hin.
  destruct (decide (t = t0)) as [->|Htt].
  - destruct Hin as [->|Hin]; [contradiction|assumption].
  - destruct Hin as [->|Hin]; [apply list_elem_of_here|].
    apply list_elem_of_further. auto.
Qed.

Lemma invariant_fire (d : PLIDriver) (t : Timer) :
  invariant d -> t ∈ timers d -> invariant (fire t d).
Proof.
  intros Hinv Ht. unfold fire, read_timer.
  destruct (JsMap.has (timer_id t) (pending d)) eqn:Hh.
  - apply has_true_iff, entry_of_key in Hh. destruct Hh as [r Hr].
    apply (invariant_remove d _ (timer_id t) r
             (Promise.Rejected (Promise.ReadTimeout (timer_addr t))) Hinv Hr).
    + reflexivity.
    + cbn. now rewrite (inv_timers d Hinv t r Ht Hr).
    + reflexivity.
    + cbn. intros t'. apply elem_of_disarm.
    + cbn. intros t' Ht' Hne. apply elem_of_disarm_ne; [exact Ht'|].
      intros ->. contradiction.
  - apply has_false_iff in Hh.
    destruct Hinv as [I1 I2 I3 I4 I5 I6 I7].
    split; cbn; try assumption.
    + intros t' r Ht' Hr. apply I6; [|exact Hr]. eapply elem_of_disarm. exact Ht'.
    + intros e He. destruct (I7 e He) as (t' & Ht' & Hid & Hpr).
      exists t'. split; [|auto]. apply elem_of_disarm_ne; [exact Ht'|].
      intros ->. apply Hh. rewrite Hid. now apply key_of_entry.
Qed.

Lemma invariant_processLoop (fuel : nat) (d d' : PLIDriver) :
  invariant d -> processLoop fuel d = Some d' -> invariant d'.
Proof.
  intros Hinv Hl. apply processLoop_effect in Hl.
  destruct Hl as ([[Hp Hlog]|(id & r & rest & v & Hp & Hp' & Hlog)] & Hn & Ht & _).
  - now apply (invariant_same d d').
  - apply (invariant_remove d d' id r (Promise.Resolved v) Hinv).
    + rewrite Hp. apply list_elem_of_here.
    + rewrite Hp', Hp. cbn. destruct (decide (id = id)); [reflexivity|contradiction].
    + exact Hlog.
    + exact Hn.
    + intros t. now rewrite Ht.
    + intros t Hti _. now rewrite Ht.
Qed.

Lemma invariant_read (d : PLIDriver) (addr timeout now started : Z) :
  invariant d -> fresh d (Read addr timeout now started) ->
  invariant (snd (read d addr timeout now started)).
Proof.
  intros [I1 I2 I3 I4 I5 I6 I7] [Hk Ht]. unfold read.
  cbn [new_promise socket].
  assert (Hclosed :
    invariant (settle
      (mk (default_timeout d) (model d) (socket d) (buffer d) (pending d)
          (reconnectTimer d) (emitted d) (promises d) (S (nextPromise d))
          (timers d))
      (nextPromise d) (Promise.Rejected Promise.NotConnected))).
  { split; cbn; try assumption.
    - intros e He. specialize (I2 e He). lia.
    - apply settle_bound; [|lia]. intros q Hq. specialize (I3 q Hq). lia.
    - intros e He. rewrite outcome_settle_other; [now apply I5|].
      specialize (I2 e He). lia. }
  destruct (socket d) as [[[] w]|] eqn:Hs; cbn [snd]; try exact Hclosed.
  clear Hclosed.
  split; cbn; rewrite ?(set_fresh _ _ _ Hk).
  - unfold issue_ordered. rewrite List.map_app. cbn.
    apply StronglySorted_snoc; [exact I1|].
    intros x Hx. apply list_elem_of_In, in_map_iff in Hx.
    destruct Hx as (e & <- & He). apply I2. now apply list_elem_of_In.
  - intros e He. apply elem_of_app in He. destruct He as [He|He].
    + specialize (I2 e He). lia.
    + apply list_elem_of_singleton in He. subst e. cbn. lia.
  - intros q Hq. specialize (I3 q Hq). lia.
  - unfold JsMap.keys. rewrite List.map_app. cbn.
    apply NoDup_app. split; [exact I4|]. split.
    + intros x Hx Hx'. apply list_elem_of_singleton in Hx'. subst x. contradiction.
    + apply NoDup_singleton.
  - intros e He. apply elem_of_app in He. destruct He as [He|He].
    + now apply I5.
    + apply list_elem_of_singleton in He. subst e. cbn.
      now apply outcome_above.
  - intros t r Hti Hr.
    apply elem_of_app in Hti. apply elem_of_app in Hr.
    destruct Hti as [Hti|Hti], Hr as [Hr|Hr].
    + now apply I6.
    + apply list_elem_of_singleton in Hr. injection Hr as Hid ->.
      exfalso. apply Ht. rewrite <- Hid.
      apply list_elem_of_In, in_map. now apply list_elem_of_In.
    + apply list_elem_of_singleton in Hti. subst t. cbn in Hr.
      exfalso. apply Hk. now apply (key_of_entry _ _ Hr).
    + apply list_elem_of_singleton in Hti. subst t.
      apply list_elem_of_singleton in Hr. injection Hr as ->. reflexivity.
  - intros e He. apply elem_of_app in He. destruct He as [He|He].
    + destruct (I7 e He) as (t & Hti & Hid & Hpr).
      exists t. split; [|auto]. apply elem_of_app. now left.
    + apply list_elem_of_singleton in He. subst e.
      eexists. split; [apply elem_of_app; right; apply list_elem_of_here|].
      split; reflexivity.
Qed.

Lemma invariant_step (d d' : PLIDriver) (e : Event) :
  invariant d -> fresh d e -> step d e = Some d' -> invariant d'.
Proof.
  intros Hinv Hf. unfold step.
  destruct (enabled d e) eqn:Hen; [|discriminate].
  destruct e; cbn [handle].
  - intros [= <-]. now apply (invariant_same d).
  - intros [= <-]. apply (invariant_same d); auto.
    all: unfold on_close, _scheduleReconnect; cbn;
      destruct (reconnectTimer d); reflexivity.
  - intros [= <-]. now apply (invariant_same d).
  - unfold on_data, _processResponses. apply invariant_processLoop.
    now apply (invariant_same d).
  - intros [= <-]. now apply invariant_read.
  - intros [= <-]. apply invariant_fire; [exact Hinv|].
    cbn in Hen. now apply bool_decide_eq_true in Hen.
  - intros [= <-]. now apply (invariant_same d).
Qed.

(** Every state the driver goes through satisfies the invariant. *)
Lemma reachable_invariant (d : PLIDriver) : reachable d -> invariant d.
Proof.
  induction 1 as [timeout m|d d' e _ IH Hf Hs].
  - apply invariant_new.
  - eapply invariant_step; eauto.
Qed.

End Invariant.

(** ** Scenarios are reachable *)

Section Scenarios.

Import PliDriverComplete.

Lemma reachable_connected : reachable connected.
Proof.
  apply (reachable_step (new 5000 "PL40") connected SocketOpens).
  - apply reachable_new.
  - exact I.
  - reflexivity.
Qed.

Lemma reachable_waiting : reachable waiting.
Proof.
  apply (reachable_step connected waiting (Read 50 100 1000 1000)).
  - apply reachable_connected.
  - split; apply not_elem_of_nil.
  - reflexivity.
Qed.

Lemma reachable_two_reads : reachable two_reads.
Proof.
  apply (reachable_step waiting two_reads (Read 52 100 1001 1001)).
  - apply reachable_waiting.
  - split; cbn; intros Hin; apply list_elem_of_singleton in Hin; discriminate.
  - reflexivity.
Qed.

End Scenarios.

(** ** Correlation when request ids collide *)

Section CollidingCorrelation.

Import PliDriverComplete.

(** C2 fails on the code.  The reads of the addresses 50, 52 and 50 again
    are issued within one millisecond, so the third has the request id of
    the first; [Map.set] keeps the slot of the first and puts the third
    request in it.  The frame that arrives then resolves the third
    request, the newest, with its value, while the second request, issued
    before it, stays pending and unsettled, and the first is left
    unsettled with no entry.  In the basic driver no frame resolves
    anything: the ['data'] handler ends in the [TypeError] of the call
    [this.buffer.read()], with the requests and the promises as they
    were. *)
Theorem colliding_reads_resolve_newest :
  pending colliding_reads
  = [ ((50, 1000), mkPending 2 100 1000); ((52, 1000), mkPending 1 100 1000) ]
  /\ (exists d',
        on_data colliding_reads [0xC8; 138; 0] = Some d'
        /\ Promise.outcome (promises d') 2
           = Some (Promise.Resolved (Js.Num 138))
        /\ Promise.outcome (promises d') 1 = None
        /\ pending d' = [ ((52, 1000), mkPending 1 100 1000) ]
        /\ Promise.outcome (promises d') 0 = None)
  /\ (forall (basic : PliDriver.PLIDriver) (data : list Z),
        exists basic',
          PliDriver.on_data basic data = Js.Throws basic' Js.TypeError
          /\ PliDriver.pendingReads basic' = PliDriver.pendingReads basic
          /\ PliDriver.promises basic' = PliDriver.promises basic).
Proof.
  split; [reflexivity|]. split.
  - eexists. split; [vm_compute; reflexivity|].
    repeat split; reflexivity.
  - intros basic data. eexists. split; [reflexivity|].
    split; reflexivity.
Qed.

End CollidingCorrelation.

(** ** A prefix with no value byte behind it *)

Section PartialFrame.

Import PliDriverComplete.

(** C6, as the driver has it.  When the head of the buffer is the prefix
    0xC8 and it is the only byte available, [_processResponses] consumes
    the prefix and returns: the buffer is left empty, nothing is emitted,
    no request is resolved or removed.  The driver after the call is the
    driver before it with one byte read off the buffer; nothing records
    that a prefix was seen. *)
Theorem lone_prefix_is_consumed (d : PLIDriver) :
  BufferJs.available (buffer d) = 1 ->
  BufferJs.peek (buffer d) = Js.Num 0xC8 ->
  exists d',
    _processResponses d = Some d'
    /\ d' = set_buffer d (snd (BufferJs.readByte (buffer d)))
    /\ BufferJs.available (buffer d') = 0
    /\ pending d' = pending d
    /\ promises d' = promises d
    /\ emitted d' = emitted d.
Proof.
  intros Hav Hpeek.
  unfold _processResponses. rewrite Hav.
  change (Z.to_nat 1) with 1%nat. cbn [processLoop].
  rewrite Hav, Hpeek. cbn [Js.strict_eq_num].
  change (0 <? 1) with true. change (200 =? PROTOCOL_PREFIX) with true.
  cbn match.
  unfold BufferJs.available in Hav.
  unfold BufferJs.readByte at 1 2. rewrite Hav. cbn match.
  unfold BufferJs.readByte. cbn [BufferJs.count].
  change (1 - 1 =? 0) with true. cbn match.
  cbn [Js.is_null negb set_buffer buffer BufferJs.available BufferJs.count].
  change (0 <? 1 - 1) with false. cbn match.
  eexists. split; [reflexivity|].
  rewrite Hav. cbn. repeat split; reflexivity.
Qed.

(** The state of [waiting] once the chunk [0, 0xC8] has been decoded and
    the next chunk, [138], has been written to the buffer: the prefix is
    at the head and is the only byte available. *)
Lemma lone_prefix_is_consumed_witness :
  exists d1,
    on_data waiting [0; 0xC8] = Some d1
    /\ let d := set_buffer d1 (BufferJs.write (buffer d1) [138]) in
       exists d',
         _processResponses d = Some d'
         /\ d' = set_buffer d (snd (BufferJs.readByte (buffer d)))
         /\ BufferJs.available (buffer d') = 0
         /\ pending d' = pending d
         /\ promises d' = promises d
         /\ emitted d' = emitted d.
Proof.
  eexists. split; [vm_compute; reflexivity|].
  intros d. apply (lone_prefix_is_consumed d); reflexivity.
Defined.

(** C6, as stated, fails.  A read is pending; the bytes 0, 0xC8, 138, 7
    arrive in the chunks [0, 0xC8], [138], [7].  When the second chunk is
    decoded the prefix is at the head of the buffer with no second byte
    available.  The claim has the decoder consume nothing then and emit
    the Data frame of value 138 at the next delivery; the driver empties
    the buffer, and after the next delivery the request is still pending
    and unresolved. *)
Lemma partial_frame_counterexample :
  exists d1 d2 d3,
    on_data waiting [0; 0xC8] = Some d1
    /\ BufferJs.peek (BufferJs.write (buffer d1) [138]) = Js.Num 0xC8
    /\ BufferJs.available (BufferJs.write (buffer d1) [138]) = 1
    /\ on_data d1 [138] = Some d2
    /\ BufferJs.available (buffer d2) = 0
    /\ on_data d2 [7] = Some d3
    /\ pending d3 = pending waiting
    /\ Promise.outcome (promises d3) 0 = None
    /\ ~ (BufferJs.available (buffer d2) = 1
          /\ Promise.outcome (promises d3) 0
             = Some (Promise.Resolved (Js.Num 138))).
Proof.
  eexists. eexists. eexists.
  split; [vm_compute; reflexivity|].
  split; [reflexivity|].
  split; [reflexivity|].
  split; [vm_compute; reflexivity|].
  split; [reflexivity|].
  split; [vm_compute; reflexivity|].
  split; [reflexivity|].
  split; [reflexivity|].
  intros [H _]. vm_compute in H. discriminate.
Qed.

End PartialFrame.

(** ** Timeouts *)

Section Timeouts.

Import PliDriverComplete.

(** What [read] does on an open socket under a fresh request id: a new
    entry at the end of the Map, the command written, the timer armed. *)
Lemma read_open (d : PLIDriver) (addr timeout now started : Z) :
  is_open d = true -> (addr, now) ∉ JsMap.keys (pending d) ->
  let p := nextPromise d in
  let d' := snd (read d addr timeout now started) in
  fst (read d addr timeout now started) = p
  /\ pending d' = pending d ++ [((addr, now), mkPending p timeout started)]
  /\ timers d' = timers d ++ [mkTimer (addr, now) p addr timeout]
  /\ promises d' = promises d
  /\ exists w, socket d = Some (mkSocket true w)
               /\ socket d'
                  = Some (mkSocket true (w ++ [_buildCommand CMD_READ_RAM addr 0])).
Proof.
  unfold is_open, read. cbn [new_promise socket].
  destruct (socket d) as [[[] w]|] eqn:Hs; try discriminate.
  intros _ Hk. cbn. rewrite (set_fresh _ _ _ Hk).
  repeat split; eauto.
Qed.

(** The timer of a request that is still pending rejects its promise and
    removes its entry. *)
Lemma fire_pending (d : PLIDriver) (t : Timer) :
  invariant d -> t ∈ timers d -> timer_id t ∈ JsMap.keys (pending d) ->
  Promise.outcome (promises (fire t d)) (timer_promise t)
    = Some (Promise.Rejected (Promise.ReadTimeout (timer_addr t)))
  /\ pending (fire t d) = JsMap.delete (timer_id t) (pending d)
  /\ timer_id t ∉ JsMap.keys (pending (fire t d)).
Proof.
  intros Hinv Ht Hk. unfold fire, read_timer.
  assert (Hh : JsMap.has (timer_id t) (pending d) = true)
    by now apply has_true_iff.
  rewrite Hh. cbn.
  apply entry_of_key in Hk. destruct Hk as [r Hr].
  split; [|split].
  - apply outcome_settle_new.
    rewrite <- (inv_timers d Hinv t r Ht Hr).
    apply (inv_unsettled d Hinv (timer_id t, r) Hr).
  - reflexivity.
  - apply not_key_after_delete. apply (inv_keys d Hinv).
Qed.





End Timeouts.

(** ** Loss of the connection *)

Section ConnectionLoss.

Import PliDriverComplete.

(** C8, as the drivers have it.  When the socket closes or fails, the
    handlers of both drivers leave every pending request as it was: the
    pending Map, the outcome of every promise and the armed timers are
    what they were before, so none is failed at that moment, and a request
    that was pending and unsettled is pending and unsettled afterwards.
    This holds of every state of the drivers. *)
Theorem close_leaves_requests_pending (d : PLIDriver)
  (basic : PliDriver.PLIDriver) :
  let closed := on_close (socket_readable d false) in
  let failed := on_error d in
  untouched d closed
  /\ untouched d failed
  /\ (forall e, e ∈ pending d ->
        Promise.outcome (promises d) (promise (snd e)) = None ->
        (e ∈ pending closed
         /\ Promise.outcome (promises closed) (promise (snd e)) = None)
        /\ (e ∈ pending failed
            /\ Promise.outcome (promises failed) (promise (snd e)) = None))
  /\ PliDriver.pendingReads (PliDriver.on_close basic)
     = PliDriver.pendingReads basic
  /\ PliDriver.promises (PliDriver.on_close basic) = PliDriver.promises basic
  /\ PliDriver.pendingReads (PliDriver.on_error basic)
     = PliDriver.pendingReads basic
  /\ PliDriver.promises (PliDriver.on_error basic) = PliDriver.promises basic.
Proof.
  intros closed failed.
  assert (Hc : untouched d closed).
  { unfold untouched, closed, on_close, _scheduleReconnect. cbn.
    destruct (reconnectTimer d); repeat split. }
  assert (Hf : untouched d failed) by (repeat split).
  split; [exact Hc|]. split; [exact Hf|]. split; [|repeat split].
  intros e He Hnone.
  destruct Hc as (Hcp & Hcl & _), Hf as (Hfp & Hfl & _).
  rewrite Hcp, Hcl, Hfp, Hfl. auto.
Qed.

Lemma close_leaves_requests_pending_witness :
  let closed := on_close (socket_readable two_reads false) in
  let failed := on_error two_reads in
  untouched two_reads closed
  /\ untouched two_reads failed
  /\ (forall e, e ∈ pending two_reads ->
        Promise.outcome (promises two_reads) (promise (snd e)) = None ->
        (e ∈ pending closed
         /\ Promise.outcome (promises closed) (promise (snd e)) = None)
        /\ (e ∈ pending failed
            /\ Promise.outcome (promises failed) (promise (snd e)) = None))
  /\ PliDriver.pendingReads (PliDriver.on_close (PliDriver.new 5000))
     = PliDriver.pendingReads (PliDriver.new 5000)
  /\ PliDriver.promises (PliDriver.on_close (PliDriver.new 5000))
     = PliDriver.promises (PliDriver.new 5000)
  /\ PliDriver.pendingReads (PliDriver.on_error (PliDriver.new 5000))
     = PliDriver.pendingReads (PliDriver.new 5000)
  /\ PliDriver.promises (PliDriver.on_error (PliDriver.new 5000))
     = PliDriver.promises (PliDriver.new 5000).
Proof.
  apply (close_leaves_requests_pending two_reads (PliDriver.new 5000)).
Defined.

(** C8, as stated, fails.  Two reads are outstanding when the socket
    closes; after the close handler has run both are still pending and
    neither promise has been settled. *)
Lemma connection_lost_counterexample :
  exists d,
    run two_reads [SocketCloses] = Some d
    /\ pending d = pending two_reads
    /\ length (pending d) = 2%nat
    /\ promises d = []
    /\ ~ (exists e, Promise.outcome (promises d) 0
                    = Some (Promise.Rejected e)).
Proof.
  eexists. split; [vm_compute; reflexivity|].
  split; [reflexivity|]. split; [reflexivity|]. split; [reflexivity|].
  intros [e H]. vm_compute in H. discriminate.
Qed.

End ConnectionLoss.

(** ** Reads in flight *)

Section InFlight.

Import PliDriverComplete.

(** C9, as the driver has it.  [read] does not wait for the request in
    flight: on an open socket, and with a request id not in use, it adds
    its entry behind those already pending and writes its command at once,
    so the number of pending requests grows by one whatever it was. *)
Theorem read_adds_entry (d : PLIDriver) (addr timeout now started : Z) :
  is_open d = true -> (addr, now) ∉ JsMap.keys (pending d) ->
  let p := fst (read d addr timeout now started) in
  let d' := snd (read d addr timeout now started) in
  pending d' = pending d ++ [((addr, now), mkPending p timeout started)]
  /\ length (pending d') = S (length (pending d))
  /\ exists w, socket d = Some (mkSocket true w)
               /\ socket d'
                  = Some (mkSocket true (w ++ [_buildCommand CMD_READ_RAM addr 0])).
Proof.
  intros Ho Hk p d'.
  destruct (read_open d addr timeout now started Ho Hk)
    as (Hp & Hpend & _ & _ & Hw).
  subst p d'. rewrite Hp, Hpend.
  split; [reflexivity|]. split; [|exact Hw].
  rewrite length_app. cbn. lia.
Qed.

Lemma read_adds_entry_witness :
  let p := fst (read waiting 52 100 1001 1001) in
  let d' := snd (read waiting 52 100 1001 1001) in
  pending d' = pending waiting ++ [((52, 1001), mkPending p 100 1001)]
  /\ length (pending d') = S (length (pending waiting))
  /\ exists w, socket waiting = Some (mkSocket true w)
               /\ socket d'
                  = Some (mkSocket true (w ++ [_buildCommand CMD_READ_RAM 52 0])).
Proof.
  apply (read_adds_entry waiting 52 100 1001 1001).
  - reflexivity.
  - cbn. intros Hin. apply list_elem_of_singleton in Hin. discriminate.
Defined.

(** C9, as stated, fails.  A second read submitted while the first is
    outstanding gives a second pending entry, and both commands have been
    written to the socket. *)
Lemma second_read_counterexample :
  length (pending waiting) = 1%nat
  /\ pending two_reads
     = [ ((50, 1000), mkPending 0 100 1000);
         ((52, 1001), mkPending 1 100 1001) ]
  /\ socket two_reads
     = Some (mkSocket true [[0x14; 50; 0; 0xD9]; [0x14; 52; 0; 0xDF]])
  /\ ~ (length (pending two_reads) <= 1)%nat.
Proof.
  split; [reflexivity|]. split; [reflexivity|]. split; [reflexivity|].
  change (length (pending two_reads)) with 2%nat. lia.
Qed.

(** The basic driver's [read] does the same. *)
Lemma basic_read_adds_entry (d : PliDriver.PLIDriver) (addr timeout id : Z) :
  PliDriver.isConnected d = true -> id ∉ JsMap.keys (PliDriver.pendingReads d) ->
  PliDriver.pendingReads (snd (PliDriver.read d addr timeout id))
  = PliDriver.pendingReads d
      ++ [(id, PliDriver.mkPending (PliDriver.nextPromise d) timeout)].
Proof.
  intros Hc Hk. unfold PliDriver.read. cbn. rewrite Hc. cbn.
  now rewrite (set_fresh _ _ _ Hk).
Qed.

End InFlight.

(** ** The decoding of register values *)

Section Decode.

Lemma all_bytes_complete (z : Z) : is_byte z -> In z all_bytes.
Proof.
  intros Hz. unfold all_bytes. apply in_map_iff.
  exists (Z.to_nat z). unfold is_byte in Hz. split; [lia|].
  apply in_seq. lia.
Qed.

(** A property checked on each of the 256 bytes holds of every byte. *)
Lemma byte_enumeration (P : Z -> Prop) :
  List.Forall P all_bytes -> forall z, is_byte z -> P z.
Proof.
  intros Hall z Hz. rewrite List.Forall_forall in Hall.
  apply Hall. now apply all_bytes_complete.
Qed.

(** The basic driver's [raw * (systemVoltage / 12)], with [systemVoltage]
    fixed at 12, is [raw] itself. *)
Lemma readBatteryVoltage_is_raw (raw : Z) :
  is_byte raw -> PliDriver.readBatteryVoltage raw = Js.Number raw.
Proof.
  revert raw.
  apply (byte_enumeration
           (fun raw => PliDriver.readBatteryVoltage raw = Js.Number raw)).
  unfold all_bytes. cbn [seq List.map].
  repeat (constructor; [reflexivity|]). constructor.
Qed.

Lemma getState_table (raw : Z) :
  is_byte raw ->
  snd (PliDriverComplete.getState raw) = SpecTable.controllerState raw.
Proof.
  revert raw.
  apply (byte_enumeration
           (fun raw => snd (PliDriverComplete.getState raw)
                       = SpecTable.controllerState raw)).
  unfold all_bytes. cbn [seq List.map].
  repeat (constructor; [reflexivity|]). constructor.
Qed.

Lemma readState_table (raw : Z) :
  is_byte raw -> raw <= 5 \/ 7 < raw ->
  snd (PliDriver.readState raw) = SpecTable.controllerState raw.
Proof.
  revert raw.
  apply (byte_enumeration
           (fun raw => raw <= 5 \/ 7 < raw ->
                       snd (PliDriver.readState raw)
                       = SpecTable.controllerState raw)).
  unfold all_bytes. cbn [seq List.map].
  repeat (constructor; [intros [H|H]; (reflexivity || (exfalso; lia))|]).
  constructor.
Qed.

(** C5, as the drivers have it.  For every raw byte and every
    configuration, the accessors agree with the table on the battery
    temperature, the state of charge, the solar voltage, the charge
    current (multiplier 0.1, 0.2 or 0.4 by model) and, in the complete
    driver, the controller state (codes 0..7 named, any other UNKNOWN).
    The battery voltage is [raw] whatever ratio is configured: the drivers
    take the system voltage to be 12 V, so the table's row holds for
    ratio 1. *)
Theorem decode_follows_table (cfg : SpecTable.SystemConfig) (raw : Z) :
  is_byte raw -> SpecTable.valid cfg ->
  (PliDriver.readBatteryVoltage raw = Js.Number raw
   /\ snd (PliDriverComplete.getBatteryVoltage raw) = raw
   /\ (SpecTable.systemVoltageRatio cfg = 1 ->
       PliDriver.readBatteryVoltage raw
       = Js.Number (SpecTable.batteryVoltage cfg raw)
       /\ snd (PliDriverComplete.getBatteryVoltage raw)
          = SpecTable.batteryVoltage cfg raw))
  /\ (PliDriver.readBatteryTemp raw = SpecTable.batteryTemperature raw
      /\ snd (PliDriverComplete.getBatteryTemp raw)
         = SpecTable.batteryTemperature raw)
  /\ (PliDriver.readSOC raw = SpecTable.stateOfCharge raw
      /\ snd (PliDriverComplete.getSOC raw) = SpecTable.stateOfCharge raw)
  /\ (PliDriver.readSolarVoltage raw = SpecTable.solarVoltage raw
      /\ snd (PliDriverComplete.getSolarVoltage raw)
         = SpecTable.solarVoltage raw)
  /\ (PliDriver.readChargeCurrent (SpecTable.name (SpecTable.model cfg)) raw
      = SpecTable.chargeCurrent cfg raw
      /\ snd (PliDriverComplete.getChargeCurrent (driver_for cfg) raw)
         = SpecTable.chargeCurrent cfg raw)
  /\ snd (PliDriverComplete.getState raw) = SpecTable.controllerState raw.
Proof.
  intros Hraw Hcfg.
  split; [|split; [|split; [|split; [|split]]]].
  - split; [now apply readBatteryVoltage_is_raw|].
    split; [reflexivity|].
    intros H1. unfold SpecTable.batteryVoltage. rewrite H1, Z.mul_1_r.
    split; [now apply readBatteryVoltage_is_raw|reflexivity].
  - split; reflexivity.
  - split; reflexivity.
  - split; reflexivity.
  - destruct cfg as [[] ratio]; split; reflexivity.
  - now apply getState_table.
Qed.

Lemma decode_follows_table_witness :
  let cfg := SpecTable.mkConfig SpecTable.PL40 2 in
  (PliDriver.readBatteryVoltage 21 = Js.Number 21
   /\ snd (PliDriverComplete.getBatteryVoltage 21) = 21
   /\ (SpecTable.systemVoltageRatio cfg = 1 ->
       PliDriver.readBatteryVoltage 21
       = Js.Number (SpecTable.batteryVoltage cfg 21)
       /\ snd (PliDriverComplete.getBatteryVoltage 21)
          = SpecTable.batteryVoltage cfg 21))
  /\ (PliDriver.readBatteryTemp 21 = SpecTable.batteryTemperature 21
      /\ snd (PliDriverComplete.getBatteryTemp 21)
         = SpecTable.batteryTemperature 21)
  /\ (PliDriver.readSOC 21 = SpecTable.stateOfCharge 21
      /\ snd (PliDriverComplete.getSOC 21) = SpecTable.stateOfCharge 21)
  /\ (PliDriver.readSolarVoltage 21 = SpecTable.solarVoltage 21
      /\ snd (PliDriverComplete.getSolarVoltage 21)
         = SpecTable.solarVoltage 21)
  /\ (PliDriver.readChargeCurrent (SpecTable.name (SpecTable.model cfg)) 21
      = SpecTable.chargeCurrent cfg 21
      /\ snd (PliDriverComplete.getChargeCurrent (driver_for cfg) 21)
         = SpecTable.chargeCurrent cfg 21)
  /\ snd (PliDriverComplete.getState 21) = SpecTable.controllerState 21.
Proof.
  intros cfg. apply (decode_follows_table cfg 21).
  - unfold is_byte. lia.
  - right. left. reflexivity.
Defined.

(** The scaling examples of the specification. *)
Example decode_battery_temp : PliDriver.readBatteryTemp 80 = -20.
Proof. reflexivity. Qed.

Example decode_solar_voltage : PliDriver.readSolarVoltage 37 = 18.5%float.
Proof. reflexivity. Qed.

Example decode_charge_current :
  PliDriver.readChargeCurrent "PL40" 21 = 4.2%float.
Proof. reflexivity. Qed.

(** C5, as stated, fails on the battery voltage.  For a 24 V system
    (ratio 2) and raw = 138 the table gives 276; both drivers give 138. *)
Lemma battery_voltage_counterexample :
  let cfg := SpecTable.mkConfig SpecTable.PL40 2 in
  SpecTable.valid cfg
  /\ SpecTable.batteryVoltage cfg 138 = 276
  /\ snd (PliDriverComplete.getBatteryVoltage 138) = 138
  /\ PliDriver.readBatteryVoltage 138 = Js.Number 138
  /\ snd (PliDriverComplete.getBatteryVoltage 138)
     <> SpecTable.batteryVoltage cfg 138
  /\ PliDriver.readBatteryVoltage 138
     <> Js.Number (SpecTable.batteryVoltage cfg 138).
Proof.
  intros cfg.
  split; [right; left; reflexivity|].
  split; [reflexivity|]. split; [reflexivity|]. split; [reflexivity|].
  split; [intros H; vm_compute in H; discriminate|].
  intros H.
  assert (Hb : PrimFloat.ltb (PliDriver.readBatteryVoltage 138)
                 (Js.Number (SpecTable.batteryVoltage cfg 138)) = true)
    by reflexivity.
  rewrite H in Hb. vm_compute in Hb. discriminate.
Qed.

(** The basic driver's state table stops at 5: codes 6 and 7, named by
    the complete driver, are UNKNOWN to it. *)
Lemma basic_state_table_stops_at_5 :
  PliDriver.readState 6 = (6, "UNKNOWN"%string)
  /\ PliDriver.readState 7 = (7, "UNKNOWN"%string)
  /\ PliDriverComplete.getState 6 = (6, "SHORT_EQ"%string)
  /\ PliDriverComplete.getState 7 = (7, "UNDEFINED"%string).
Proof. repeat split. Qed.

End Decode.

(** ** The circular buffers *)

Section Buffers.

Lemma ToUint8_bytes (l : list Z) :
  List.Forall is_byte l -> List.map Js.ToUint8 l = l.
Proof.
  induction 1 as [|x l Hx _ IH]; cbn; [reflexivity|].
  now rewrite ToUint8_byte, IH.
Qed.

Lemma insert_S_cons {A : Type} (a v : A) (l : list A) (n : nat) :
  <[S n := v]> (a :: l) = a :: <[n := v]> l.
Proof. reflexivity. Qed.

Lemma insert_0_cons {A : Type} (a v : A) (l : list A) :
  <[0%nat := v]> (a :: l) = v :: l.
Proof. reflexivity. Qed.

(** Reading [m] bytes from position [j] of the array, when that does not
    run past its end, returns the [m] entries from [j] on. *)
Lemma readByte_n_nowrap (m : nat) :
  forall (buf : list Z) (hd : Z) (j c : nat),
    (m <= c)%nat -> (j + m <= length buf)%nat ->
    fst (BufferJs.readByte_n m
           (BufferJs.mk buf hd (Z.of_nat j) (Z.of_nat (length buf))
                        (Z.of_nat c)))
    = List.map Js.Num (take m (drop j buf)).
Proof.
  induction m as [|m IH]; intros buf hd j c Hc Hj; [reflexivity|].
  cbn [BufferJs.readByte_n]. unfold BufferJs.readByte.
  cbn [BufferJs.count BufferJs.buffer BufferJs.tail BufferJs.head BufferJs.size].
  destruct (Z.eqb_spec (Z.of_nat c) 0) as [H0|_]; [lia|].
  destruct (lookup_lt_is_Some_2 buf j ltac:(lia)) as [x Hx].
  assert (Hget : Js.get buf (Z.of_nat j) = Js.Num x).
  { unfold Js.get. destruct (Z.ltb_spec (Z.of_nat j) 0); [lia|].
    now rewrite Nat2Z.id, Hx. }
  rewrite Hget. rewrite (drop_S buf x j Hx). cbn [take List.map].
  destruct m as [|m'].
  - reflexivity.
  - assert (Hrem : Z.rem (Z.of_nat j + 1) (Z.of_nat (length buf))
                   = Z.of_nat (S j)).
    { rewrite Z.rem_small by lia. lia. }
    rewrite Hrem.
    replace (Z.of_nat c - 1) with (Z.of_nat (c - 1)) by lia.
    specialize (IH buf hd (S j) (c - 1)%nat ltac:(lia) ltac:(lia)).
    destruct (BufferJs.readByte_n (S m') _) as [vs b2].
    cbn [fst] in IH |- *. now rewrite IH.
Qed.

(** The state of the drivers' buffer after writing [l] to a new one: the
    bytes sit one slot past where [readByte] starts. *)
Lemma write_new (l : list Z) :
  (length l < 1024)%nat ->
  BufferJs.write (BufferJs.new 1024) l
  = BufferJs.mk
      (0 :: List.map Js.ToUint8 l ++ replicate (1023 - length l) 0)
      (Z.of_nat (length l)) 0 1024 (Z.of_nat (length l)).
Proof.
  induction l as [|x l IH] using rev_ind; intros Hlen.
  - reflexivity.
  - rewrite length_app in Hlen. cbn [length] in Hlen.
    unfold BufferJs.write in *. rewrite fold_left_app. cbn [fold_left].
    rewrite IH by lia. clear IH.
    unfold BufferJs.writeByte.
    cbn [BufferJs.count BufferJs.buffer BufferJs.tail BufferJs.head BufferJs.size].
    rewrite Z.rem_small by lia.
    destruct (Z.eqb_spec (Z.of_nat (length l) + 1) 0) as [H0|_]; [lia|].
    cbn [BufferJs.count BufferJs.buffer BufferJs.tail BufferJs.head BufferJs.size].
    destruct (Z.ltb_spec (Z.of_nat (length l)) 1024) as [_|H0]; [|lia].
    rewrite length_app. cbn [length].
    f_equal; try lia.
    unfold Js.put.
    destruct (Z.ltb_spec (Z.of_nat (length l) + 1) 0); [lia|].
    replace (Z.to_nat (Z.of_nat (length l) + 1)) with (S (length l)) by lia.
    rewrite insert_S_cons. f_equal.
    rewrite insert_app_r_alt by (rewrite length_map; lia).
    rewrite length_map, Nat.sub_diag.
    replace (1023 - length l)%nat with (S (1023 - (length l + 1)))%nat by lia.
    cbn [replicate]. rewrite insert_0_cons.
    rewrite List.map_app. cbn [List.map]. rewrite <- app_assoc. reflexivity.
Qed.

(** The drivers' buffer hands back, for the bytes written to a new buffer,
    the stale zero of slot 0 followed by all the bytes but the last. *)
Lemma readByte_n_lag (l : list Z) :
  List.Forall is_byte l -> (length l < 1024)%nat ->
  fst (BufferJs.readByte_n (length l) (BufferJs.write (BufferJs.new 1024) l))
  = List.map Js.Num (take (length l) (0 :: l)).
Proof.
  intros Hb Hlen. rewrite write_new by exact Hlen.
  rewrite (ToUint8_bytes l Hb).
  set (buf := 0 :: l ++ replicate (1023 - length l) 0).
  assert (Hbuf : length buf = 1024%nat).
  { subst buf. cbn [length]. rewrite length_app, length_replicate. lia. }
  change 1024 with (Z.of_nat 1024). rewrite <- Hbuf.
  change 0 with (Z.of_nat 0) at 1.
  rewrite readByte_n_nowrap by lia.
  rewrite drop_0. subst buf.
  change (0 :: l ++ replicate (1023 - length l) 0)
    with ((0 :: l) ++ replicate (1023 - length l) 0).
  rewrite take_app_le by (cbn [length]; lia). reflexivity.
Qed.

(** The server's [read] is the drivers' [readByte]. *)
Lemma server_reads_same (n : nat) (b : TcpServer.CircularBuffer) :
  fst (TcpServer.read_n n b) = fst (BufferJs.readByte_n n (as_driver_buffer b)).
Proof.
  revert b. induction n as [|n IH]; intros b; [reflexivity|].
  cbn [TcpServer.read_n BufferJs.readByte_n].
  unfold TcpServer.read, BufferJs.readByte.
  cbn [as_driver_buffer BufferJs.count BufferJs.buffer BufferJs.tail
       BufferJs.head BufferJs.size].
  destruct (TcpServer.count b =? 0).
  - specialize (IH b).
    destruct (TcpServer.read_n n b) as [vs b2].
    destruct (BufferJs.readByte_n n (as_driver_buffer b)) as [ws c2].
    cbn in IH |- *. now rewrite IH.
  - match goal with
    | |- context [TcpServer.read_n n ?b1] => specialize (IH b1)
    end.
    destruct (TcpServer.read_n n _) as [vs b2].
    unfold as_driver_buffer in IH. cbn in IH.
    destruct (BufferJs.readByte_n n _) as [ws c2].
    cbn in IH |- *. now rewrite IH.
Qed.

(** The state of the server's buffer after writing [l] to a new one. *)
Lemma server_write_new (l : list Z) :
  (length l <= 1024)%nat ->
  TcpServer.write (TcpServer.new 1024) l
  = TcpServer.mk
      (List.map Js.ToUint8 l ++ replicate (1024 - length l) 0)
      (Z.rem (Z.of_nat (length l)) 1024) 0 1024 (Z.of_nat (length l)).
Proof.
  induction l as [|x l IH] using rev_ind; intros Hlen.
  - reflexivity.
  - rewrite length_app in Hlen. cbn [length] in Hlen.
    unfold TcpServer.write in *. rewrite fold_left_app. cbn [fold_left].
    rewrite IH by lia. clear IH.
    unfold TcpServer.write_step.
    cbn [TcpServer.count TcpServer.buffer TcpServer.tail TcpServer.head
         TcpServer.size].
    rewrite (Z.rem_small (Z.of_nat (length l))) by lia.
    destruct (Z.ltb_spec (Z.of_nat (length l)) 1024) as [_|H0]; [|lia].
    rewrite length_app. cbn [length].
    f_equal; try (f_equal; lia).
    unfold Js.put.
    destruct (Z.ltb_spec (Z.of_nat (length l)) 0); [lia|].
    rewrite Nat2Z.id.
    rewrite insert_app_r_alt by (rewrite length_map; lia).
    rewrite length_map, Nat.sub_diag.
    replace (1024 - length l)%nat with (S (1024 - (length l + 1)))%nat by lia.
    cbn [replicate]. rewrite insert_0_cons.
    rewrite List.map_app. cbn [List.map]. rewrite <- app_assoc. reflexivity.
Qed.

(** The server's buffer is a queue: up to its capacity, the bytes written
    to a new buffer are read back in order. *)
Lemma server_round_trip (l : list Z) :
  List.Forall is_byte l -> (length l <= 1024)%nat ->
  fst (TcpServer.read_n (length l) (TcpServer.write (TcpServer.new 1024) l))
  = List.map Js.Num l.
Proof.
  intros Hb Hlen. rewrite server_reads_same, server_write_new by exact Hlen.
  rewrite (ToUint8_bytes l Hb). unfold as_driver_buffer.
  cbn [TcpServer.count TcpServer.buffer TcpServer.tail TcpServer.head
       TcpServer.size].
  set (buf := l ++ replicate (1024 - length l) 0).
  assert (Hbuf : length buf = 1024%nat).
  { subst buf. rewrite length_app, length_replicate. lia. }
  change 1024 with (Z.of_nat 1024) at 2. rewrite <- Hbuf.
  change 0 with (Z.of_nat 0) at 1.
  rewrite readByte_n_nowrap by lia.
  rewrite drop_0. subst buf.
  rewrite take_app_le by lia. now rewrite firstn_all.
Qed.

(** C10 fails on the drivers' buffer.  Written to a new buffer of capacity
    1024, the two bytes 0xC8, 138 are read back as 0, 0xC8: the first byte
    read is the zero the buffer was allocated with, not the first byte
    written, and the last byte written is not read back. *)
Theorem driver_buffer_reads_stale_byte :
  fst (BufferJs.readByte_n 2 (BufferJs.write (BufferJs.new 1024) [0xC8; 138]))
  = [Js.Num 0; Js.Num 0xC8]
  /\ fst (BufferJs.readByte_n 2
            (BufferJs.write (BufferJs.new 1024) [0xC8; 138]))
     <> [Js.Num 0xC8; Js.Num 138]
  /\ fst (BufferJs.readByte (BufferJs.writeByte (BufferJs.new 1024) 0xC8))
     = Js.Num 0
  /\ fst (TcpServer.read_n 2 (TcpServer.write (TcpServer.new 1024) [0xC8; 138]))
     = [Js.Num 0xC8; Js.Num 138].
Proof.
  split; [reflexivity|]. split; [|split; reflexivity].
  intros H. vm_compute in H. discriminate.
Qed.

End Buffers.

(** ** The decoder of the basic driver *)

Section BasicDecoder.

Variable buffer_read :
  BufferJs.CircularBuffer -> Js.value * BufferJs.CircularBuffer.

(** With a complete frame at the head, the basic driver too resolves the
    first pending read and removes that entry. *)
Lemma basic_resolves_first (fuel : nat) (d : PliDriver.PLIDriver) (id : Z)
  (request : PliDriver.PendingRead) (rest : JsMap.t Z PliDriver.PendingRead)
  (value : Js.value) (b1 b2 : BufferJs.CircularBuffer) :
  buffer_read (PliDriver.buffer d) = (Js.Num 0xC8, b1) ->
  buffer_read b1 = (value, b2) ->
  value <> Js.Null ->
  PliDriver.pendingReads d = (id, request) :: rest ->
  exists d',
    PliDriver.processLoop buffer_read (S fuel) d = Some d'
    /\ PliDriver.pendingReads d' = rest
    /\ PliDriver.promises d'
       = Promise.settle (PliDriver.promises d) (PliDriver.promise request)
           (Promise.Resolved value)
    /\ PliDriver.buffer d' = b2.
Proof.
  intros E1 E2 Hv Hp. cbn [PliDriver.processLoop]. rewrite E1.
  cbn [Js.is_null Js.strict_eq_num]. change (200 =? 200) with true.
  cbn match. rewrite E2.
  assert (Hnn : negb (Js.is_null value) = true).
  { destruct value; [contradiction|reflexivity|reflexivity]. }
  rewrite Hnn. cbn [PliDriver.pendingReads PliDriver.set_buffer]. rewrite Hp.
  eexists. split; [reflexivity|]. cbn.
  destruct (decide (id = id)); [|contradiction]. repeat split.
Qed.

(** With the prefix alone at the head, the basic driver too consumes it
    and stops, settling nothing. *)
Lemma basic_lone_prefix_is_consumed (fuel : nat) (d : PliDriver.PLIDriver)
  (b1 : BufferJs.CircularBuffer) :
  buffer_read (PliDriver.buffer d) = (Js.Num 0xC8, b1) ->
  buffer_read b1 = (Js.Null, b1) ->
  PliDriver.processLoop buffer_read (S (S fuel)) d
  = Some (PliDriver.set_buffer d b1).
Proof.
  intros E1 E2. cbn [PliDriver.processLoop]. rewrite E1.
  cbn [Js.is_null Js.strict_eq_num]. change (200 =? 200) with true.
  cbn match. rewrite E2. cbn [Js.is_null negb].
  cbn [PliDriver.buffer PliDriver.set_buffer]. rewrite E2.
  reflexivity.
Qed.

End BasicDecoder.

(** ** Correlation on reachable states *)

Section ReachableCorrelation.

Import PliDriverComplete.




End ReachableCorrelation.

(** ** A read that times out *)

Section ReadThenTimeout.

Import PliDriverComplete.

(** [read(addr, timeout)] on an open socket arms the timer of its own
    request; if that timer fires before anything has resolved the request,
    the promise [read] returned is rejected with the timeout failure for
    [addr] and the pending Map is as it was before the read. *)
Lemma read_then_timeout (d : PLIDriver) (addr timeout now started : Z) :
  reachable d -> is_open d = true ->
  fresh d (Read addr timeout now started) ->
  let p := fst (read d addr timeout now started) in
  let d1 := snd (read d addr timeout now started) in
  let t := mkTimer (addr, now) p addr timeout in
  t ∈ timers d1
  /\ Promise.outcome (promises d1) p = None
  /\ Promise.outcome (promises (fire t d1)) p
     = Some (Promise.Rejected (Promise.ReadTimeout addr))
  /\ pending (fire t d1) = pending d.
Proof.
  intros Hr Ho Hf p d1 t.
  pose proof (reachable_invariant d Hr) as Hinv.
  pose proof (invariant_read d addr timeout now started Hinv Hf) as Hinv1.
  destruct Hf as [Hk Ht].
  destruct (read_open d addr timeout now started Ho Hk)
    as (Hp & Hpend & Htim & Hlog & _).
  fold d1 in Hinv1, Hpend, Htim, Hlog. fold p in Hp.
  assert (Hin : t ∈ timers d1).
  { rewrite Htim. apply elem_of_app. right. subst t. rewrite Hp.
    apply list_elem_of_here. }
  assert (Hent : ((addr, now), mkPending p timeout started) ∈ pending d1).
  { rewrite Hpend. apply elem_of_app. right. rewrite Hp.
    apply list_elem_of_here. }
  assert (Hkey : timer_id t ∈ JsMap.keys (pending d1)).
  { apply (key_of_entry _ _ Hent). }
  destruct (fire_pending d1 t Hinv1 Hin Hkey) as (Hout & Hdel & _).
  split; [exact Hin|]. split; [|split].
  - apply (inv_unsettled d1 Hinv1 _ Hent).
  - exact Hout.
  - rewrite Hdel, Hpend. cbn [timer_id t].
    clear -Hk. induction (pending d) as [|[k r] m IH]; cbn.
    + case_decide; [reflexivity|contradiction].
    + cbn in Hk. apply not_elem_of_cons in Hk. destruct Hk as [Hne Hk].
      case_decide; [contradiction|].
      now rewrite IH.
Qed.

End ReadThenTimeout.

(** ** The specification's correlation example, through the drivers' buffer *)

Section CorrelationExample.

Import PliDriverComplete.

(** [read(50)] followed by the delivery of exactly [0xC8, 138]: because
    the buffer hands over the stale zero first and holds the last byte
    back, the decoder sees [0, 0xC8], and the read stays pending.  Once a
    further byte has been delivered behind the frame, the read is resolved
    with 138. *)
Lemma frame_delivered_alone_is_held_back :
  (exists d,
     run connected [Read 50 100 1000 1000; Data [0xC8; 138]] = Some d
     /\ pending d = pending waiting
     /\ Promise.outcome (promises d) 0 = None)
  /\ (exists d,
        run connected [Read 50 100 1000 1000; Data [0xC8; 138; 0]] = Some d
        /\ pending d = []
        /\ Promise.outcome (promises d) 0
           = Some (Promise.Resolved (Js.Num 138))).
Proof.
  split; eexists; (split; [vm_compute; reflexivity|]); split; reflexivity.
Qed.

End CorrelationExample.

(* ===================================================================== *)
(** * Further properties of the code                                       *)
(* ===================================================================== *)

(** ** Indices of a ring *)

Section Rings.

Lemma rem_index_range (t i s : Z) :
  0 <= t -> 0 <= i -> 0 < s -> 0 <= Z.rem (t + i) s < s.
Proof.
  intros Ht Hi Hs. rewrite Z.rem_mod_nonneg by lia.
  apply Z.mod_pos_bound. lia.
Qed.

Lemma rem_index_inj (t i j s : Z) :
  0 <= t -> 0 <= i < s -> 0 <= j < s ->
  Z.rem (t + i) s = Z.rem (t + j) s -> i = j.
Proof.
  intros Ht Hi Hj. rewrite !Z.rem_mod_nonneg by lia. intros Heq.
  assert (H : (i - j) mod s = 0).
  { replace (i - j) with ((t + i) - (t + j)) by lia.
    rewrite Zminus_mod, Heq, Z.sub_diag. apply Z.mod_0_l. lia. }
  destruct (Z.le_gt_cases j i).
  - rewrite Z.mod_small in H by lia. lia.
  - assert (H' : (j - i) mod s = 0).
    { replace (j - i) with ((t + j) - (t + i)) by lia.
      rewrite Zminus_mod, Heq, Z.sub_diag. apply Z.mod_0_l. lia. }
    rewrite Z.mod_small in H' by lia. lia.
Qed.

Lemma rem_index_add (a i s : Z) :
  0 <= a -> 0 <= i -> 0 < s -> Z.rem (Z.rem a s + i) s = Z.rem (a + i) s.
Proof.
  intros Ha Hi Hs.
  assert (0 <= Z.rem a s < s).
  { rewrite Z.rem_mod_nonneg by lia. apply Z.mod_pos_bound. lia. }
  rewrite (Z.rem_mod_nonneg (Z.rem a s + i)) by lia.
  rewrite (Z.rem_mod_nonneg a) by lia.
  rewrite (Z.rem_mod_nonneg (a + i)) by lia.
  now rewrite Zplus_mod_idemp_l.
Qed.

Lemma rem_index_succ (t i s : Z) :
  0 <= t -> 0 <= i -> 0 < s ->
  Z.rem (Z.rem (t + 1) s + i) s = Z.rem (t + (i + 1)) s.
Proof.
  intros Ht Hi Hs.
  pose proof (rem_index_range t 1 s Ht ltac:(lia) Hs).
  rewrite (Z.rem_mod_nonneg (Z.rem (t + 1) s + i)) by lia.
  rewrite (Z.rem_mod_nonneg (t + 1)) by lia.
  rewrite (Z.rem_mod_nonneg (t + (i + 1))) by lia.
  rewrite Zplus_mod_idemp_l. f_equal. lia.
Qed.

Lemma rem_index_wrap (t s : Z) : 0 <= t < s -> Z.rem (t + s) s = t.
Proof.
  intros Ht. rewrite Z.rem_mod_nonneg by lia.
  rewrite <- (Z.mul_1_l s) at 1. rewrite Z.mod_add by lia.
  apply Z.mod_small. lia.
Qed.

Lemma rem_index_0 (t s : Z) : 0 <= t < s -> Z.rem (t + 0) s = t.
Proof. intros Ht. rewrite Z.add_0_r. apply Z.rem_small. lia. Qed.

(** Reading the head of a window. *)
Lemma ring_window_head (buf : list Z) (t x : Z) (q : list Z) :
  0 <= t < Z.of_nat (length buf) ->
  ring_window buf t (x :: q) -> Js.get buf t = Js.Num x.
Proof.
  intros Ht Hw. specialize (Hw 0%nat x eq_refl).
  change (Z.of_nat 0) with 0 in Hw. rewrite rem_index_0 in Hw by lia.
  unfold Js.get. destruct (Z.ltb_spec t 0); [lia|]. now rewrite Hw.
Qed.

(** Dropping the head of a window. *)
Lemma ring_window_tail (buf : list Z) (t x : Z) (q : list Z) :
  0 <= t < Z.of_nat (length buf) ->
  ring_window buf t (x :: q) ->
  ring_window buf (Z.rem (t + 1) (Z.of_nat (length buf))) q.
Proof.
  intros Ht Hw i y Hy.
  rewrite rem_index_succ by lia.
  specialize (Hw (S i) y Hy).
  now replace (Z.of_nat i + 1) with (Z.of_nat (S i)) by lia.
Qed.

(** Storing into a slot past the window extends it. *)
Lemma ring_window_snoc (buf : list Z) (t x : Z) (q : list Z) :
  0 <= t < Z.of_nat (length buf) ->
  Z.of_nat (length q) < Z.of_nat (length buf) ->
  ring_window buf t q ->
  ring_window
    (Js.put buf (Z.rem (t + Z.of_nat (length q)) (Z.of_nat (length buf))) x)
    t (q ++ [Js.ToUint8 x]).
Proof.
  intros Ht Hq Hw i y Hy.
  set (s := Z.of_nat (length buf)) in *.
  pose proof (rem_index_range t (Z.of_nat (length q)) s ltac:(lia) ltac:(lia) ltac:(lia)) as Hr.
  unfold Js.put.
  destruct (Z.ltb_spec (Z.rem (t + Z.of_nat (length q)) s) 0); [lia|].
  rewrite length_insert. fold s.
  apply lookup_app_Some in Hy. destruct Hy as [Hy|[Hlen Hy]].
  - assert (Hi : (i < length q)%nat) by (eapply lookup_lt_Some; eauto).
    rewrite list_lookup_insert_ne; [now apply Hw|].
    intros Heq. apply Z2Nat.inj in Heq; try lia.
    + apply rem_index_inj in Heq; lia.
    + apply rem_index_range; lia.
  - destruct (i - length q)%nat eqn:E; [|destruct n; discriminate].
    cbn in Hy. injection Hy as <-.
    assert (i = length q) as -> by lia.
    apply list_lookup_insert_eq. subst s. lia.
Qed.

End Rings.

(** ** The drivers' buffer as a delayed queue *)

Section DelayedQueue.

Lemma lagging_new (cap : nat) :
  (0 < cap)%nat -> lagging (BufferJs.new (Z.of_nat cap)) [0].
Proof.
  intros Hcap. unfold BufferJs.new, Js.Buffer_alloc. rewrite Nat2Z.id.
  split; cbn [BufferJs.size BufferJs.buffer BufferJs.tail BufferJs.count
              BufferJs.head length]; rewrite ?length_replicate; try lia.
  - rewrite Z.add_0_l. symmetry. apply Z.rem_small. lia.
  - intros i x Hx. destruct i; [|discriminate]. injection Hx as <-.
    rewrite length_replicate. change (Z.of_nat 0) with 0.
    rewrite Z.add_0_l, Z.rem_small by lia.
    apply lookup_replicate_2. cbn. lia.
Qed.

Lemma lagging_writeByte (b : BufferJs.CircularBuffer) (q : list Z) (x : Z) :
  lagging b q -> Z.of_nat (length q) < BufferJs.size b ->
  lagging (BufferJs.writeByte b x) (q ++ [Js.ToUint8 x]).
Proof.
  intros [Hs Ht Hc Hne Hcap Hh Hw] Hroom.
  unfold BufferJs.writeByte.
  assert (Hnext : Z.rem (BufferJs.head b + 1) (BufferJs.size b)
                  = Z.rem (BufferJs.tail b + Z.of_nat (length q)) (BufferJs.size b)).
  { rewrite Hh, rem_index_add by lia. f_equal. lia. }
  rewrite Hnext.
  destruct (Z.eqb_spec
              (Z.rem (BufferJs.tail b + Z.of_nat (length q)) (BufferJs.size b))
              (BufferJs.tail b)) as [Heq|Hneq].
  { exfalso. rewrite <- (rem_index_0 (BufferJs.tail b) (BufferJs.size b)) in Heq at 2 by lia.
    apply rem_index_inj in Heq; lia. }
  cbn [BufferJs.size BufferJs.buffer BufferJs.tail BufferJs.count BufferJs.head].
  destruct (Z.ltb_spec (BufferJs.count b) (BufferJs.size b)) as [_|Hge]; [|lia].
  split; cbn [BufferJs.size BufferJs.buffer BufferJs.tail BufferJs.count
              BufferJs.head].
  - unfold Js.put. destruct (_ <? 0); [exact Hs|]. now rewrite length_insert.
  - exact Ht.
  - rewrite length_app. cbn [length]. lia.
  - rewrite length_app. cbn [length]. lia.
  - rewrite length_app. cbn [length]. lia.
  - f_equal. lia.
  - rewrite Hs. apply ring_window_snoc; [lia|lia|exact Hw].
Qed.

Lemma lagging_write (data : list Z) :
  forall (b : BufferJs.CircularBuffer) (q : list Z),
    lagging b q ->
    Z.of_nat (length q + length data) <= BufferJs.size b ->
    lagging (BufferJs.write b data) (q ++ List.map Js.ToUint8 data).
Proof.
  unfold BufferJs.write.
  induction data as [|x data IH]; intros b q Hl Hroom; cbn [fold_left List.map].
  - now rewrite app_nil_r.
  - cbn [length] in Hroom.
    replace (q ++ Js.ToUint8 x :: List.map Js.ToUint8 data)
      with ((q ++ [Js.ToUint8 x]) ++ List.map Js.ToUint8 data)
      by (now rewrite <- app_assoc).
    assert (Hsize : BufferJs.size (BufferJs.writeByte b x) = BufferJs.size b).
    { unfold BufferJs.writeByte. cbn.
      repeat match goal with |- context [if ?c then _ else _] => destruct c end;
        reflexivity. }
    apply IH.
    + apply lagging_writeByte; [exact Hl|lia].
    + rewrite Hsize, length_app. cbn [length]. lia.
Qed.

Lemma lagging_readByte (b : BufferJs.CircularBuffer) (q : list Z) :
  lagging b q ->
  fst (BufferJs.readByte b) = fst (delayed_read q)
  /\ lagging (snd (BufferJs.readByte b)) (snd (delayed_read q)).
Proof.
  intros Hl. pose proof Hl as [Hs Ht Hc Hne Hcap Hh Hw].
  unfold BufferJs.readByte, delayed_read.
  destruct q as [|x [|y q]]; cbn [length] in *; [lia| |].
  - destruct (Z.eqb_spec (BufferJs.count b) 0); [|lia]. split; [reflexivity|exact Hl].
  - destruct (Z.eqb_spec (BufferJs.count b) 0); [lia|]. cbn [fst snd].
    split.
    + apply (ring_window_head _ _ _ (y :: q)); [lia|exact Hw].
    + split; cbn [BufferJs.size BufferJs.buffer BufferJs.tail BufferJs.count
                  BufferJs.head length].
      * exact Hs.
      * apply rem_index_range; lia.
      * lia.
      * lia.
      * lia.
      * rewrite Hh, rem_index_succ by lia.
        rewrite (Z.rem_mod_nonneg (_ + _)) by lia.
        rewrite (Z.rem_mod_nonneg (_ + _)) by lia. f_equal. lia.
      * rewrite Hs. apply (ring_window_tail _ _ x); [lia|exact Hw].
Qed.

Lemma write_size (b : BufferJs.CircularBuffer) (data : list Z) :
  BufferJs.size (BufferJs.write b data) = BufferJs.size b.
Proof.
  unfold BufferJs.write. revert b.
  induction data as [|x data IH]; intros b; cbn [fold_left]; [reflexivity|].
  rewrite IH. unfold BufferJs.writeByte. cbn.
  repeat match goal with |- context [if ?c then _ else _] => destruct c end;
    reflexivity.
Qed.

Lemma driver_buffer_run_delayed (ops : list BufferOp) :
  forall (b : BufferJs.CircularBuffer) (q : list Z),
    lagging b q ->
    delayed_queue_fits (Z.to_nat (BufferJs.size b)) q ops ->
    fst (driver_buffer_run b ops) = fst (delayed_queue_run q ops)
    /\ lagging (snd (driver_buffer_run b ops)) (snd (delayed_queue_run q ops)).
Proof.
  induction ops as [|[data|] ops IH]; intros b q Hl Hfit;
    cbn [driver_buffer_run delayed_queue_run delayed_queue_fits] in *.
  - auto.
  - destruct Hfit as [Hroom Hfit].
    assert (Hs : 0 <= BufferJs.size b) by (rewrite (lag_size b q Hl); lia).
    apply IH.
    + apply lagging_write; [exact Hl|lia].
    + now rewrite write_size.
  - destruct (lagging_readByte b q Hl) as [Hv Hl'].
    assert (Hsz : BufferJs.size (snd (BufferJs.readByte b)) = BufferJs.size b).
    { unfold BufferJs.readByte. destruct (BufferJs.count b =? 0); reflexivity. }
    destruct (BufferJs.readByte b) as [v b1].
    destruct (delayed_read q) as [w q1]. cbn [fst snd] in *.
    rewrite <- Hsz in Hfit.
    destruct (IH b1 q1 Hl' Hfit) as [Hvs Hl2].
    destruct (driver_buffer_run b1 ops) as [vs b2].
    destruct (delayed_queue_run q1 ops) as [ws q2]. cbn [fst snd] in *.
    split; [now rewrite Hv, Hvs|exact Hl2].
Qed.

(** X1.  A new buffer of the drivers' class of capacity [cap], used by any
    interleaving of writes and reads in which the bytes not yet read
    number at most [cap - 1] after every write (the byte held back takes
    one slot), answers every read as a queue that starts with one stale
    zero and always holds its newest byte back: bytes come out in the
    order written, each one only after a later byte has been written
    behind it.  (With [cap] bytes unread the buffer is no such queue any
    more: see [driver_buffer_overflow].) *)
Theorem driver_buffer_is_delayed_queue (cap : nat) (ops : list BufferOp) :
  (0 < cap)%nat -> delayed_queue_fits cap [0] ops ->
  fst (driver_buffer_run (BufferJs.new (Z.of_nat cap)) ops)
  = fst (delayed_queue_run [0] ops).
Proof.
  intros Hcap Hfit.
  apply driver_buffer_run_delayed.
  - now apply lagging_new.
  - cbn [BufferJs.new BufferJs.size]. now rewrite Nat2Z.id.
Qed.

Lemma driver_buffer_is_delayed_queue_witness :
  fst (driver_buffer_run (BufferJs.new (Z.of_nat 1024))
         [OpWrite [0xC8; 138]; OpRead; OpRead; OpRead; OpWrite [7]; OpRead])
  = [Js.Num 0; Js.Num 0xC8; Js.Null; Js.Num 138].
Proof.
  apply (driver_buffer_is_delayed_queue 1024
           [OpWrite [0xC8; 138]; OpRead; OpRead; OpRead; OpWrite [7]; OpRead]).
  - lia.
  - cbn. lia.
Defined.

End DelayedQueue.

(** ** Overflow and [readUntil] on the drivers' buffer *)

Section Overflow.

(** Reading as many bytes as a window holds returns the window. *)
Lemma readByte_n_window (q : list Z) :
  forall (b : BufferJs.CircularBuffer),
    BufferJs.size b = Z.of_nat (length (BufferJs.buffer b)) ->
    0 <= BufferJs.tail b < BufferJs.size b ->
    Z.of_nat (length q) <= BufferJs.count b ->
    ring_window (BufferJs.buffer b) (BufferJs.tail b) q ->
    fst (BufferJs.readByte_n (length q) b) = List.map Js.Num q.
Proof.
  induction q as [|x q IH]; intros b Hs Ht Hc Hw; [reflexivity|].
  cbn [length BufferJs.readByte_n List.map]. cbn [length] in Hc.
  unfold BufferJs.readByte.
  destruct (Z.eqb_spec (BufferJs.count b) 0); [lia|].
  rewrite (ring_window_head _ _ x q) by (try exact Hw; lia).
  match goal with
  | |- context [BufferJs.readByte_n _ ?b1] => specialize (IH b1)
  end.
  cbn [BufferJs.size BufferJs.buffer BufferJs.tail BufferJs.count] in IH.
  destruct (BufferJs.readByte_n (length q) _) as [vs b2].
  cbn [fst] in *. f_equal. apply IH; try lia.
  - apply rem_index_range; lia.
  - rewrite Hs. apply (ring_window_tail _ _ x); [lia|exact Hw].
Qed.

(** Writing to a full buffer: the slot at [head], which holds the newest
    byte, is overwritten, and the tail moves on, which puts the oldest
    byte at the back. *)
Lemma overflow_write (b : BufferJs.CircularBuffer) (q0 qlast x : Z)
  (mid : list Z) :
  lagging b (q0 :: mid ++ [qlast]) ->
  Z.of_nat (length (q0 :: mid ++ [qlast])) = BufferJs.size b ->
  fst (BufferJs.readByte_n (length (mid ++ [Js.ToUint8 x; q0]))
                           (BufferJs.writeByte b x))
  = List.map Js.Num (mid ++ [Js.ToUint8 x; q0]).
Proof.
  intros [Hs Ht Hc Hne Hcap Hh Hw] Hfull.
  cbn [length] in Hc, Hne, Hcap, Hfull.
  rewrite length_app in Hc, Hne, Hcap, Hfull.
  cbn [length] in Hc, Hne, Hcap, Hfull.
  set (s := BufferJs.size b) in *.
  assert (Hhead : BufferJs.head b
                  = Z.rem (BufferJs.tail b + Z.of_nat (S (length mid))) s).
  { rewrite Hh. f_equal. lia. }
  assert (Hnext : Z.rem (BufferJs.head b + 1) s = BufferJs.tail b).
  { rewrite Hh, rem_index_add by lia.
    replace (BufferJs.tail b + BufferJs.count b + 1) with (BufferJs.tail b + s) by lia.
    apply rem_index_wrap. lia. }
  unfold BufferJs.writeByte. fold s. rewrite Hnext, Z.eqb_refl.
  cbn [BufferJs.size BufferJs.buffer BufferJs.tail BufferJs.count BufferJs.head].
  fold s. destruct (Z.ltb_spec (BufferJs.count b) s) as [_|?]; [|lia].
  apply readByte_n_window;
    cbn [BufferJs.size BufferJs.buffer BufferJs.tail BufferJs.count BufferJs.head].
  - unfold Js.put. destruct (_ <? 0); [exact Hs|]. now rewrite length_insert.
  - apply rem_index_range; lia.
  - rewrite length_app. cbn [length]. lia.
  - assert (Hlen : length (Js.put (BufferJs.buffer b) (BufferJs.head b) x)
                   = length (BufferJs.buffer b)).
    { unfold Js.put. destruct (_ <? 0); [reflexivity|]. now rewrite length_insert. }
    intros i y Hy. rewrite Hlen, <- Hs. fold s.
    rewrite rem_index_succ by lia.
    assert (Hi : (i < length mid + 2)%nat).
    { apply lookup_lt_Some in Hy. rewrite length_app in Hy. cbn in Hy. lia. }
    pose proof (rem_index_range (BufferJs.tail b) (Z.of_nat i + 1) s
                  ltac:(lia) ltac:(lia) ltac:(lia)) as Hr.
    pose proof (rem_index_range (BufferJs.tail b) (Z.of_nat (S (length mid))) s
                  ltac:(lia) ltac:(lia) ltac:(lia)) as Hrh.
    unfold Js.put. rewrite Hhead.
    destruct (Z.ltb_spec (Z.rem (BufferJs.tail b + Z.of_nat (S (length mid))) s) 0);
      [lia|].
    apply lookup_app_Some in Hy. destruct Hy as [Hy|[Hge Hy]].
    + (* a middle element: its slot is untouched *)
      assert (Him : (i < length mid)%nat) by (eapply lookup_lt_Some; eauto).
      rewrite list_lookup_insert_ne.
      * specialize (Hw (S i) y). rewrite <- Hs in Hw. fold s in Hw.
        replace (Z.of_nat i + 1) with (Z.of_nat (S i)) by lia.
        apply Hw. cbn. apply lookup_app_Some. now left.
      * intros Heq. apply Z2Nat.inj in Heq; try lia.
        apply rem_index_inj in Heq; lia.
    + destruct (i - length mid)%nat as [|[|k]] eqn:E; cbn in Hy; try discriminate.
      * (* the byte just written *)
        injection Hy as <-.
        replace (Z.of_nat i + 1) with (Z.of_nat (S (length mid))) by lia.
        apply list_lookup_insert_eq. lia.
      * (* the oldest byte, now at the back *)
        injection Hy as <-.
        replace (Z.of_nat i + 1) with (0 + s) by lia.
        rewrite Z.add_assoc, Z.add_0_r, rem_index_wrap by lia.
        rewrite list_lookup_insert_ne.
        -- specialize (Hw 0%nat q0 eq_refl). rewrite <- Hs in Hw. fold s in Hw.
           change (Z.of_nat 0) with 0 in Hw. now rewrite rem_index_0 in Hw by lia.
        -- intros Heq. apply Z2Nat.inj in Heq; try lia.
           rewrite <- (rem_index_0 (BufferJs.tail b) s) in Heq at 2 by lia.
           apply rem_index_inj in Heq; lia.
Qed.

(** X2.  Filling the drivers' buffer loses a byte and reorders another:
    when [cap] bytes are written to a new buffer of capacity [cap], reading
    them back returns all but the last two, then the last byte, then the
    stale zero: the byte written just before the last is gone. *)
Theorem driver_buffer_overflow (cap : nat) (l : list Z) (x y : Z) :
  (length l + 2 = cap)%nat ->
  List.Forall is_byte l -> is_byte x -> is_byte y ->
  fst (BufferJs.readByte_n cap
         (BufferJs.write (BufferJs.new (Z.of_nat cap)) (l ++ [x; y])))
  = List.map Js.Num (l ++ [y; 0]).
Proof.
  intros Hlen Hl Hx Hy.
  assert (Hlag : lagging (BufferJs.write (BufferJs.new (Z.of_nat cap)) (l ++ [x]))
                         (0 :: l ++ [x])).
  { replace (0 :: l ++ [x]) with ([0] ++ List.map Js.ToUint8 (l ++ [x])).
    - apply lagging_write; [apply lagging_new; lia|].
      rewrite write_size || idtac.
      cbn [BufferJs.new BufferJs.size length]. rewrite length_app. cbn [length]. lia.
    - rewrite List.map_app, (ToUint8_bytes l Hl). cbn [List.map].
      now rewrite (ToUint8_byte x Hx). }
  replace (l ++ [x; y]) with ((l ++ [x]) ++ [y]) by (now rewrite <- app_assoc).
  unfold BufferJs.write at 1. rewrite fold_left_app. cbn [fold_left].
  fold (BufferJs.write (BufferJs.new (Z.of_nat cap)) (l ++ [x])).
  pose proof (overflow_write _ 0 x y l Hlag) as Hov.
  rewrite (ToUint8_byte y Hy) in Hov.
  replace (length (l ++ [y; 0])) with cap in Hov
    by (rewrite length_app; cbn [length]; lia).
  apply Hov.
  rewrite write_size. cbn [BufferJs.new BufferJs.size length].
  rewrite length_app. cbn [length]. lia.
Qed.

Lemma driver_buffer_overflow_witness :
  fst (BufferJs.readByte_n 4
         (BufferJs.write (BufferJs.new (Z.of_nat 4)) ([1; 2] ++ [3; 4])))
  = List.map Js.Num ([1; 2] ++ [4; 0]).
Proof.
  apply (driver_buffer_overflow 4 [1; 2] 3 4).
  - reflexivity.
  - repeat constructor; unfold is_byte; lia.
  - unfold is_byte; lia.
  - unfold is_byte; lia.
Defined.

End Overflow.

(** ** [readUntil] *)

Section ReadUntil.

Lemma until_cons_ne (d y : Z) (q : list Z) :
  y <> d -> until d (y :: q) = y :: until d q.
Proof.
  intros Hne. cbn. destruct (Z.eqb_spec y d); [contradiction|reflexivity].
Qed.

Lemma until_cons_eq (d : Z) (q : list Z) : until d (d :: q) = [d].
Proof. cbn. now rewrite Z.eqb_refl. Qed.

Lemma until_prefix (d : Z) (q : list Z) :
  until d q = take (length (until d q)) q.
Proof.
  induction q as [|y q IH]; [reflexivity|].
  cbn. destruct (y =? d); cbn; [reflexivity|]. now rewrite <- IH.
Qed.

Lemma until_length (d : Z) (q : list Z) :
  (length (until d q) <= length q)%nat
  /\ (q <> [] -> (1 <= length (until d q))%nat).
Proof.
  induction q as [|y q [IH _]]; cbn; [split; [lia|congruence]|].
  destruct (y =? d); cbn; split; intros; lia.
Qed.

Lemma until_absent (d : Z) (q : list Z) :
  ~ In d (removelast q) -> until d q = q.
Proof.
  induction q as [|y q IH]; [reflexivity|].
  destruct q as [|z q].
  - intros _. cbn. destruct (y =? d); reflexivity.
  - intros Hn. cbn [removelast] in Hn.
    rewrite until_cons_ne.
    + f_equal. apply IH. intros Hin. apply Hn. now right.
    + intros ->. apply Hn. now left.
Qed.

Lemma rem_index_back (t m s : Z) :
  0 <= t < s -> 0 <= m < s -> Z.rem (Z.rem (t + m) s - t + s) s = m.
Proof.
  intros Ht Hm.
  destruct (Z.lt_ge_cases (t + m) s).
  - rewrite (Z.rem_small (t + m)) by lia.
    replace (t + m - t + s) with (m + s) by lia.
    apply rem_index_wrap. lia.
  - assert (Hr : Z.rem (t + m) s = t + m - s).
    { rewrite Z.rem_mod_nonneg by lia.
      transitivity ((t + m - s + 1 * s) mod s); [f_equal; lia|].
      rewrite Z.mod_add by lia. apply Z.mod_small. lia. }
    rewrite Hr. replace (t + m - s - t + s) with m by lia.
    apply Z.rem_small. lia.
Qed.

Section Scan.

Variables (b : BufferJs.CircularBuffer) (q : list Z) (d : Z).
Hypothesis Hlag : lagging b q.
Hypothesis Hlong : (2 <= length q)%nat.

Lemma scan_slot (k : nat) (y : Z) :
  q !! k = Some y -> Js.get (BufferJs.buffer b) (ring_slot b k) = Js.Num y.
Proof.
  intros Hy. destruct Hlag as [Hs Ht Hc Hne Hcap Hh Hw].
  specialize (Hw k y Hy). rewrite <- Hs in Hw. fold (ring_slot b k) in Hw.
  assert (0 <= ring_slot b k < BufferJs.size b)
    by (apply rem_index_range; lia).
  unfold Js.get. destruct (Z.ltb_spec (ring_slot b k) 0); [lia|].
  now rewrite Hw.
Qed.

Lemma scan_head_iff (k : nat) :
  (k < length q)%nat ->
  ((ring_slot b k = BufferJs.head b) <-> (k = (length q - 1)%nat)).
Proof.
  intros Hk. destruct Hlag as [Hs Ht Hc Hne Hcap Hh Hw].
  rewrite Hh, Hc. unfold ring_slot. split.
  - intros Heq. apply rem_index_inj in Heq; lia.
  - intros Hk'. f_equal. lia.
Qed.

Lemma readUntil_scan_spec (n : nat) :
  forall (k fuel : nat),
    (k + n = length q - 1)%nat -> (n < fuel)%nat ->
    (n = 0%nat -> q !! k = Some d) ->
    BufferJs.readUntil_scan fuel b d (ring_slot b k)
    = Some (ring_slot b (k + length (until d (drop k q)) - 1)).
Proof.
  pose proof Hlag as [Hs Ht Hc Hne Hcap Hh Hw].
  assert (Hcount : (0 <? BufferJs.count b) = true) by (apply Z.ltb_lt; lia).
  induction n as [|n IH]; intros k fuel Hk Hfuel Hlast.
  - destruct fuel as [|fuel]; [lia|]. cbn [BufferJs.readUntil_scan].
    rewrite Hcount. specialize (Hlast eq_refl).
    rewrite (scan_slot k d Hlast). cbn [Js.strict_eq_num]. rewrite Z.eqb_refl.
    rewrite (drop_S q d k Hlast), until_cons_eq. cbn [length].
    do 2 f_equal. lia.
  - destruct fuel as [|fuel]; [lia|]. cbn [BufferJs.readUntil_scan].
    rewrite Hcount.
    destruct (lookup_lt_is_Some_2 q k ltac:(lia)) as [y Hy].
    rewrite (scan_slot k y Hy). cbn [Js.strict_eq_num].
    rewrite (drop_S q y k Hy).
    destruct (Z.eqb_spec y d) as [->|Hne'].
    + rewrite until_cons_eq. cbn [length]. do 2 f_equal. lia.
    + rewrite until_cons_ne by exact Hne'. cbn [length].
      assert (Hpos' : Z.rem (ring_slot b k + 1) (BufferJs.size b)
                      = ring_slot b (S k)).
      { unfold ring_slot. rewrite rem_index_add by lia. f_equal. lia. }
      rewrite Hpos'.
      destruct (lookup_lt_is_Some_2 q (S k) ltac:(lia)) as [z Hz].
      rewrite (scan_slot (S k) z Hz). cbn [Js.strict_eq_num].
      destruct (Z.eqb_spec (ring_slot b (S k)) (BufferJs.head b))
        as [Hhd|Hnhd].
      * apply scan_head_iff in Hhd; [|lia].
        destruct (Z.eqb_spec z d) as [->|Hzd]; cbn [negb andb].
        -- rewrite (IH (S k) fuel) by (try lia; intros _; exact Hz).
           do 2 f_equal.
           assert (1 <= length (until d (drop (S k) q)))%nat.
           { apply until_length. rewrite (drop_S q d (S k) Hz). discriminate. }
           lia.
        -- assert (Hd : drop (S k) q = [z]).
           { rewrite (drop_S q z (S k) Hz).
             rewrite drop_ge by lia. reflexivity. }
           rewrite Hd, until_cons_ne by exact Hzd. cbn [until length].
           do 2 f_equal. lia.
      * assert (Hn0 : n <> 0%nat).
        { intros ->. apply Hnhd. apply scan_head_iff; lia. }
        cbn [andb].
        rewrite (IH (S k) fuel) by (try lia; intros; lia).
        do 2 f_equal.
        assert (1 <= length (until d (drop (S k) q)))%nat.
        { apply until_length. rewrite (drop_S q z (S k) Hz). discriminate. }
        lia.
Qed.

End Scan.

(** The copy loop returns the slots it walks over, whatever [count] says. *)
Lemma readUntil_copy_window (n : nat) :
  forall (b : BufferJs.CircularBuffer) (q : list Z),
    BufferJs.size b = Z.of_nat (length (BufferJs.buffer b)) ->
    0 <= BufferJs.tail b < BufferJs.size b ->
    (n <= length q)%nat ->
    ring_window (BufferJs.buffer b) (BufferJs.tail b) q ->
    fst (BufferJs.readUntil_copy n b) = List.map Js.ToUint8 (take n q)
    /\ BufferJs.count (snd (BufferJs.readUntil_copy n b))
       = BufferJs.count b - Z.of_nat n.
Proof.
  induction n as [|n IH]; intros b q Hs Ht Hn Hw.
  - cbn. split; [reflexivity|lia].
  - destruct q as [|x q]; [cbn in Hn; lia|]. cbn [length] in Hn.
    cbn [BufferJs.readUntil_copy take List.map].
    rewrite (ring_window_head _ _ x q) by (try exact Hw; lia).
    match goal with
    | |- context [BufferJs.readUntil_copy n ?b1] => specialize (IH b1 q)
    end.
    cbn [BufferJs.size BufferJs.buffer BufferJs.tail BufferJs.count] in IH.
    destruct IH as [IH1 IH2]; try lia.
    + apply rem_index_range; lia.
    + rewrite Hs. apply (ring_window_tail _ _ x); [lia|exact Hw].
    + destruct (BufferJs.readUntil_copy n _) as [bytes b2].
      cbn [fst snd] in *. split; [now rewrite IH1|lia].
Qed.

Lemma readUntil_lagging (b : BufferJs.CircularBuffer) (q : list Z) (d : Z) :
  lagging b q -> (2 <= length q)%nat ->
  exists b',
    BufferJs.readUntil b d = Some (Some (List.map Js.ToUint8 (until d q)), b')
    /\ BufferJs.count b'
       = Z.of_nat (length q) - 1 - Z.of_nat (length (until d q)).
Proof.
  intros Hlag Hlong. pose proof Hlag as [Hs Ht Hc Hne Hcap Hh Hw].
  unfold BufferJs.readUntil.
  destruct (Z.eqb_spec (BufferJs.count b) 0); [lia|].
  pose proof (readUntil_scan_spec b q d Hlag Hlong (length q - 1) 0
                (S (S (Z.to_nat (BufferJs.size b))))
                ltac:(lia) ltac:(lia) ltac:(lia)) as Hscan.
  unfold ring_slot in Hscan. change (Z.of_nat 0) with 0 in Hscan.
  rewrite rem_index_0 in Hscan by lia.
  rewrite Hscan. clear Hscan.
  rewrite drop_0.
  destruct (until_length d q) as [Hle Hge].
  specialize (Hge ltac:(destruct q; [cbn in Hlong; lia|discriminate])).
  rewrite rem_index_back by lia.
  replace (Z.to_nat (Z.of_nat (0 + length (until d q) - 1) + 1))
    with (length (until d q)) by lia.
  destruct (readUntil_copy_window (length (until d q)) b q Hs Ht Hle Hw)
    as [Hres Hcnt].
  destruct (BufferJs.readUntil_copy (length (until d q)) b) as [result b'].
  cbn [fst snd] in *. exists b'. split.
  - now rewrite Hres, <- until_prefix.
  - rewrite Hcnt, Hc. lia.
Qed.

Lemma until_bytes (d : Z) (q : list Z) :
  List.Forall is_byte q -> List.Forall is_byte (until d q).
Proof.
  induction 1 as [|y q Hy _ IH]; cbn; [constructor|].
  destruct (y =? d); constructor; try assumption. constructor.
Qed.

Lemma ToUint8_is_byte (x : Z) : is_byte (Js.ToUint8 x).
Proof. unfold is_byte, Js.ToUint8. apply Z.mod_pos_bound. lia. Qed.

Lemma delayed_queue_run_bytes (ops : list BufferOp) :
  forall q : list Z,
    List.Forall is_byte q ->
    List.Forall is_byte (snd (delayed_queue_run q ops)).
Proof.
  induction ops as [|[data|] ops IH]; intros q Hq; cbn [delayed_queue_run].
  - exact Hq.
  - apply IH. apply List.Forall_app. split; [exact Hq|].
    apply List.Forall_forall. intros x Hx. apply in_map_iff in Hx.
    destruct Hx as (y & <- & _). apply ToUint8_is_byte.
  - assert (Hq1 : List.Forall is_byte (snd (delayed_read q))).
    { unfold delayed_read. destruct q as [|x [|y q]]; cbn [snd]; try exact Hq.
      now inversion Hq. }
    destruct (delayed_read q) as [v q1]. cbn [snd] in Hq1.
    specialize (IH q1 Hq1).
    destruct (delayed_queue_run q1 ops) as [vs q2]. exact IH.
Qed.

(** X3.  [readUntil] on a buffer of the drivers' class of capacity [cap],
    after any use in which the bytes not yet read numbered at most
    [cap - 1] after every write; [q] is then the bytes available to read
    followed by the one byte held back.  With nothing available to read,
    [readUntil] returns [null] and leaves the buffer as it is.  Otherwise
    it returns [q] up to and including the first delimiter; when the
    delimiter is not among the bytes available to read, that is all of
    [q], the held-back byte included, and [count] is left at -1. *)
Theorem readUntil_overreads (cap : nat) (ops : list BufferOp) (d : Z) :
  (0 < cap)%nat -> delayed_queue_fits cap [0] ops ->
  let b := snd (driver_buffer_run (BufferJs.new (Z.of_nat cap)) ops) in
  let q := snd (delayed_queue_run [0] ops) in
  (1 <= length q)%nat
  /\ BufferJs.count b = Z.of_nat (length q) - 1
  /\ (length q = 1%nat -> BufferJs.readUntil b d = Some (None, b))
  /\ ((2 <= length q)%nat ->
      exists b',
        BufferJs.readUntil b d = Some (Some (until d q), b')
        /\ BufferJs.count b'
           = Z.of_nat (length q) - 1 - Z.of_nat (length (until d q))
        /\ (~ In d (removelast q) ->
            until d q = q /\ BufferJs.count b' = -1)).
Proof.
  intros Hcap Hfit b q.
  assert (Hlag : lagging b q).
  { apply driver_buffer_run_delayed.
    - now apply lagging_new.
    - cbn [BufferJs.new BufferJs.size]. now rewrite Nat2Z.id. }
  assert (Hbytes : List.Forall is_byte q).
  { apply delayed_queue_run_bytes. repeat constructor; unfold is_byte; lia. }
  split; [exact (lag_nonempty b q Hlag)|].
  split; [exact (lag_count b q Hlag)|]. split.
  - intros Hone. unfold BufferJs.readUntil.
    rewrite (lag_count b q Hlag), Hone. reflexivity.
  - intros Hlong.
    destruct (readUntil_lagging b q d Hlag Hlong) as (b' & Hrun & Hcnt).
    exists b'. split; [|split].
    + rewrite Hrun. do 3 f_equal. apply ToUint8_bytes.
      now apply until_bytes.
    + exact Hcnt.
    + intros Habs. rewrite Hcnt, (until_absent d q Habs).
      split; [reflexivity|lia].
Qed.

Lemma readUntil_overreads_witness :
  let b := snd (driver_buffer_run (BufferJs.new (Z.of_nat 1024))
                  [OpWrite [65; 66; 10; 67]]) in
  let q := snd (delayed_queue_run [0] [OpWrite [65; 66; 10; 67]]) in
  (1 <= length q)%nat
  /\ BufferJs.count b = Z.of_nat (length q) - 1
  /\ (length q = 1%nat -> BufferJs.readUntil b 13 = Some (None, b))
  /\ ((2 <= length q)%nat ->
      exists b',
        BufferJs.readUntil b 13 = Some (Some (until 13 q), b')
        /\ BufferJs.count b'
           = Z.of_nat (length q) - 1 - Z.of_nat (length (until 13 q))
        /\ (~ In 13 (removelast q) ->
            until 13 q = q /\ BufferJs.count b' = -1)).
Proof.
  intros b q.
  apply (readUntil_overreads 1024 [OpWrite [65; 66; 10; 67]] 13).
  - lia.
  - cbn. lia.
Defined.

(** On the chunk [65, 66, 10, 67], [readUntil(13)] finds no 13 among the
    readable bytes 0, 65, 66, 10 and returns them with the held-back 67;
    on a new buffer it returns [null]. *)
Example readUntil_overreads_chunk :
  (exists b',
     BufferJs.readUntil
       (BufferJs.write (BufferJs.new 1024) [65; 66; 10; 67]) 13
     = Some (Some [0; 65; 66; 10; 67], b')
     /\ BufferJs.count b' = -1)
  /\ BufferJs.readUntil (BufferJs.new 1024) 13
     = Some (None, BufferJs.new 1024).
Proof.
  split; [|reflexivity].
  eexists. split; [vm_compute; reflexivity|reflexivity].
Qed.

End ReadUntil.

(** ** The server's buffer as a bounded queue *)

Section BoundedQueue.

Lemma queued_new (cap : nat) :
  (0 < cap)%nat -> queued (TcpServer.new (Z.of_nat cap)) [].
Proof.
  intros Hcap. unfold TcpServer.new, Js.Buffer_alloc. rewrite Nat2Z.id.
  split; cbn [TcpServer.size TcpServer.buffer TcpServer.tail TcpServer.count
              TcpServer.head length]; rewrite ?length_replicate; try lia.
  - rewrite Z.add_0_l. symmetry. apply Z.rem_small. lia.
  - intros i x Hx. discriminate.
Qed.

Lemma put_length (buf : list Z) (i x : Z) :
  length (Js.put buf i x) = length buf.
Proof.
  unfold Js.put. destruct (i <? 0); [reflexivity|]. apply length_insert.
Qed.

Lemma queued_write_step (cap : nat) (b : TcpServer.CircularBuffer)
  (q : list Z) (x : Z) :
  TcpServer.size b = Z.of_nat cap ->
  queued b q ->
  queued (TcpServer.write_step b x) (bounded_push cap q x).
Proof.
  intros Hcap [Hs Ht Hc Hcp Hh Hw].
  unfold TcpServer.write_step, bounded_push.
  destruct (Z.ltb_spec (TcpServer.count b) (TcpServer.size b)) as [Hlt|Hge].
  - (* room left *)
    destruct (Nat.ltb_spec (length q) cap) as [_|?]; [|lia].
    split; cbn [TcpServer.size TcpServer.buffer TcpServer.tail TcpServer.count
                TcpServer.head].
    + now rewrite put_length.
    + exact Ht.
    + rewrite length_app. cbn [length]. lia.
    + rewrite length_app. cbn [length]. lia.
    + rewrite Hh, Hc, rem_index_add by lia. f_equal. lia.
    + rewrite Hh, Hc, Hs. apply ring_window_snoc; [lia|lia|exact Hw].
  - (* full: the oldest element is overwritten *)
    destruct (Nat.ltb_spec (length q) cap) as [?|_]; [lia|].
    assert (Hfull : Z.of_nat (length q) = TcpServer.size b) by lia.
    destruct q as [|q0 q]; [cbn in Hfull; lia|]. cbn [List.tl].
    assert (Hhead : TcpServer.head b = TcpServer.tail b).
    { rewrite Hh, Hc, Hfull. apply rem_index_wrap. lia. }
    cbn [length] in *.
    split; cbn [TcpServer.size TcpServer.buffer TcpServer.tail TcpServer.count
                TcpServer.head].
    + now rewrite put_length.
    + apply rem_index_range; lia.
    + rewrite length_app. cbn [length]. lia.
    + rewrite length_app. cbn [length]. lia.
    + rewrite Hhead, Hc, Hfull. symmetry. apply rem_index_wrap.
      apply rem_index_range; lia.
    + intros i y Hy. rewrite put_length, <- Hs.
      rewrite rem_index_succ by lia.
      assert (Hi : (i < S (length q))%nat).
      { apply lookup_lt_Some in Hy. rewrite length_app in Hy. cbn in Hy. lia. }
      unfold Js.put. destruct (Z.ltb_spec (TcpServer.head b) 0); [lia|].
      apply lookup_app_Some in Hy. destruct Hy as [Hy|[Hge' Hy]].
      * assert (Hiq : (i < length q)%nat) by (eapply lookup_lt_Some; eauto).
        rewrite list_lookup_insert_ne.
        -- specialize (Hw (S i) y Hy). rewrite <- Hs in Hw.
           now replace (Z.of_nat i + 1) with (Z.of_nat (S i)) by lia.
        -- rewrite Hhead. intros Heq. apply Z2Nat.inj in Heq; try lia.
           ++ rewrite <- (rem_index_0 (TcpServer.tail b) (TcpServer.size b)) in Heq at 1 by lia.
              apply rem_index_inj in Heq; lia.
           ++ apply rem_index_range; lia.
      * destruct (i - length q)%nat as [|k] eqn:E; cbn in Hy; [|destruct k; discriminate].
        injection Hy as <-.
        replace (Z.of_nat i + 1) with (0 + TcpServer.size b) by lia.
        rewrite Z.add_assoc, Z.add_0_r, rem_index_wrap by lia.
        rewrite Hhead. apply list_lookup_insert_eq. lia.
Qed.

Lemma server_write_step_size (b : TcpServer.CircularBuffer) (x : Z) :
  TcpServer.size (TcpServer.write_step b x) = TcpServer.size b.
Proof.
  unfold TcpServer.write_step. destruct (_ <? _); reflexivity.
Qed.

Lemma queued_write (cap : nat) (data : list Z) :
  forall (b : TcpServer.CircularBuffer) (q : list Z),
    TcpServer.size b = Z.of_nat cap ->
    queued b q ->
    queued (TcpServer.write b data) (fold_left (bounded_push cap) data q)
    /\ TcpServer.size (TcpServer.write b data) = Z.of_nat cap.
Proof.
  unfold TcpServer.write.
  induction data as [|x data IH]; intros b q Hcap Hq; cbn [fold_left].
  - auto.
  - apply IH.
    + now rewrite server_write_step_size.
    + now apply queued_write_step.
Qed.

Lemma queued_read (b : TcpServer.CircularBuffer) (q : list Z) :
  queued b q ->
  fst (TcpServer.read b) = fst (bounded_pop q)
  /\ queued (snd (TcpServer.read b)) (snd (bounded_pop q))
  /\ TcpServer.size (snd (TcpServer.read b)) = TcpServer.size b.
Proof.
  intros Hq. pose proof Hq as [Hs Ht Hc Hcp Hh Hw].
  unfold TcpServer.read, bounded_pop.
  destruct q as [|x q]; cbn [length] in *.
  - destruct (Z.eqb_spec (TcpServer.count b) 0); [|lia]. auto.
  - destruct (Z.eqb_spec (TcpServer.count b) 0); [lia|]. cbn [fst snd].
    split; [|split; [|reflexivity]].
    + apply (ring_window_head _ _ _ q); [lia|exact Hw].
    + split; cbn [TcpServer.size TcpServer.buffer TcpServer.tail
                  TcpServer.count TcpServer.head].
      * exact Hs.
      * apply rem_index_range; lia.
      * lia.
      * lia.
      * rewrite Hh, rem_index_succ by lia.
        rewrite (Z.rem_mod_nonneg (_ + _)) by lia.
        rewrite (Z.rem_mod_nonneg (_ + _)) by lia. f_equal. lia.
      * rewrite Hs. apply (ring_window_tail _ _ x); [lia|exact Hw].
Qed.

Lemma server_buffer_run_bounded (cap : nat) (ops : list BufferOp) :
  forall (b : TcpServer.CircularBuffer) (q : list Z),
    TcpServer.size b = Z.of_nat cap ->
    queued b q ->
    fst (server_buffer_run b ops) = fst (bounded_queue_run cap q ops).
Proof.
  induction ops as [|[data|] ops IH]; intros b q Hcap Hq;
    cbn [server_buffer_run bounded_queue_run].
  - reflexivity.
  - destruct (queued_write cap data b q Hcap Hq) as [Hq' Hcap'].
    now apply IH.
  - destruct (queued_read b q Hq) as (Hv & Hq' & Hsz).
    destruct (TcpServer.read b) as [v b1].
    destruct (bounded_pop q) as [w q1]. cbn [fst snd] in *.
    specialize (IH b1 q1 ltac:(lia) Hq').
    destruct (server_buffer_run b1 ops) as [vs b2].
    destruct (bounded_queue_run cap q1 ops) as [ws q2]. cbn [fst] in *.
    now rewrite Hv, IH.
Qed.

(** X4.  The server's buffer is a bounded queue for every use: whatever
    the interleaving of writes and reads, a new buffer of capacity [cap]
    answers each read as a first-in first-out queue does that, when it
    already holds [cap] bytes, drops its oldest byte to take a new one. *)
Theorem server_buffer_is_bounded_queue (cap : nat) (ops : list BufferOp) :
  (0 < cap)%nat ->
  fst (server_buffer_run (TcpServer.new (Z.of_nat cap)) ops)
  = fst (bounded_queue_run cap [] ops).
Proof.
  intros Hcap. apply server_buffer_run_bounded.
  - reflexivity.
  - now apply queued_new.
Qed.

Lemma server_buffer_is_bounded_queue_witness :
  fst (server_buffer_run (TcpServer.new (Z.of_nat 3))
         [OpWrite [1; 2]; OpRead; OpWrite [3; 4; 5]; OpRead; OpRead; OpRead;
          OpRead])
  = [Js.Num 1; Js.Num 3; Js.Num 4; Js.Num 5; Js.Null].
Proof.
  apply (server_buffer_is_bounded_queue 3
           [OpWrite [1; 2]; OpRead; OpWrite [3; 4; 5]; OpRead; OpRead; OpRead;
            OpRead]).
  lia.
Defined.

End BoundedQueue.

(** ** The drivers' buffer stays within its bounds *)

Section InBounds.

Lemma in_bounds_new (cap : nat) :
  (0 < cap)%nat -> in_bounds (BufferJs.new (Z.of_nat cap)).
Proof.
  intros Hcap. unfold in_bounds, BufferJs.new, Js.Buffer_alloc.
  cbn [BufferJs.size BufferJs.buffer BufferJs.tail BufferJs.count BufferJs.head].
  rewrite Nat2Z.id, length_replicate.
  repeat split; try lia.
  apply List.Forall_forall. intros x Hx.
  apply list_elem_of_In, elem_of_replicate in Hx. destruct Hx as [-> _].
  unfold is_byte. lia.
Qed.

Lemma put_bytes (buf : list Z) (i x : Z) :
  List.Forall is_byte buf -> List.Forall is_byte (Js.put buf i x).
Proof.
  intros Hb. unfold Js.put. destruct (i <? 0); [exact Hb|].
  apply List.Forall_forall. intros y Hy.
  apply list_elem_of_In, list_elem_of_lookup in Hy. destruct Hy as [j Hj].
  destruct (decide (j = Z.to_nat i)) as [->|Hne].
  - pose proof (lookup_lt_Some _ _ _ Hj) as Hlt. rewrite length_insert in Hlt.
    rewrite list_lookup_insert_eq in Hj by exact Hlt.
    injection Hj as <-. apply ToUint8_is_byte.
  - rewrite list_lookup_insert_ne in Hj by congruence.
    rewrite List.Forall_forall in Hb. apply Hb.
    apply list_elem_of_In. eapply list_elem_of_lookup_2. exact Hj.
Qed.

Lemma in_bounds_writeByte (b : BufferJs.CircularBuffer) (x : Z) :
  in_bounds b -> in_bounds (BufferJs.writeByte b x).
Proof.
  intros (Hs & Hh & Ht & Hc & Hb). unfold in_bounds, BufferJs.writeByte.
  assert (Hr1 : 0 <= Z.rem (BufferJs.head b + 1) (BufferJs.size b)
                < BufferJs.size b) by (apply rem_index_range; lia).
  assert (Hr2 : 0 <= Z.rem (BufferJs.tail b + 1) (BufferJs.size b)
                < BufferJs.size b) by (apply rem_index_range; lia).
  destruct (Z.rem (BufferJs.head b + 1) (BufferJs.size b) =? BufferJs.tail b);
    cbn [BufferJs.size BufferJs.buffer BufferJs.tail BufferJs.count BufferJs.head];
    destruct (Z.ltb_spec (BufferJs.count b) (BufferJs.size b));
    cbn [BufferJs.size BufferJs.buffer BufferJs.tail BufferJs.count BufferJs.head];
    rewrite put_length; repeat split; try lia; now apply put_bytes.
Qed.

Lemma in_bounds_write (data : list Z) :
  forall b : BufferJs.CircularBuffer,
    in_bounds b -> in_bounds (BufferJs.write b data).
Proof.
  unfold BufferJs.write.
  induction data as [|x data IH]; intros b Hb; cbn [fold_left]; [exact Hb|].
  apply IH. now apply in_bounds_writeByte.
Qed.

Lemma in_bounds_readByte (b : BufferJs.CircularBuffer) :
  in_bounds b ->
  in_bounds (snd (BufferJs.readByte b))
  /\ byte_or_null (fst (BufferJs.readByte b))
  /\ (fst (BufferJs.readByte b) = Js.Null <-> BufferJs.count b = 0).
Proof.
  intros (Hs & Hh & Ht & Hc & Hb). unfold BufferJs.readByte.
  destruct (Z.eqb_spec (BufferJs.count b) 0) as [H0|H0]; cbn [fst snd].
  - split; [repeat split; assumption || lia|]. split; [now left|tauto].
  - destruct (lookup_lt_is_Some_2 (BufferJs.buffer b) (Z.to_nat (BufferJs.tail b))
                ltac:(lia)) as [x Hx].
    assert (Hget : Js.get (BufferJs.buffer b) (BufferJs.tail b) = Js.Num x).
    { unfold Js.get. destruct (Z.ltb_spec (BufferJs.tail b) 0); [lia|].
      now rewrite Hx. }
    rewrite Hget. split; [|split].
    + unfold in_bounds.
      cbn [BufferJs.size BufferJs.buffer BufferJs.tail BufferJs.count
           BufferJs.head].
      pose proof (rem_index_range (BufferJs.tail b) 1 (BufferJs.size b)
                    ltac:(lia) ltac:(lia) ltac:(lia)).
      repeat split; try lia. exact Hb.
    + right. exists x. split; [reflexivity|].
      rewrite List.Forall_forall in Hb. apply Hb.
      apply list_elem_of_In. eapply list_elem_of_lookup_2. exact Hx.
    + split; [discriminate|contradiction].
Qed.

Lemma driver_buffer_run_in_bounds (ops : list BufferOp) :
  forall b : BufferJs.CircularBuffer,
    in_bounds b ->
    in_bounds (snd (driver_buffer_run b ops))
    /\ List.Forall byte_or_null (fst (driver_buffer_run b ops)).
Proof.
  induction ops as [|[data|] ops IH]; intros b Hb; cbn [driver_buffer_run].
  - split; [exact Hb|constructor].
  - apply IH. now apply in_bounds_write.
  - destruct (in_bounds_readByte b Hb) as (Hb1 & Hv & _).
    destruct (BufferJs.readByte b) as [v b1]. cbn [fst snd] in *.
    destruct (IH b1 Hb1) as [Hb2 Hvs].
    destruct (driver_buffer_run b1 ops) as [vs b2]. cbn [fst snd] in *.
    split; [exact Hb2|now constructor].
Qed.

(** X5.  Whatever writes and reads are made on a new buffer of the
    drivers' class, overflowing or not, [head] and [tail] stay inside the
    array and [count] between 0 and the capacity, and every read returns
    [null] or a byte, never [undefined]. *)
Theorem driver_buffer_stays_in_bounds (cap : nat) (ops : list BufferOp) :
  (0 < cap)%nat ->
  in_bounds (snd (driver_buffer_run (BufferJs.new (Z.of_nat cap)) ops))
  /\ List.Forall byte_or_null
       (fst (driver_buffer_run (BufferJs.new (Z.of_nat cap)) ops)).
Proof.
  intros Hcap. apply driver_buffer_run_in_bounds. now apply in_bounds_new.
Qed.

Lemma driver_buffer_stays_in_bounds_witness :
  in_bounds
    (snd (driver_buffer_run (BufferJs.new (Z.of_nat 2))
            [OpWrite [1; 2; 3]; OpRead; OpRead; OpRead]))
  /\ List.Forall byte_or_null
       (fst (driver_buffer_run (BufferJs.new (Z.of_nat 2))
               [OpWrite [1; 2; 3]; OpRead; OpRead; OpRead])).
Proof.
  apply (driver_buffer_stays_in_bounds 2
           [OpWrite [1; 2; 3]; OpRead; OpRead; OpRead]).
  lia.
Defined.

End InBounds.

(** ** The decoder, told on the bytes it can read *)

Section DecoderOnBytes.

Lemma readable_nil (b : BufferJs.CircularBuffer) :
  BufferJs.count b <= 0 -> readable b = [].
Proof.
  intros Hc. unfold readable.
  replace (Z.to_nat (BufferJs.count b)) with 0%nat by lia. reflexivity.
Qed.

Lemma readable_cons (b b1 : BufferJs.CircularBuffer) (v : Js.value) :
  0 < BufferJs.count b -> BufferJs.readByte b = (v, b1) ->
  readable b = v :: readable b1 /\ v <> Js.Null
  /\ BufferJs.count b1 = BufferJs.count b - 1.
Proof.
  intros Hc Hr. unfold readable.
  pose proof (readByte_count_lt _ _ _ Hr Hc) as Hc1.
  replace (Z.to_nat (BufferJs.count b))
    with (S (Z.to_nat (BufferJs.count b1))) by lia.
  cbn [BufferJs.readByte_n]. rewrite Hr.
  destruct (BufferJs.readByte_n _ b1) as [vs b2]. cbn [fst].
  split; [reflexivity|]. split; [|exact Hc1].
  apply readByte_inv in Hr. destruct Hr as [(H0 & _)|(_ & -> & _)]; [lia|].
  unfold Js.get. destruct (_ <? 0); [discriminate|].
  destruct (_ !! _); discriminate.
Qed.

Lemma processLoop_decode (fuel : nat) :
  forall (d : PliDriverComplete.PLIDriver) (errors : list PliDriverComplete.Emitted) (resolved : option Js.value)
         (rest : list Js.value),
    0 <= BufferJs.count (PliDriverComplete.buffer d) < Z.of_nat fuel ->
    decode_bytes (has_pending d) (readable (PliDriverComplete.buffer d))
    = (errors, resolved, rest) ->
    exists d',
      PliDriverComplete.processLoop fuel d = Some d'
      /\ PliDriverComplete.emitted d' = PliDriverComplete.emitted d ++ errors
      /\ readable (PliDriverComplete.buffer d') = rest
      /\ match resolved with
         | Some v =>
             exists id request others,
               PliDriverComplete.pending d = (id, request) :: others
               /\ PliDriverComplete.pending d' = others
               /\ PliDriverComplete.promises d'
                  = Promise.settle (PliDriverComplete.promises d) (PliDriverComplete.promise request)
                                   (Promise.Resolved v)
         | None => PliDriverComplete.pending d' = PliDriverComplete.pending d /\ PliDriverComplete.promises d' = PliDriverComplete.promises d
         end.
Proof.
  induction fuel as [|fuel IH]; intros d errors resolved rest Hc Hdec; [lia|].
  cbn [PliDriverComplete.processLoop]. unfold BufferJs.available.
  destruct (Z.ltb_spec 0 (BufferJs.count (PliDriverComplete.buffer d))) as [Hpos|Hnpos].
  2:{ rewrite readable_nil in Hdec by lia. cbn in Hdec.
      injection Hdec as <- <- <-.
      exists d. rewrite app_nil_r, readable_nil by lia. auto. }
  rewrite peek_readByte.
  destruct (BufferJs.readByte (PliDriverComplete.buffer d)) as [v b1] eqn:E1. cbn [fst].
  destruct (readable_cons _ _ _ Hpos E1) as (Hrd & Hvn & Hc1).
  rewrite Hrd in Hdec. cbn [decode_bytes] in Hdec.
  destruct (Js.strict_eq_num v PliDriverComplete.PROTOCOL_PREFIX).
  - destruct (BufferJs.readByte b1) as [data b2] eqn:E2.
    destruct (Z.ltb_spec 0 (BufferJs.count b1)) as [Hpos1|Hnpos1].
    + destruct (readable_cons _ _ _ Hpos1 E2) as (Hrd1 & Hdn & Hc2).
      rewrite Hrd1 in Hdec.
      assert (Hnn : negb (Js.is_null data) = true)
        by (destruct data; [contradiction|reflexivity|reflexivity]).
      rewrite Hnn. cbn [PliDriverComplete.pending PliDriverComplete.set_buffer].
      unfold has_pending in Hdec.
      destruct (PliDriverComplete.pending d) as [|[id request] others] eqn:Hp.
      * destruct (IH (PliDriverComplete.set_buffer d b2) errors resolved rest)
          as (d' & Hrun & He & Hr & Hres).
        -- cbn. lia.
        -- unfold has_pending. cbn. rewrite Hp. exact Hdec.
        -- exists d'. cbn in He, Hres. rewrite Hp in Hres. auto.
      * injection Hdec as <- <- <-.
        eexists. split; [reflexivity|]. cbn.
        case_decide; [|contradiction].
        rewrite app_nil_r. do 2 (split; [reflexivity|]).
        exists id, request, others. auto.
    + (* the prefix was the last byte *)
      assert (Hc0 : BufferJs.count b1 = 0) by lia.
      rewrite (readable_nil b1) in Hdec by lia.
      injection Hdec as <- <- <-.
      apply readByte_inv in E2. destruct E2 as [(_ & -> & ->)|(Hn & _)]; [|lia].
      cbn [Js.is_null negb].
      destruct (IH (PliDriverComplete.set_buffer d b1) [] None []) as (d' & Hrun & He & Hr & Hp).
      * cbn. lia.
      * cbn. now rewrite readable_nil by lia.
      * exists d'. auto.
  - destruct (Js.between v 128 136).
    + destruct (decode_bytes (has_pending d) (readable b1))
        as [[errors1 resolved1] rest1] eqn:Hd1.
      injection Hdec as <- <- <-.
      destruct (IH (PliDriverComplete.emit (PliDriverComplete.set_buffer d b1) (PliDriverComplete.DeviceError v))
                   errors1 resolved1 rest1) as (d' & Hrun & He & Hr & Hp).
      * cbn. lia.
      * exact Hd1.
      * exists d'. split; [exact Hrun|]. split; [|split; assumption].
        rewrite He. cbn. now rewrite <- app_assoc.
    + destruct (IH (PliDriverComplete.set_buffer d b1) errors resolved rest)
        as (d' & Hrun & He & Hr & Hres); [cbn; lia|exact Hdec|].
      exists d'. auto.
Qed.

(** Without a prefix among them, the bytes are only noise and error
    codes. *)
Lemma decode_bytes_no_prefix (waiting : bool) (bytes : list Js.value) :
  List.Forall (fun v => v <> Js.Num PliDriverComplete.PROTOCOL_PREFIX) bytes ->
  decode_bytes waiting bytes
  = (List.map PliDriverComplete.DeviceError
       (List.filter (fun v => Js.between v 0x80 0x88) bytes), None, []).
Proof.
  induction 1 as [|v bytes Hv _ IH]; [reflexivity|].
  cbn [decode_bytes List.filter].
  assert (Hs : Js.strict_eq_num v PliDriverComplete.PROTOCOL_PREFIX = false).
  { destruct v as [| |z]; try reflexivity. cbn.
    destruct (Z.eqb_spec z PliDriverComplete.PROTOCOL_PREFIX); [subst; contradiction|reflexivity]. }
  rewrite Hs, IH. destruct (Js.between v 128 136); reflexivity.
Qed.

(** With a listener for ['error'], the loop is [processLoop]. *)
Lemma processLoop_on_listening (fuel : nat) :
  forall d : PliDriverComplete.PLIDriver,
    PliDriverComplete.processLoop_on true fuel d
    = option_map Js.Returns (PliDriverComplete.processLoop fuel d).
Proof.
  induction fuel as [|fuel IH]; intros d; [reflexivity|].
  cbn [PliDriverComplete.processLoop_on PliDriverComplete.processLoop].
  destruct (0 <? BufferJs.available (PliDriverComplete.buffer d));
    [|reflexivity].
  destruct (BufferJs.readByte (PliDriverComplete.buffer d)) as [v1 b1].
  destruct (Js.strict_eq_num (BufferJs.peek (PliDriverComplete.buffer d))
                             PliDriverComplete.PROTOCOL_PREFIX).
  - destruct (BufferJs.readByte b1) as [data b2].
    destruct (negb (Js.is_null data)); [|apply IH].
    cbn [PliDriverComplete.pending PliDriverComplete.set_buffer].
    destruct (PliDriverComplete.pending d) as [|[id request] rest];
      [apply IH|reflexivity].
  - destruct (Js.between (BufferJs.peek (PliDriverComplete.buffer d)) 128 136);
      apply IH.
Qed.

(** Without one, it is [processLoop] as long as no error code is met. *)
Lemma processLoop_on_quiet (listening : bool) (fuel : nat) :
  forall (d : PliDriverComplete.PLIDriver) (resolved : option Js.value)
         (rest : list Js.value),
    0 <= BufferJs.count (PliDriverComplete.buffer d) ->
    decode_bytes (has_pending d) (readable (PliDriverComplete.buffer d))
    = ([], resolved, rest) ->
    PliDriverComplete.processLoop_on listening fuel d
    = option_map Js.Returns (PliDriverComplete.processLoop fuel d).
Proof.
  induction fuel as [|fuel IH]; intros d resolved rest Hc Hdec;
    [reflexivity|].
  cbn [PliDriverComplete.processLoop_on PliDriverComplete.processLoop].
  unfold BufferJs.available.
  destruct (Z.ltb_spec 0 (BufferJs.count (PliDriverComplete.buffer d)))
    as [Hpos|Hnpos]; [|reflexivity].
  rewrite peek_readByte.
  destruct (BufferJs.readByte (PliDriverComplete.buffer d)) as [v b1] eqn:E1.
  cbn [fst].
  destruct (readable_cons _ _ _ Hpos E1) as (Hrd & Hvn & Hc1).
  rewrite Hrd in Hdec. cbn [decode_bytes] in Hdec.
  destruct (Js.strict_eq_num v PliDriverComplete.PROTOCOL_PREFIX).
  - destruct (BufferJs.readByte b1) as [data b2] eqn:E2.
    destruct (Z.ltb_spec 0 (BufferJs.count b1)) as [Hpos1|Hnpos1].
    + destruct (readable_cons _ _ _ Hpos1 E2) as (Hrd1 & Hdn & Hc2).
      rewrite Hrd1 in Hdec.
      assert (Hnn : negb (Js.is_null data) = true)
        by (destruct data; [contradiction|reflexivity|reflexivity]).
      rewrite Hnn.
      cbn [PliDriverComplete.pending PliDriverComplete.set_buffer].
      unfold has_pending in Hdec.
      destruct (PliDriverComplete.pending d) as [|[id request] others] eqn:Hp;
        [|reflexivity].
      apply (IH (PliDriverComplete.set_buffer d b2) resolved rest);
        [cbn; lia|].
      unfold has_pending. cbn. rewrite Hp. exact Hdec.
    + apply readByte_inv in E2.
      destruct E2 as [(_ & -> & ->)|(Hn & _)]; [|lia].
      cbn [Js.is_null negb].
      apply (IH (PliDriverComplete.set_buffer d b1) None []); [cbn; lia|].
      cbn. now rewrite readable_nil by lia.
  - destruct (Js.between v 128 136).
    + destruct (decode_bytes (has_pending d) (readable b1))
        as [[errors1 resolved1] rest1].
      discriminate.
    + apply (IH (PliDriverComplete.set_buffer d b1) resolved rest);
        [cbn; lia|exact Hdec].
Qed.

(** Without a listener and without a prefix among the readable bytes, the
    loop runs up to the first error code and throws there. *)
Lemma processLoop_on_unheard (fuel : nat) :
  forall d : PliDriverComplete.PLIDriver,
    0 <= BufferJs.count (PliDriverComplete.buffer d) < Z.of_nat fuel ->
    List.Forall (fun v => v <> Js.Num PliDriverComplete.PROTOCOL_PREFIX)
                (readable (PliDriverComplete.buffer d)) ->
    exists d',
      PliDriverComplete.processLoop_on false fuel d
      = Some (match first_error (readable (PliDriverComplete.buffer d)) with
              | Some (code, _) => Js.Throws d' (Js.UnhandledError code)
              | None => Js.Returns d'
              end)
      /\ readable (PliDriverComplete.buffer d')
         = match first_error (readable (PliDriverComplete.buffer d)) with
           | Some (_, behind) => behind
           | None => []
           end
      /\ PliDriverComplete.pending d' = PliDriverComplete.pending d
      /\ PliDriverComplete.promises d' = PliDriverComplete.promises d
      /\ PliDriverComplete.emitted d' = PliDriverComplete.emitted d.
Proof.
  induction fuel as [|fuel IH]; intros d Hc Hnp; [lia|].
  cbn [PliDriverComplete.processLoop_on]. unfold BufferJs.available.
  destruct (Z.ltb_spec 0 (BufferJs.count (PliDriverComplete.buffer d)))
    as [Hpos|Hnpos].
  2:{ rewrite readable_nil by lia. cbn [first_error].
      exists d. rewrite readable_nil by lia. auto. }
  rewrite peek_readByte.
  destruct (BufferJs.readByte (PliDriverComplete.buffer d)) as [v b1] eqn:E1.
  cbn [fst].
  destruct (readable_cons _ _ _ Hpos E1) as (Hrd & Hvn & Hc1).
  rewrite Hrd in Hnp |- *. apply List.Forall_cons_iff in Hnp.
  destruct Hnp as [Hv Hnp].
  assert (Hs : Js.strict_eq_num v PliDriverComplete.PROTOCOL_PREFIX = false).
  { destruct v as [| |z]; try reflexivity. cbn.
    destruct (Z.eqb_spec z PliDriverComplete.PROTOCOL_PREFIX);
      [subst; contradiction|reflexivity]. }
  rewrite Hs. cbn [first_error].
  destruct (Js.between v 128 136).
  - exists (PliDriverComplete.set_buffer d b1). auto.
  - destruct (IH (PliDriverComplete.set_buffer d b1)) as (d' & Hrun & Hrest);
      [cbn; lia|exact Hnp|].
    exists d'. auto.
Qed.

(** X6.  [_processResponses] is a function of the bytes it can read and of
    whether a request is pending.  With a listener for ['error'], or when
    it meets no error code, it returns, having emitted the device errors
    [decode_bytes] lists, in order.  It settles the request in the first
    entry of the pending Map (the oldest request, when request ids are
    distinct) with the value behind the first prefix, so that an
    unsettled promise has that value for its outcome, removes that entry,
    and stops there, leaving the later bytes unread; with no request
    pending it consumes every frame and drops its value. *)
Theorem processResponses_decodes (listening : bool)
  (d : PliDriverComplete.PLIDriver)
  (errors : list PliDriverComplete.Emitted) (resolved : option Js.value)
  (rest : list Js.value) :
  0 <= BufferJs.count (PliDriverComplete.buffer d) ->
  decode_bytes (has_pending d) (readable (PliDriverComplete.buffer d))
  = (errors, resolved, rest) ->
  listening = true \/ errors = [] ->
  exists d',
    PliDriverComplete._processResponses_on listening d = Some (Js.Returns d')
    /\ PliDriverComplete.emitted d' = PliDriverComplete.emitted d ++ errors
    /\ readable (PliDriverComplete.buffer d') = rest
    /\ match resolved with
       | Some v =>
           exists id request others,
             PliDriverComplete.pending d = (id, request) :: others
             /\ PliDriverComplete.pending d' = others
             /\ PliDriverComplete.promises d'
                = Promise.settle (PliDriverComplete.promises d)
                    (PliDriverComplete.promise request) (Promise.Resolved v)
             /\ (Promise.outcome (PliDriverComplete.promises d)
                                 (PliDriverComplete.promise request) = None ->
                 Promise.outcome (PliDriverComplete.promises d')
                                 (PliDriverComplete.promise request)
                 = Some (Promise.Resolved v))
       | None =>
           PliDriverComplete.pending d' = PliDriverComplete.pending d
           /\ PliDriverComplete.promises d' = PliDriverComplete.promises d
       end.
Proof.
  intros Hc Hdec Hquiet.
  destruct (processLoop_decode
              (S (Z.to_nat (BufferJs.available (PliDriverComplete.buffer d))))
              d errors resolved rest
              ltac:(unfold BufferJs.available; lia) Hdec)
    as (d' & Hrun & He & Hr & Hres).
  exists d'. split; [|split; [exact He|split; [exact Hr|]]].
  - unfold PliDriverComplete._processResponses_on.
    destruct Hquiet as [->| ->].
    + now rewrite processLoop_on_listening, Hrun.
    + now rewrite (processLoop_on_quiet listening _ d resolved rest Hc Hdec),
        Hrun.
  - destruct resolved as [v|]; [|exact Hres].
    destruct Hres as (id & request & others & Hp & Hp' & Hl).
    exists id, request, others. do 3 (split; [assumption|]).
    intros Hnone. rewrite Hl. now apply outcome_settle_new.
Qed.

Lemma processResponses_decodes_witness :
  let d := PliDriverComplete.set_buffer two_reads
             (BufferJs.write (PliDriverComplete.buffer two_reads)
                             [0x81; 0xC8; 138; 7; 9]) in
  exists d',
    PliDriverComplete._processResponses_on true d = Some (Js.Returns d')
    /\ PliDriverComplete.emitted d'
       = PliDriverComplete.emitted d
         ++ [PliDriverComplete.DeviceError (Js.Num 0x81)]
    /\ readable (PliDriverComplete.buffer d') = [Js.Num 7]
    /\ exists id request others,
         PliDriverComplete.pending d = (id, request) :: others
         /\ PliDriverComplete.pending d' = others
         /\ PliDriverComplete.promises d'
            = Promise.settle (PliDriverComplete.promises d)
                (PliDriverComplete.promise request)
                (Promise.Resolved (Js.Num 138))
         /\ (Promise.outcome (PliDriverComplete.promises d)
                             (PliDriverComplete.promise request) = None ->
             Promise.outcome (PliDriverComplete.promises d')
                             (PliDriverComplete.promise request)
             = Some (Promise.Resolved (Js.Num 138))).
Proof.
  intros d.
  apply (processResponses_decodes true d
           [PliDriverComplete.DeviceError (Js.Num 0x81)]
           (Some (Js.Num 138)) [Js.Num 7]).
  - vm_compute. discriminate.
  - vm_compute. reflexivity.
  - left. reflexivity.
Defined.

(** X7.  When no readable byte is the prefix 0xC8, [_processResponses]
    settles nothing and removes no request, whatever is pending.  With a
    listener for ['error'] it returns, having consumed every readable
    byte and emitted one device error for each byte in 0x80..0x88, in the
    order read.  Without one it consumes the bytes up to the first byte in
    0x80..0x88 and that byte, and throws there, nothing emitted and the
    bytes behind it unread; when no byte is in 0x80..0x88 it returns,
    every byte consumed. *)
Theorem processResponses_without_prefix (d : PliDriverComplete.PLIDriver) :
  0 <= BufferJs.count (PliDriverComplete.buffer d) ->
  List.Forall (fun v => v <> Js.Num PliDriverComplete.PROTOCOL_PREFIX)
              (readable (PliDriverComplete.buffer d)) ->
  (exists d',
     PliDriverComplete._processResponses_on true d = Some (Js.Returns d')
     /\ PliDriverComplete.pending d' = PliDriverComplete.pending d
     /\ PliDriverComplete.promises d' = PliDriverComplete.promises d
     /\ PliDriverComplete.emitted d'
        = PliDriverComplete.emitted d
          ++ List.map PliDriverComplete.DeviceError
               (List.filter (fun v => Js.between v 0x80 0x88)
                            (readable (PliDriverComplete.buffer d)))
     /\ readable (PliDriverComplete.buffer d') = [])
  /\ (exists d',
        PliDriverComplete._processResponses_on false d
        = Some (match first_error (readable (PliDriverComplete.buffer d)) with
                | Some (code, _) => Js.Throws d' (Js.UnhandledError code)
                | None => Js.Returns d'
                end)
        /\ readable (PliDriverComplete.buffer d')
           = match first_error (readable (PliDriverComplete.buffer d)) with
             | Some (_, behind) => behind
             | None => []
             end
        /\ PliDriverComplete.pending d' = PliDriverComplete.pending d
        /\ PliDriverComplete.promises d' = PliDriverComplete.promises d
        /\ PliDriverComplete.emitted d' = PliDriverComplete.emitted d).
Proof.
  intros Hc Hnp. split.
  - destruct (processLoop_decode
                (S (Z.to_nat (BufferJs.available (PliDriverComplete.buffer d))))
                d _ _ _ ltac:(unfold BufferJs.available; lia)
                (decode_bytes_no_prefix (has_pending d) _ Hnp))
      as (d' & Hrun & He & Hr & Hp & Hl).
    exists d'. split; [|auto].
    unfold PliDriverComplete._processResponses_on.
    now rewrite processLoop_on_listening, Hrun.
  - apply processLoop_on_unheard; [|exact Hnp].
    unfold BufferJs.available. lia.
Qed.

Lemma processResponses_without_prefix_witness :
  let d := PliDriverComplete.set_buffer waiting
             (BufferJs.write (PliDriverComplete.buffer waiting)
                             [5; 0x81; 6; 0x88; 1]) in
  (exists d',
     PliDriverComplete._processResponses_on true d = Some (Js.Returns d')
     /\ PliDriverComplete.pending d' = PliDriverComplete.pending d
     /\ PliDriverComplete.promises d' = PliDriverComplete.promises d
     /\ PliDriverComplete.emitted d'
        = PliDriverComplete.emitted d
          ++ List.map PliDriverComplete.DeviceError
               (List.filter (fun v => Js.between v 0x80 0x88)
                            (readable (PliDriverComplete.buffer d)))
     /\ readable (PliDriverComplete.buffer d') = [])
  /\ (exists d',
        PliDriverComplete._processResponses_on false d
        = Some (match first_error (readable (PliDriverComplete.buffer d)) with
                | Some (code, _) => Js.Throws d' (Js.UnhandledError code)
                | None => Js.Returns d'
                end)
        /\ readable (PliDriverComplete.buffer d')
           = match first_error (readable (PliDriverComplete.buffer d)) with
             | Some (_, behind) => behind
             | None => []
             end
        /\ PliDriverComplete.pending d' = PliDriverComplete.pending d
        /\ PliDriverComplete.promises d' = PliDriverComplete.promises d
        /\ PliDriverComplete.emitted d' = PliDriverComplete.emitted d).
Proof.
  intros d.
  apply (processResponses_without_prefix d).
  - vm_compute. discriminate.
  - vm_compute. repeat constructor; discriminate.
Defined.

(** The chunk [5, 0x81, 6, 0x88, 1] on a new buffer, without a listener:
    the decoder reads the stale zero, 5 and 0x81, and throws; 6 and 0x88
    stay readable. *)
Example processResponses_throws :
  let d := PliDriverComplete.set_buffer waiting
             (BufferJs.write (PliDriverComplete.buffer waiting)
                             [5; 0x81; 6; 0x88; 1]) in
  exists d',
    PliDriverComplete._processResponses_on false d
    = Some (Js.Throws d' (Js.UnhandledError (Js.Num 0x81)))
    /\ readable (PliDriverComplete.buffer d') = [Js.Num 6; Js.Num 0x88].
Proof.
  intros d. eexists. split; [vm_compute; reflexivity|]. reflexivity.
Qed.

End DecoderOnBytes.

(** ** Promises of the complete driver *)

Section DriverPromises.

Import PliDriverComplete.

Lemma elem_of_set (m : JsMap.t RequestId PendingRequest) (k : RequestId)
  (v : PendingRequest) (e : RequestId * PendingRequest) :
  e ∈ JsMap.set k v m -> e = (k, v) \/ e ∈ m.
Proof.
  induction m as [|[k' v'] m IH]; cbn.
  - intros He. apply list_elem_of_singleton in He. auto.
  - case_decide.
    + intros He. apply elem_of_cons in He. destruct He as [->|He]; [auto|].
      right. now apply list_elem_of_further.
    + intros He. apply elem_of_cons in He. destruct He as [->|He].
      * right. apply list_elem_of_here.
      * destruct (IH He) as [->|Hm]; [auto|].
        right. now apply list_elem_of_further.
Qed.

(** Replacing the value of the last key. *)
Lemma set_last (m : JsMap.t RequestId PendingRequest) (k : RequestId)
  (v v' : PendingRequest) :
  k ∉ JsMap.keys m -> JsMap.set k v' (m ++ [(k, v)]) = m ++ [(k, v')].
Proof.
  induction m as [|[k' w] m IH]; cbn; intros Hk.
  - case_decide; [reflexivity|contradiction].
  - apply not_elem_of_cons in Hk. destruct Hk as [Hne Hk].
    case_decide; [contradiction|]. now rewrite IH.
Qed.

Lemma delete_last (m : JsMap.t RequestId PendingRequest) (k : RequestId)
  (v : PendingRequest) :
  k ∉ JsMap.keys m -> JsMap.delete k (m ++ [(k, v)]) = m.
Proof.
  induction m as [|[k' w] m IH]; cbn; intros Hk.
  - case_decide; [reflexivity|contradiction].
  - apply not_elem_of_cons in Hk. destruct Hk as [Hne Hk].
    case_decide; [contradiction|]. now rewrite IH.
Qed.

Lemma has_last (m : JsMap.t RequestId PendingRequest) (k : RequestId)
  (v : PendingRequest) : JsMap.has k (m ++ [(k, v)]) = true.
Proof.
  apply has_true_iff. unfold JsMap.keys. rewrite map_app.
  apply elem_of_app. right. cbn. apply list_elem_of_here.
Qed.

Lemma disarm_app (t : Timer) (ts ts' : list Timer) :
  t ∉ ts -> disarm t (ts ++ ts') = ts ++ disarm t ts'.
Proof.
  induction ts as [|t' ts IH]; cbn; intros Ht; [reflexivity|].
  apply not_elem_of_cons in Ht. destruct Ht as [Hne Ht].
  case_decide; [contradiction|]. now rewrite IH.
Qed.

(** A read on a driver whose socket is not open. *)
Lemma read_closed (d : PLIDriver) (addr timeout now started : Z) :
  is_open d = false ->
  read d addr timeout now started
  = (nextPromise d,
     settle (snd (new_promise d)) (nextPromise d)
            (Promise.Rejected Promise.NotConnected)).
Proof.
  unfold is_open, read, new_promise. cbn [socket snd].
  destruct (socket d) as [[[] w]|]; [discriminate|reflexivity|reflexivity].
Qed.

(** The timers hold promises that have been handed out. *)
Lemma reachable_timer_bound (d : PLIDriver) :
  reachable d ->
  forall t, t ∈ timers d -> (timer_promise t < nextPromise d)%nat.
Proof.
  induction 1 as [timeout m|d d' e Hr IH Hf Hs].
  - cbn. intros t Ht. inversion Ht.
  - unfold step in Hs. destruct (enabled d e) eqn:Hen; [|discriminate].
    destruct e as [| | |bytes|addr tmo now started|t|]; cbn [handle] in Hs.
    + injection Hs as <-. exact IH.
    + injection Hs as <-. unfold on_close, _scheduleReconnect. cbn.
      destruct (reconnectTimer d); exact IH.
    + injection Hs as <-. exact IH.
    + unfold on_data, _processResponses in Hs.
      apply processLoop_effect in Hs. destruct Hs as (_ & Hn & Ht & _).
      rewrite Hn, Ht. exact IH.
    + injection Hs as <-.
      destruct (is_open d) eqn:Ho.
      * destruct Hf as [Hk _].
        destruct (read_open d addr tmo now started Ho Hk)
          as (_ & _ & Ht & _).
        rewrite Ht. intros t Hin.
        assert (Hn : nextPromise (snd (read d addr tmo now started))
                     = S (nextPromise d)).
        { unfold read. cbn [new_promise socket].
          destruct (socket d) as [[[] w]|]; reflexivity. }
        rewrite Hn. apply elem_of_app in Hin. destruct Hin as [Hin|Hin].
        -- specialize (IH t Hin). lia.
        -- apply list_elem_of_singleton in Hin. subst t. cbn. lia.
      * rewrite read_closed by exact Ho. cbn.
        intros t Hin. specialize (IH t Hin). lia.
    + injection Hs as <-. cbn. intros t' Hin.
      apply elem_of_disarm in Hin.
      unfold read_timer. destruct (JsMap.has _ _); cbn; now apply IH.
    + injection Hs as <-. exact IH.
Qed.

(** Every promise handed out is pending or settled. *)
Lemma reachable_pending_or_settled (d : PLIDriver) :
  reachable d ->
  forall p, (p < nextPromise d)%nat ->
    is_pending d p \/ exists o, Promise.outcome (promises d) p = Some o.
Proof.
  induction 1 as [timeout m|d d' e Hr IH Hf Hs].
  - cbn. intros p Hp. lia.
  - pose proof (reachable_invariant d Hr) as Hinv.
    unfold step in Hs. destruct (enabled d e) eqn:Hen; [|discriminate].
    destruct e as [| | |bytes|addr tmo now started|t|]; cbn [handle] in Hs.
    + injection Hs as <-. exact IH.
    + injection Hs as <-. unfold on_close, _scheduleReconnect. cbn.
      destruct (reconnectTimer d); exact IH.
    + injection Hs as <-. exact IH.
    + unfold on_data, _processResponses in Hs.
      apply processLoop_effect in Hs.
      destruct Hs as ([[Hp Hl]|(id & r & rest & v & Hp & Hp' & Hl)] & Hn & _).
      * intros p Hlt. rewrite Hn in Hlt. unfold is_pending.
        rewrite Hp, Hl. exact (IH p Hlt).
      * cbn in Hp, Hl. intros p Hlt. rewrite Hn in Hlt. cbn in Hlt.
        destruct (IH p Hlt) as [(e & He & Hep)|(o & Ho)].
        -- rewrite Hp in He. apply elem_of_cons in He.
           destruct He as [->|He].
           ++ right. eexists. rewrite Hl. cbn in Hep. subst p.
              apply outcome_settle_new.
              apply (inv_unsettled d Hinv (id, r)).
              rewrite Hp. apply list_elem_of_here.
           ++ left. exists e. rewrite Hp'. auto.
        -- right. exists o. rewrite Hl. now apply outcome_settle_kept.
    + injection Hs as <-.
      destruct (is_open d) eqn:Ho.
      * destruct Hf as [Hk _].
        destruct (read_open d addr tmo now started Ho Hk)
          as (_ & Hp & _ & Hl & _).
        assert (Hn : nextPromise (snd (read d addr tmo now started))
                     = S (nextPromise d)).
        { unfold read. cbn [new_promise socket].
          destruct (socket d) as [[[] w]|]; reflexivity. }
        intros p Hlt. rewrite Hn in Hlt. unfold is_pending.
        rewrite Hp, Hl.
        destruct (decide (p = nextPromise d)) as [->|Hne].
        -- left. exists ((addr, now), mkPending (nextPromise d) tmo started).
           split; [|reflexivity].
           apply elem_of_app. right. apply list_elem_of_here.
        -- destruct (IH p ltac:(lia)) as [(e & He & Hep)|Hset]; [|auto].
           left. exists e. split; [|exact Hep].
           apply elem_of_app. now left.
      * rewrite read_closed by exact Ho. cbn.
        intros p Hlt.
        destruct (decide (p = nextPromise d)) as [->|Hne].
        -- right. eexists. apply outcome_settle_new.
           apply outcome_above. apply (inv_log d Hinv).
        -- destruct (IH p ltac:(lia)) as [Hpe|(o & Hset)]; [now left|].
           right. exists o. now apply outcome_settle_kept.
    + injection Hs as <-.
      cbn in Hen. apply bool_decide_eq_true in Hen.
      unfold fire, read_timer.
      destruct (JsMap.has (timer_id t) (pending d)) eqn:Hh; [|exact IH].
      cbn. intros p Hlt. unfold is_pending. cbn.
      destruct (IH p Hlt) as [(e & He & Hep)|(o & Ho)].
      * destruct (decide (fst e = timer_id t)) as [Hid|Hid].
        -- right. eexists.
           destruct e as [id r]. cbn in Hid, Hep. subst id.
           rewrite <- (inv_timers d Hinv t r Hen He), Hep.
           apply outcome_settle_new. rewrite <- Hep.
           apply (inv_unsettled d Hinv _ He).
        -- left. exists e. split; [|exact Hep].
           now apply elem_of_delete_ne.
      * right. exists o. now apply outcome_settle_kept.
    + injection Hs as <-. exact IH.
Qed.

(** X8.  A [read] on a driver whose socket is missing (after
    [disconnect()]) or no longer readable (after it has closed) rejects
    its promise, a new one, with the not-connected failure and does
    nothing else: no request is recorded, no timer is armed, nothing is
    written or emitted.  This holds of every state of the driver. *)
Theorem read_not_connected (d : PLIDriver) (addr timeout now started : Z) :
  is_open d = false ->
  Promise.outcome (promises d) (nextPromise d) = None ->
  let p := fst (read d addr timeout now started) in
  let d' := snd (read d addr timeout now started) in
  p = nextPromise d
  /\ Promise.outcome (promises d') p
     = Some (Promise.Rejected Promise.NotConnected)
  /\ pending d' = pending d
  /\ timers d' = timers d
  /\ socket d' = socket d
  /\ emitted d' = emitted d.
Proof.
  intros Ho Hnew p d'. subst p d'. rewrite read_closed by exact Ho. cbn.
  split; [reflexivity|]. split; [|auto].
  now apply outcome_settle_new.
Qed.

(** After [disconnect()] the socket is missing; after the socket has
    closed it is not readable. *)
Lemma read_not_connected_witness :
  (let d := disconnect connected in
   fst (read d 50 100 1000 1000) = nextPromise d
   /\ Promise.outcome (promises (snd (read d 50 100 1000 1000)))
                      (fst (read d 50 100 1000 1000))
      = Some (Promise.Rejected Promise.NotConnected)
   /\ pending (snd (read d 50 100 1000 1000)) = pending d
   /\ timers (snd (read d 50 100 1000 1000)) = timers d
   /\ socket (snd (read d 50 100 1000 1000)) = socket d
   /\ emitted (snd (read d 50 100 1000 1000)) = emitted d)
  /\ (let d := on_close (socket_readable waiting false) in
      fst (read d 52 100 2000 2000) = nextPromise d
      /\ Promise.outcome (promises (snd (read d 52 100 2000 2000)))
                         (fst (read d 52 100 2000 2000))
         = Some (Promise.Rejected Promise.NotConnected)
      /\ pending (snd (read d 52 100 2000 2000)) = pending d
      /\ timers (snd (read d 52 100 2000 2000)) = timers d
      /\ socket (snd (read d 52 100 2000 2000)) = socket d
      /\ emitted (snd (read d 52 100 2000 2000)) = emitted d).
Proof.
  split.
  - apply (read_not_connected (disconnect connected) 50 100 1000 1000);
      reflexivity.
  - apply (read_not_connected (on_close (socket_readable waiting false))
             52 100 2000 2000); reflexivity.
Defined.

(** X9.  In every state the driver reaches under distinct request ids,
    each promise it has handed out is accounted for: either a pending
    request holds it, it is unsettled and a timer is armed for it, or it is
    settled and no pending request holds it.  No promise is lost. *)
Theorem promises_accounted (d : PLIDriver) (p : nat) :
  reachable d -> (p < nextPromise d)%nat -> accounted d p.
Proof.
  intros Hr Hlt. pose proof (reachable_invariant d Hr) as Hinv.
  destruct (reachable_pending_or_settled d Hr p Hlt)
    as [(e & He & Hep)|(o & Ho)].
  - left. split; [exists e; auto|]. subst p.
    split; [exact (inv_unsettled d Hinv e He)|].
    destruct (inv_armed d Hinv e He) as (t & Ht & _ & Htp).
    exists t. auto.
  - right. split; [|exists o; exact Ho].
    intros (e & He & Hep). subst p.
    rewrite (inv_unsettled d Hinv e He) in Ho. discriminate.
Qed.

Lemma promises_accounted_witness : accounted two_reads 1.
Proof.
  apply (promises_accounted two_reads 1).
  - apply reachable_two_reads.
  - cbn. lia.
Defined.

End DriverPromises.

(** ** Request ids that collide *)

Section Collision.

Import PliDriverComplete.

Lemma fire_holder (d : PLIDriver) (t : Timer) :
  JsMap.has (timer_id t) (pending d) = true ->
  pending (fire t d) = JsMap.delete (timer_id t) (pending d)
  /\ promises (fire t d)
     = Promise.settle (promises d) (timer_promise t)
         (Promise.Rejected (Promise.ReadTimeout (timer_addr t)))
  /\ nextPromise (fire t d) = nextPromise d
  /\ timers (fire t d) = disarm t (timers d).
Proof. intros Hh. unfold fire, read_timer. rewrite Hh. cbn. auto. Qed.

Lemma fire_idle (d : PLIDriver) (t : Timer) :
  JsMap.has (timer_id t) (pending d) = false ->
  pending (fire t d) = pending d
  /\ promises (fire t d) = promises d
  /\ nextPromise (fire t d) = nextPromise d
  /\ timers (fire t d) = disarm t (timers d).
Proof. intros Hh. unfold fire, read_timer. rewrite Hh. cbn. auto. Qed.

(** Two reads of the same address within one millisecond, on an open
    socket. *)
Lemma double_read (d : PLIDriver) (addr timeout1 timeout2 now started1
  started2 : Z) :
  is_open d = true -> (addr, now) ∉ JsMap.keys (pending d) ->
  let d2 := snd (read (snd (read d addr timeout1 now started1))
                      addr timeout2 now started2) in
  pending d2
  = pending d
    ++ [((addr, now), mkPending (S (nextPromise d)) timeout2 started2)]
  /\ timers d2
     = timers d ++ [mkTimer (addr, now) (nextPromise d) addr timeout1;
                    mkTimer (addr, now) (S (nextPromise d)) addr timeout2]
  /\ promises d2 = promises d
  /\ nextPromise d2 = S (S (nextPromise d)).
Proof.
  unfold is_open, read. cbn [new_promise socket].
  destruct (socket d) as [[[] w]|]; try discriminate.
  intros _ Hk. cbn.
  rewrite (set_fresh _ _ _ Hk), set_last by exact Hk.
  rewrite <- app_assoc. auto.
Qed.

(** When the timers [ta] then [tb] of two reads that share the entry of
    [id] fire, the first rejects its own promise and removes the entry; the
    second finds nothing and leaves its promise behind. *)
Lemma fired_both (d d2 : PLIDriver) (id : RequestId) (r : PendingRequest)
  (ta tb : Timer) :
  invariant d ->
  (forall t, t ∈ timers d -> (timer_promise t < nextPromise d)%nat) ->
  id ∉ JsMap.keys (pending d) ->
  pending d2 = pending d ++ [(id, r)] ->
  promises d2 = promises d ->
  nextPromise d2 = S (S (nextPromise d)) ->
  disarm tb (disarm ta (timers d2)) = timers d ->
  timer_id ta = id -> timer_id tb = id ->
  (nextPromise d <= timer_promise ta < S (S (nextPromise d)))%nat ->
  (nextPromise d <= timer_promise tb < S (S (nextPromise d)))%nat ->
  timer_promise ta <> timer_promise tb ->
  Promise.outcome (promises (fire tb (fire ta d2))) (timer_promise ta)
  = Some (Promise.Rejected (Promise.ReadTimeout (timer_addr ta)))
  /\ orphan (fire tb (fire ta d2)) (timer_promise tb).
Proof.
  intros Hinv Hbound Hk Hp Hl Hn Hts Hida Hidb Hpa Hpb Hne.
  assert (Hha : JsMap.has (timer_id ta) (pending d2) = true)
    by (rewrite Hida, Hp; apply has_last).
  destruct (fire_holder d2 ta Hha) as (Hp1 & Hl1 & Hn1 & Ht1).
  rewrite Hida, Hp, delete_last in Hp1 by exact Hk.
  assert (Hhb : JsMap.has (timer_id tb) (pending (fire ta d2)) = false)
    by (rewrite Hidb, Hp1; now apply has_false_iff).
  destruct (fire_idle (fire ta d2) tb Hhb) as (Hp2 & Hl2 & Hn2 & Ht2).
  rewrite Hp1 in Hp2. rewrite Hl1, Hl in Hl2. rewrite Hn1, Hn in Hn2.
  rewrite Ht1, Hts in Ht2.
  assert (Hfree : forall p, (nextPromise d <= p)%nat ->
                            Promise.outcome (promises d) p = None).
  { intros p Hge. destruct (Promise.outcome (promises d) p) as [o|] eqn:Ho;
      [|reflexivity].
    exfalso.
    assert (Hin : exists q, q ∈ promises d /\ fst q = p).
    { clear -Ho. induction (promises d) as [|[q o'] log IH]; [discriminate|].
      cbn in Ho. case_decide.
      - subst q. eexists. split; [apply list_elem_of_here|reflexivity].
      - destruct (IH Ho) as (q' & Hq' & Hfst).
        exists q'. split; [now apply list_elem_of_further|exact Hfst]. }
    destruct Hin as (q & Hq & <-).
    pose proof (inv_log d Hinv q Hq). lia. }
  split.
  - rewrite Hl2. apply outcome_settle_new, Hfree. lia.
  - unfold orphan. rewrite Hl2, Hn2. unfold is_pending. rewrite Hp2, Ht2.
    split; [|split; [|split]].
    + rewrite outcome_settle_other by (intros Heq; now apply Hne).
      apply Hfree. lia.
    + lia.
    + intros (e & He & Hep). pose proof (inv_handles d Hinv e He). lia.
    + intros (t & Ht & Htp). pose proof (Hbound t Ht). lia.
Qed.

(** No handler settles a promise that neither a pending request nor a
    timer holds. *)
Lemma orphan_step (d d' : PLIDriver) (e : Event) (p : nat) :
  orphan d p -> step d e = Some d' -> orphan d' p.
Proof.
  intros (Hout & Hlt & Hnp & Hnt) Hs.
  unfold step in Hs. destruct (enabled d e) eqn:Hen; [|discriminate].
  destruct e as [| | |bytes|addr tmo now started|t|]; cbn [handle] in Hs.
  - injection Hs as <-. repeat split; assumption.
  - injection Hs as <-. unfold on_close, _scheduleReconnect. cbn.
    destruct (reconnectTimer d); repeat split; assumption.
  - injection Hs as <-. repeat split; assumption.
  - unfold on_data, _processResponses in Hs.
    apply processLoop_effect in Hs.
    destruct Hs as ([[Hp Hl]|(id & r & rest & v & Hp & Hp' & Hl)] & Hn & Ht & _);
      cbn in Hp, Hl, Hn, Ht; unfold orphan, is_pending;
      rewrite Hl, Hn, Ht.
    + rewrite Hp. repeat split; assumption.
    + rewrite Hp'. split; [|split; [|split]].
      * rewrite outcome_settle_other; [exact Hout|].
        intros ->. apply Hnp. exists (id, r). split; [|reflexivity].
        rewrite Hp. apply list_elem_of_here.
      * exact Hlt.
      * intros (e & He & Hep). apply Hnp. exists e. split; [|exact Hep].
        rewrite Hp. now apply list_elem_of_further.
      * exact Hnt.
  - injection Hs as <-. unfold read. cbn [new_promise socket].
    assert (Hclosed : orphan
      (settle (snd (new_promise d)) (nextPromise d)
              (Promise.Rejected Promise.NotConnected)) p).
    { unfold orphan, is_pending. cbn.
      rewrite outcome_settle_other by lia.
      repeat split; try assumption. lia. }
    destruct (socket d) as [[[] w]|]; [|exact Hclosed|exact Hclosed].
    unfold orphan, is_pending. cbn.
    split; [exact Hout|]. split; [lia|]. split.
    + intros (e & He & Hep). apply elem_of_set in He.
      destruct He as [->|He]; [cbn in Hep; lia|].
      apply Hnp. exists e. auto.
    + intros (t & Ht & Htp). apply elem_of_app in Ht.
      destruct Ht as [Ht|Ht].
      * apply Hnt. exists t. auto.
      * apply list_elem_of_singleton in Ht. subst t. cbn in Htp. lia.
  - injection Hs as <-.
    cbn in Hen. apply bool_decide_eq_true in Hen.
    assert (Hpt : timer_promise t <> p).
    { intros Heq. apply Hnt. exists t. auto. }
    unfold fire, read_timer, orphan, is_pending.
    destruct (JsMap.has (timer_id t) (pending d)); cbn.
    + split; [|split; [|split]].
      * rewrite outcome_settle_other by (intros Heq; now apply Hpt).
        exact Hout.
      * exact Hlt.
      * intros (e & He & Hep). apply elem_of_delete in He.
        apply Hnp. exists e. auto.
      * intros (t' & Ht' & Htp). apply elem_of_disarm in Ht'.
        apply Hnt. exists t'. auto.
    + split; [exact Hout|]. split; [exact Hlt|]. split; [exact Hnp|].
      intros (t' & Ht' & Htp). apply elem_of_disarm in Ht'.
      apply Hnt. exists t'. auto.
  - injection Hs as <-. repeat split; assumption.
Qed.

Lemma orphan_run (es : list Event) :
  forall (d d' : PLIDriver) (p : nat),
    orphan d p -> run d es = Some d' -> orphan d' p.
Proof.
  induction es as [|e es IH]; intros d d' p Ho; cbn [run].
  - intros [= <-]. exact Ho.
  - destruct (step d e) as [d1|] eqn:Hs; [|discriminate].
    apply IH. now apply (orphan_step d d1 e).
Qed.

(** Both orders in which the timers of two colliding reads can fire. *)
Lemma collision_orphans (d : PLIDriver) (addr timeout1 timeout2 now started1
  started2 : Z) :
  reachable d -> is_open d = true ->
  fresh d (Read addr timeout1 now started1) ->
  let d2 := snd (read (snd (read d addr timeout1 now started1))
                      addr timeout2 now started2) in
  let t1 := mkTimer (addr, now) (nextPromise d) addr timeout1 in
  let t2 := mkTimer (addr, now) (S (nextPromise d)) addr timeout2 in
  (Promise.outcome (promises (fire t2 (fire t1 d2))) (nextPromise d)
   = Some (Promise.Rejected (Promise.ReadTimeout addr))
   /\ orphan (fire t2 (fire t1 d2)) (S (nextPromise d)))
  /\ (Promise.outcome (promises (fire t1 (fire t2 d2))) (S (nextPromise d))
      = Some (Promise.Rejected (Promise.ReadTimeout addr))
      /\ orphan (fire t1 (fire t2 d2)) (nextPromise d)).
Proof.
  intros Hr Ho [Hk Hkt] d2 t1 t2.
  pose proof (reachable_invariant d Hr) as Hinv.
  pose proof (reachable_timer_bound d Hr) as Hbound.
  destruct (double_read d addr timeout1 timeout2 now started1 started2 Ho Hk)
    as (Hp & Ht & Hl & Hn).
  fold d2 t1 t2 in Hp, Ht, Hl, Hn.
  assert (Hfresh : forall t, timer_id t = (addr, now) -> t ∉ timers d).
  { intros t Hid Hin. apply Hkt. rewrite <- Hid.
    apply list_elem_of_In, in_map, list_elem_of_In. exact Hin. }
  assert (Hne : t1 <> t2) by (unfold t1, t2; intros [= Heq]; lia).
  assert (Hne' : t2 <> t1) by (intros Heq; now apply Hne).
  split.
  - apply (fired_both d d2 (addr, now) _ t1 t2 Hinv Hbound Hk Hp Hl Hn);
      try reflexivity; try (cbn; lia).
    rewrite Ht, disarm_app by now apply Hfresh.
    cbn [disarm]. case_decide; [|contradiction].
    rewrite disarm_app by now apply Hfresh.
    cbn [disarm]. case_decide; [|contradiction]. apply app_nil_r.
  - apply (fired_both d d2 (addr, now) _ t2 t1 Hinv Hbound Hk Hp Hl Hn);
      try reflexivity; try (cbn; lia).
    rewrite Ht, disarm_app by now apply Hfresh.
    cbn [disarm]. case_decide; [contradiction|].
    case_decide; [|contradiction].
    rewrite disarm_app by now apply Hfresh.
    cbn [disarm]. case_decide; [|contradiction]. apply app_nil_r.
Qed.

(** X10.  Two reads of the same address issued within one millisecond get
    the same request id, so the second takes over the Map entry of the
    first: one entry for two promises, and two timers.  Whichever timer
    fires first rejects its own promise and deletes the entry; the other
    timer then finds no entry and does nothing, and its promise is left
    unsettled with no request and no timer to settle it. *)
Theorem request_id_collision (d : PLIDriver) (addr timeout1 timeout2 now
  started1 started2 : Z) :
  reachable d -> is_open d = true ->
  fresh d (Read addr timeout1 now started1) ->
  let p1 := nextPromise d in
  let p2 := S (nextPromise d) in
  let d2 := snd (read (snd (read d addr timeout1 now started1))
                      addr timeout2 now started2) in
  let t1 := mkTimer (addr, now) p1 addr timeout1 in
  let t2 := mkTimer (addr, now) p2 addr timeout2 in
  pending d2 = pending d ++ [((addr, now), mkPending p2 timeout2 started2)]
  /\ timers d2 = timers d ++ [t1; t2]
  /\ (Promise.outcome (promises (fire t2 (fire t1 d2))) p1
      = Some (Promise.Rejected (Promise.ReadTimeout addr))
      /\ orphan (fire t2 (fire t1 d2)) p2)
  /\ (Promise.outcome (promises (fire t1 (fire t2 d2))) p2
      = Some (Promise.Rejected (Promise.ReadTimeout addr))
      /\ orphan (fire t1 (fire t2 d2)) p1).
Proof.
  intros Hr Ho Hf p1 p2 d2 t1 t2.
  destruct (double_read d addr timeout1 timeout2 now started1 started2 Ho
              (proj1 Hf)) as (Hp & Ht & _).
  split; [exact Hp|]. split; [exact Ht|].
  exact (collision_orphans d addr timeout1 timeout2 now started1 started2
           Hr Ho Hf).
Qed.

Lemma request_id_collision_witness :
  let d := connected in
  let d2 := snd (read (snd (read d 50 100 1000 1000)) 50 100 1000 1000) in
  let t1 := mkTimer (50, 1000) (nextPromise d) 50 100 in
  let t2 := mkTimer (50, 1000) (S (nextPromise d)) 50 100 in
  pending d2
  = pending d ++ [((50, 1000), mkPending (S (nextPromise d)) 100 1000)]
  /\ timers d2 = timers d ++ [t1; t2]
  /\ (Promise.outcome (promises (fire t2 (fire t1 d2))) (nextPromise d)
      = Some (Promise.Rejected (Promise.ReadTimeout 50))
      /\ orphan (fire t2 (fire t1 d2)) (S (nextPromise d)))
  /\ (Promise.outcome (promises (fire t1 (fire t2 d2))) (S (nextPromise d))
      = Some (Promise.Rejected (Promise.ReadTimeout 50))
      /\ orphan (fire t1 (fire t2 d2)) (nextPromise d)).
Proof.
  intros d.
  apply (request_id_collision d 50 100 100 1000 1000 1000).
  - apply reachable_connected.
  - reflexivity.
  - split; cbn; intros Hin; inversion Hin.
Defined.

(** X11.  A promise that is unsettled and held by no pending request and
    by no armed timer stays so through every sequence of events: no
    handler of the driver ever settles it. *)
Theorem orphan_forever (d d' : PLIDriver) (es : list Event) (p : nat) :
  orphan d p -> run d es = Some d' ->
  orphan d' p /\ Promise.outcome (promises d') p = None.
Proof.
  intros Ho Hrun.
  pose proof (orphan_run es d d' p Ho Hrun) as Ho'.
  split; [exact Ho'|]. exact (proj1 Ho').
Qed.

Lemma orphan_forever_witness :
  let d2 := snd (read (snd (read connected 50 100 1000 1000))
                      50 100 1000 1000) in
  let t1 := mkTimer (50, 1000) (nextPromise connected) 50 100 in
  let t2 := mkTimer (50, 1000) (S (nextPromise connected)) 50 100 in
  match run (fire t2 (fire t1 d2))
            [Data [0xC8; 138; 0xC8; 139]; SocketCloses; ReconnectTimerFires;
             SocketOpens; Read 50 100 2000 2000; Data [7]]
  with
  | Some d' =>
      orphan d' (S (nextPromise connected))
      /\ Promise.outcome (promises d') (S (nextPromise connected)) = None
  | None => False
  end.
Proof.
  intros d2 t1 t2.
  destruct (run (fire t2 (fire t1 d2)) _) as [d'|] eqn:Hrun.
  - apply (orphan_forever _ _ _ _
             (proj2 (proj1 (collision_orphans connected 50 100 100 1000 1000
                              1000 reachable_connected eq_refl
                              (conj (fun H => not_elem_of_nil _ H)
                                    (fun H => not_elem_of_nil _ H)))))
             Hrun).
  - vm_compute in Hrun. discriminate.
Defined.

End Collision.

(** ** The command encoder on any integers *)

Section Frames.

Lemma ToInt32_mod_256 (z : Z) : Js.ToInt32 z mod 256 = z mod 256.
Proof.
  unfold Js.ToInt32. change (2 ^ 32) with 4294967296.
  change (2 ^ 31) with 2147483648.
  destruct (Z.ltb_spec (z mod 4294967296) 2147483648);
    Z.div_mod_to_equations; lia.
Qed.

Lemma lxor_mod_256 (x y : Z) :
  Z.lxor x y mod 256 = Z.lxor (x mod 256) (y mod 256).
Proof.
  change 256 with (2 ^ 8). rewrite <- !Z.land_ones by lia.
  apply Z.bits_inj'. intros n Hn.
  rewrite !Z.land_spec, !Z.lxor_spec, !Z.land_spec.
  destruct (Z.testbit x n), (Z.testbit y n), (Z.testbit (Z.ones 8) n);
    reflexivity.
Qed.

Lemma ToUint8_xor (a b : Z) :
  Js.ToUint8 (Js.xor a b) = Z.lxor (a mod 256) (b mod 256).
Proof.
  unfold Js.ToUint8, Js.xor.
  now rewrite lxor_mod_256, !ToInt32_mod_256.
Qed.

(** The check byte, whatever the arguments. *)
Lemma check_byte (cmd addr data : Z) :
  Js.ToUint8 (Js.xor (Js.xor (Js.xor cmd addr) data) 0xFF)
  = Z.lxor (Z.lxor (Z.lxor (cmd mod 256) (addr mod 256)) (data mod 256)) 0xFF.
Proof.
  rewrite ToUint8_xor.
  change (Js.xor (Js.xor cmd addr) data mod 256)
    with (Js.ToUint8 (Js.xor (Js.xor cmd addr) data)).
  rewrite ToUint8_xor.
  change (Js.xor cmd addr mod 256) with (Js.ToUint8 (Js.xor cmd addr)).
  rewrite ToUint8_xor. reflexivity.
Qed.

(** X12.  For arguments that are any integers, not only bytes, the two
    command builders return the same four bytes; these XOR to 0xFF, so the
    frame always passes the receiver's check; and the frame depends on the
    arguments modulo 256 only: an address of 256 or more is sent as its
    remainder modulo 256. *)
Theorem buildCommand_any_integers (cmd addr data : Z) :
  let frame := PliDriverComplete._buildCommand cmd addr data in
  PliDriver.buildCommand cmd addr data = frame
  /\ length frame = 4%nat
  /\ List.Forall is_byte frame
  /\ frame_xor frame = 0xFF
  /\ frame
     = PliDriverComplete._buildCommand (cmd mod 256) (addr mod 256)
                                       (data mod 256).
Proof.
  intros frame. subst frame.
  unfold PliDriver.buildCommand, PliDriverComplete._buildCommand,
    Js.Buffer_from.
  cbn [List.map length]. rewrite !check_byte.
  split; [reflexivity|]. split; [reflexivity|].
  unfold Js.ToUint8. rewrite !Z.mod_mod by lia.
  assert (Hb : forall z, is_byte (z mod 256))
    by (intros z; unfold is_byte; apply Z.mod_pos_bound; lia).
  split; [|split; [|reflexivity]].
  - assert (Hchk : is_byte
      (Z.lxor (Z.lxor (Z.lxor (cmd mod 256) (addr mod 256)) (data mod 256))
              255)).
    { repeat apply lxor_byte; try apply Hb. unfold is_byte. lia. }
    repeat (apply List.Forall_cons; [first [apply Hb | exact Hchk]|]).
    apply List.Forall_nil.
  - unfold frame_xor. cbn [fold_right].
    apply Z.bits_inj'. intros n Hn. rewrite !Z.lxor_spec.
    rewrite Z.bits_0.
    destruct (Z.testbit (cmd mod 256) n), (Z.testbit (addr mod 256) n),
      (Z.testbit (data mod 256) n), (Z.testbit 255 n); reflexivity.
Qed.

End Frames.

(** ** The history log, slot by slot *)

Section HistoryRing.

Lemma historyOffset_closed (pointer day : Z) :
  0 <= pointer <= 29 -> 1 <= day <= 30 ->
  Protocol.historyOffset pointer day
  = 0x2E + 7 * ((pointer - (day - 1)) mod 30).
Proof.
  intros Hp Hd. unfold Protocol.historyOffset.
  destruct (Z.ltb_spec (46 + 7 * pointer - 7 * (day - 1)) 46);
    Z.div_mod_to_equations; lia.
Qed.

Lemma historyOffset_inj (pointer day1 day2 : Z) :
  0 <= pointer <= 29 -> 1 <= day1 <= 30 -> 1 <= day2 <= 30 ->
  Protocol.historyOffset pointer day1 = Protocol.historyOffset pointer day2 ->
  day1 = day2.
Proof.
  intros Hp H1 H2. unfold Protocol.historyOffset.
  destruct (Z.ltb_spec (46 + 7 * pointer - 7 * (day1 - 1)) 46),
    (Z.ltb_spec (46 + 7 * pointer - 7 * (day2 - 1)) 46); lia.
Qed.

(** X13.  For a pointer in 0..29, the 30 offsets of [readHistory] walk the
    ring backwards from the pointer's slot: day [m] is read at slot
    [(pointer - (m-1)) mod 30], that is at address 0x2E + 7 times that
    slot.  No two days share an offset, and every 7-byte record ends at
    an address of at most 255. *)
Theorem readHistory_visits_each_slot_once (pointer : Z) :
  0 <= pointer <= 29 ->
  (forall day, 1 <= day <= 30 ->
     Protocol.historyOffset pointer day
     = 0x2E + 7 * ((pointer - (day - 1)) mod 30))
  /\ NoDup (Protocol.readHistory_offsets pointer)
  /\ List.Forall (fun offset => offset + 6 <= 255)
                 (Protocol.readHistory_offsets pointer).
Proof.
  intros Hp. split; [|split].
  - intros day Hd. now apply historyOffset_closed.
  - unfold Protocol.readHistory_offsets.
    apply (NoDup_fmap_2_strong
             (fun day : nat => Protocol.historyOffset pointer (Z.of_nat day))).
    + intros d1 d2 H1 H2 Heq.
      apply list_elem_of_In, in_seq in H1. apply list_elem_of_In, in_seq in H2.
      apply historyOffset_inj in Heq; lia.
    + apply NoDup_ListNoDup, seq_NoDup.
  - unfold Protocol.readHistory_offsets. rewrite List.Forall_map.
    apply List.Forall_forall. intros day Hday. apply in_seq in Hday.
    rewrite historyOffset_closed by lia.
    Z.div_mod_to_equations. lia.
Qed.

Lemma readHistory_visits_each_slot_once_witness :
  (forall day, 1 <= day <= 30 ->
     Protocol.historyOffset 2 day = 0x2E + 7 * ((2 - (day - 1)) mod 30))
  /\ NoDup (Protocol.readHistory_offsets 2)
  /\ List.Forall (fun offset => offset + 6 <= 255)
                 (Protocol.readHistory_offsets 2).
Proof.
  apply (readHistory_visits_each_slot_once 2). lia.
Defined.

(** X14.  The last three bytes of a day record and the two amp-hour
    counters determine each other: every pair of counters below 4096 is
    the reading of exactly one triple of bytes, the one that splits each
    counter into its low byte and its high nibble. *)
Theorem parseDayRecord_counters (ratio b0 b1 b2 b3 charge load : Z) :
  0 <= charge < 4096 -> 0 <= load < 4096 ->
  let b4 := charge mod 256 in
  let b5 := load mod 256 in
  let b6 := charge / 256 + 16 * (load / 256) in
  (is_byte b4 /\ is_byte b5 /\ is_byte b6
   /\ exists r,
        Protocol.parseDayRecord ratio [b0; b1; b2; b3; b4; b5; b6] = Some r
        /\ Protocol.chargeAh r = charge /\ Protocol.loadAh r = load)
  /\ forall b4' b5' b6' r,
       is_byte b4' -> is_byte b5' -> is_byte b6' ->
       Protocol.parseDayRecord ratio [b0; b1; b2; b3; b4'; b5'; b6'] = Some r ->
       Protocol.chargeAh r = charge -> Protocol.loadAh r = load ->
       b4' = b4 /\ b5' = b5 /\ b6' = b6.
Proof.
  intros Hc Hl b4 b5 b6.
  assert (H4 : is_byte b4) by (unfold is_byte, b4; Z.div_mod_to_equations; lia).
  assert (H5 : is_byte b5) by (unfold is_byte, b5; Z.div_mod_to_equations; lia).
  assert (H6 : is_byte b6) by (unfold is_byte, b6; Z.div_mod_to_equations; lia).
  split.
  - do 3 (split; [assumption|]).
    destruct (parseDayRecord_arith ratio b0 b1 b2 b3 b4 b5 b6 H4 H5 H6)
      as (r & Hr & Hrc & Hrl & _).
    exists r. split; [exact Hr|]. rewrite Hrc, Hrl.
    unfold b4, b5, b6. split; Z.div_mod_to_equations; lia.
  - intros b4' b5' b6' r H4' H5' H6' Hr Hrc Hrl.
    destruct (parseDayRecord_arith ratio b0 b1 b2 b3 b4' b5' b6' H4' H5' H6')
      as (r' & Hr' & Hrc' & Hrl' & _).
    rewrite Hr in Hr'. injection Hr' as <-.
    rewrite Hrc in Hrc'. rewrite Hrl in Hrl'.
    unfold is_byte in *. unfold b4, b5, b6.
    repeat split; Z.div_mod_to_equations; lia.
Qed.

Lemma parseDayRecord_counters_witness :
  let b4 := 818 mod 256 in
  let b5 := 316 mod 256 in
  let b6 := 818 / 256 + 16 * (316 / 256) in
  (is_byte b4 /\ is_byte b5 /\ is_byte b6
   /\ exists r,
        Protocol.parseDayRecord 1 [10; 20; 30; 40; b4; b5; b6] = Some r
        /\ Protocol.chargeAh r = 818 /\ Protocol.loadAh r = 316)
  /\ forall b4' b5' b6' r,
       is_byte b4' -> is_byte b5' -> is_byte b6' ->
       Protocol.parseDayRecord 1 [10; 20; 30; 40; b4'; b5'; b6'] = Some r ->
       Protocol.chargeAh r = 818 -> Protocol.loadAh r = 316 ->
       b4' = b4 /\ b5' = b5 /\ b6' = b6.
Proof.
  apply (parseDayRecord_counters 1 10 20 30 40 818 316); lia.
Defined.

End HistoryRing.

(** ** One response frame per chunk *)

Section FramePerChunk.









End FramePerChunk.

(** ** The gateway server *)

Section Server.

Lemma written_bytes_write (s : TcpServer.Server) (socket : nat)
  (data : list Z) :
  written_bytes (TcpServer.socket_write s socket data)
  = written_bytes s + Z.of_nat (length data).
Proof.
  unfold written_bytes. cbn [TcpServer.socket_write TcpServer.written].
  induction (TcpServer.written s) as [|w ws IH]; cbn [app fold_right snd].
  - lia.
  - rewrite IH. lia.
Qed.

Local Ltac counters := unfold written_bytes; cbn; repeat split; lia.

(** What one event does to the counters. *)
Lemma handle_counters (s : TcpServer.Server) (e : TcpServer.Event) :
  let s' := TcpServer.handle s e in
  TcpServer.connections (TcpServer.stats s')
  = TcpServer.connections (TcpServer.stats s) + connection_count [e]
  /\ TcpServer.bytesReceived (TcpServer.stats s')
     = TcpServer.bytesReceived (TcpServer.stats s) + received_bytes [e]
  /\ TcpServer.errors (TcpServer.stats s')
     = TcpServer.errors (TcpServer.stats s) + error_count [e]
  /\ written_bytes s' - TcpServer.bytesSent (TcpServer.stats s')
     = written_bytes s - TcpServer.bytesSent (TcpServer.stats s)
       + 5 * ping_count [e]
  /\ TcpServer.startTime (TcpServer.stats s')
     = TcpServer.startTime (TcpServer.stats s).
Proof.
  destruct e as [| |socket now|socket data now|socket|socket|socket
                 |writable data now|];
    cbn [TcpServer.handle connection_count received_bytes error_count
         ping_count fold_right].
  - unfold TcpServer.start. destruct (TcpServer.isRunning s); counters.
  - counters.
  - counters.
  - unfold TcpServer.on_data.
    destruct (TcpServer.includes TcpServer.PING data).
    + rewrite written_bytes_write. counters.
    + counters.
  - counters.
  - counters.
  - counters.
  - unfold TcpServer.send.
    destruct (TcpServer.gatewayClient s) as [client|];
      [destruct writable|]; try counters.
    change (written_bytes
              (TcpServer.set_stats (TcpServer.socket_write s client data) ?st))
      with (written_bytes (TcpServer.socket_write s client data)).
    rewrite written_bytes_write. counters.
  - counters.
Qed.

Lemma count_cons (e : TcpServer.Event) (es : list TcpServer.Event) :
  connection_count (e :: es) = connection_count [e] + connection_count es
  /\ received_bytes (e :: es) = received_bytes [e] + received_bytes es
  /\ error_count (e :: es) = error_count [e] + error_count es
  /\ ping_count (e :: es) = ping_count [e] + ping_count es.
Proof.
  unfold connection_count, received_bytes, error_count, ping_count.
  cbn [fold_right].
  destruct e; repeat split; try lia.
  destruct (TcpServer.includes TcpServer.PING data); lia.
Qed.

Lemma run_counters (es : list TcpServer.Event) :
  forall s,
    let s' := TcpServer.run s es in
    TcpServer.connections (TcpServer.stats s')
    = TcpServer.connections (TcpServer.stats s) + connection_count es
    /\ TcpServer.bytesReceived (TcpServer.stats s')
       = TcpServer.bytesReceived (TcpServer.stats s) + received_bytes es
    /\ TcpServer.errors (TcpServer.stats s')
       = TcpServer.errors (TcpServer.stats s) + error_count es
    /\ written_bytes s' - TcpServer.bytesSent (TcpServer.stats s')
       = written_bytes s - TcpServer.bytesSent (TcpServer.stats s)
         + 5 * ping_count es
    /\ TcpServer.startTime (TcpServer.stats s')
       = TcpServer.startTime (TcpServer.stats s).
Proof.
  induction es as [|e es IH]; intros s.
  - cbn. repeat split; lia.
  - cbn zeta. change (TcpServer.run s (e :: es))
      with (TcpServer.run (TcpServer.handle s e) es).
    destruct (IH (TcpServer.handle s e)) as (H1 & H2 & H3 & H4 & H5).
    destruct (handle_counters s e) as (K1 & K2 & K3 & K4 & K5).
    destruct (count_cons e es) as (C1 & C2 & C3 & C4).
    rewrite H1, H2, H3, H4, H5, K1, K2, K3, K4, K5, C1, C2, C3, C4.
    repeat split; lia.
Qed.

(** X16.  After any sequence of events from the module's load, the
    counters of [stats] are exact: [connections] is the number of
    connections accepted, [bytesReceived] the total length of the chunks
    received, [errors] the number of socket errors.  [bytesSent] counts
    only what [send] wrote: the bytes written to the sockets exceed it by
    the five bytes of each PONG reply.  And [stats.startTime] is never
    set. *)
Theorem server_stats_exact (es : list TcpServer.Event) :
  let s := TcpServer.run TcpServer.init es in
  TcpServer.connections (TcpServer.stats s) = connection_count es
  /\ TcpServer.bytesReceived (TcpServer.stats s) = received_bytes es
  /\ TcpServer.errors (TcpServer.stats s) = error_count es
  /\ written_bytes s
     = TcpServer.bytesSent (TcpServer.stats s) + 5 * ping_count es
  /\ TcpServer.startTime (TcpServer.stats s) = None.
Proof.
  destruct (run_counters es TcpServer.init) as (H1 & H2 & H3 & H4 & H5).
  cbn zeta. rewrite H1, H2, H3, H5.
  change (written_bytes TcpServer.init) with 0 in H4.
  cbn [TcpServer.init TcpServer.stats TcpServer.connections
       TcpServer.bytesReceived TcpServer.errors TcpServer.bytesSent
       TcpServer.startTime] in *.
  repeat split; lia.
Qed.

(** X17.  The uptime [getStats] reports is never positive: no event sets
    [stats.startTime], so the uptime of a running server is the
    difference of two readings of the clock taken in that order, and 0
    when the server is not running. *)
Theorem server_uptime_never_positive (es : list TcpServer.Event)
  (now1 now2 : Z) :
  now1 <= now2 ->
  let s := TcpServer.run TcpServer.init es in
  TcpServer.uptime s now1 now2
  = (if TcpServer.isRunning s then now1 - now2 else 0)
  /\ TcpServer.uptime s now1 now2 <= 0.
Proof.
  intros Hclock s.
  destruct (run_counters es TcpServer.init) as (_ & _ & _ & _ & Hstart).
  fold s in Hstart. unfold TcpServer.uptime. rewrite Hstart. cbn.
  destruct (TcpServer.isRunning s); split; try reflexivity; lia.
Qed.

Lemma server_uptime_never_positive_witness :
  let s := TcpServer.run TcpServer.init
             [TcpServer.Start; TcpServer.Listening;
              TcpServer.Connection 1 1000;
              TcpServer.SocketData 1 [80; 73; 78; 71; 10] 2000] in
  TcpServer.uptime s 90000 90000
  = (if TcpServer.isRunning s then 90000 - 90000 else 0)
  /\ TcpServer.uptime s 90000 90000 <= 0.
Proof.
  apply (server_uptime_never_positive _ 90000 90000). lia.
Defined.

End Server.

(** ** Every read settles *)

Section Settles.

Import PliDriverComplete.

Lemma NoDup_promises_disarm (t : Timer) (ts : list Timer) :
  NoDup (List.map timer_promise ts) ->
  NoDup (List.map timer_promise (disarm t ts)).
Proof.
  induction ts as [|t' ts IH]; cbn; intros Hnd; [exact Hnd|].
  apply NoDup_cons in Hnd. destruct Hnd as [Hnin Hnd].
  case_decide; [exact Hnd|].
  cbn. apply NoDup_cons. split; [|now apply IH].
  intros Hin. apply Hnin.
  apply list_elem_of_In, in_map_iff in Hin. destruct Hin as (t1 & Hp & Hin).
  apply list_elem_of_In, in_map_iff. exists t1. split; [exact Hp|].
  apply list_elem_of_In. apply list_elem_of_In in Hin.
  now apply elem_of_disarm in Hin.
Qed.

(** Each armed timer holds a promise of its own. *)
Lemma reachable_timer_promises (d : PLIDriver) :
  reachable d -> NoDup (List.map timer_promise (timers d)).
Proof.
  induction 1 as [timeout m|d d' e Hr IH Hf Hs].
  - cbn. constructor.
  - pose proof (reachable_timer_bound d Hr) as Hbound.
    unfold step in Hs. destruct (enabled d e) eqn:Hen; [|discriminate].
    destruct e as [| | |bytes|addr tmo now started|t|]; cbn [handle] in Hs.
    + injection Hs as <-. exact IH.
    + injection Hs as <-. unfold on_close, _scheduleReconnect. cbn.
      destruct (reconnectTimer d); exact IH.
    + injection Hs as <-. exact IH.
    + unfold on_data, _processResponses in Hs.
      apply processLoop_effect in Hs. destruct Hs as (_ & _ & Ht & _).
      rewrite Ht. exact IH.
    + injection Hs as <-.
      destruct (is_open d) eqn:Ho.
      * destruct Hf as [Hk _].
        destruct (read_open d addr tmo now started Ho Hk)
          as (_ & _ & Ht & _).
        rewrite Ht, map_app. cbn [List.map timer_promise].
        apply NoDup_app. split; [exact IH|]. split.
        -- intros p Hp Hp'. apply list_elem_of_singleton in Hp'. subst p.
           apply list_elem_of_In, in_map_iff in Hp.
           destruct Hp as (t & Htp & Hin). apply list_elem_of_In in Hin.
           specialize (Hbound t Hin). lia.
        -- apply NoDup_singleton.
      * rewrite read_closed by exact Ho. exact IH.
    + injection Hs as <-. cbn [fire timers set_timers].
      now apply NoDup_promises_disarm.
    + injection Hs as <-. exact IH.
Qed.

Lemma timer_of_promise (ts : list Timer) (t t' : Timer) :
  NoDup (List.map timer_promise ts) -> t ∈ ts -> t' ∈ ts ->
  timer_promise t = timer_promise t' -> t = t'.
Proof.
  induction ts as [|t0 ts IH]; cbn; intros Hnd Ht Ht' Heq;
    [inversion Ht|].
  apply NoDup_cons in Hnd. destruct Hnd as [Hnin Hnd].
  assert (Hmap : forall x, x ∈ ts -> timer_promise x ∈ List.map timer_promise ts).
  { intros x Hx. apply list_elem_of_In, in_map, list_elem_of_In. exact Hx. }
  apply elem_of_cons in Ht. apply elem_of_cons in Ht'.
  destruct Ht as [->|Ht], Ht' as [->|Ht'].
  - reflexivity.
  - exfalso. apply Hnin. rewrite Heq. now apply Hmap.
  - exfalso. apply Hnin. rewrite <- Heq. now apply Hmap.
  - now apply IH.
Qed.

(** X18.  Under distinct request ids every read is settled by its own
    timeout at the latest: in any state the driver reaches, once an armed
    timer has fired, the promise of its read is settled.  If the request
    was still pending, the outcome is the timeout failure for its
    address; otherwise the promise keeps the outcome it had. *)
Theorem read_settles_by_timeout (d : PLIDriver) (t : Timer) :
  reachable d -> t ∈ timers d ->
  let p := timer_promise t in
  (Promise.outcome (promises d) p = None ->
   Promise.outcome (promises (fire t d)) p
   = Some (Promise.Rejected (Promise.ReadTimeout (timer_addr t))))
  /\ (forall o, Promise.outcome (promises d) p = Some o ->
        Promise.outcome (promises (fire t d)) p = Some o)
  /\ exists o, Promise.outcome (promises (fire t d)) p = Some o.
Proof.
  intros Hr Ht p.
  pose proof (reachable_invariant d Hr) as Hinv.
  assert (Hkept : forall o, Promise.outcome (promises d) p = Some o ->
            Promise.outcome (promises (fire t d)) p = Some o).
  { intros o Ho. unfold fire, read_timer.
    destruct (JsMap.has (timer_id t) (pending d)); cbn; [|exact Ho].
    now apply outcome_settle_kept. }
  assert (Hnew : Promise.outcome (promises d) p = None ->
            Promise.outcome (promises (fire t d)) p
            = Some (Promise.Rejected (Promise.ReadTimeout (timer_addr t)))).
  { intros Hnone.
    destruct (reachable_pending_or_settled d Hr p
                (reachable_timer_bound d Hr t Ht))
      as [(e & He & Hep)|(o & Ho)]; [|rewrite Ho in Hnone; discriminate].
    destruct (inv_armed d Hinv e He) as (t' & Ht' & Hid & Htp).
    assert (t' = t).
    { apply (timer_of_promise (timers d));
        [now apply reachable_timer_promises|exact Ht'|exact Ht|].
      now rewrite Htp, Hep. }
    subst t'.
    apply (fire_pending d t Hinv Ht). rewrite Hid. now apply key_of_entry. }
  split; [exact Hnew|]. split; [exact Hkept|].
  destruct (Promise.outcome (promises d) p) as [o|] eqn:Ho.
  - exists o. now apply Hkept.
  - eexists. now apply Hnew.
Qed.

Lemma read_settles_by_timeout_witness :
  let p := timer_promise first_timer in
  (Promise.outcome (promises two_reads) p = None ->
   Promise.outcome (promises (fire first_timer two_reads)) p
   = Some (Promise.Rejected (Promise.ReadTimeout (timer_addr first_timer))))
  /\ (forall o, Promise.outcome (promises two_reads) p = Some o ->
        Promise.outcome (promises (fire first_timer two_reads)) p = Some o)
  /\ exists o,
       Promise.outcome (promises (fire first_timer two_reads)) p = Some o.
Proof.
  apply (read_settles_by_timeout two_reads first_timer).
  - apply reachable_two_reads.
  - apply list_elem_of_here.
Defined.

End Settles.
